(** * BoFire candidate-generation core: a shallow embedding

    The development follows [bofire/strategies/strategy.py],
    [bofire/strategies/predictives/predictive.py],
    [bofire/strategies/predictives/botorch.py],
    [bofire/data_models/strategies/predictives/botorch.py] and
    [bofire/data_models/features/continuous.py].

    Conventions.
    - Python [int] is [Z]; tensor column indices and list positions are [nat].
    - Python [float] values are only stored, copied and compared for equality
      by the code modelled here, never computed with; they are rationals [Q],
      compared with [Qeq_bool].
    - A Python [dict] is a [gmap]; fixed-feature dictionaries are [gmap nat value].
    - A raised exception is the [Raise] outcome of the [result] monad; code
      that mutates the strategy object runs in the state-and-error monad [M].
*)

From Stdlib Require Import ZArith QArith Lia.
From stdpp Require Import base option list gmap strings fin_maps.

Open Scope Z_scope.

(** ** Exceptions and the error monad *)

Inductive exn : Type :=
| ValueError (msg : string)
| ValidationError (msgs : list string)
| KeyError (key : string)
| IndexError
| AssertionError (msg : string)
| IOError
| TypeError (msg : string)
| NotImplementedError
| ExternalError (msg : string).

Inductive result (A : Type) : Type :=
| Ok (a : A)
| Raise (e : exn).

Arguments Ok {A} a.
Arguments Raise {A} e.

#[global] Instance result_ret : MRet result := fun _ a => Ok a.
#[global] Instance result_bind : MBind result := fun _ _ f m =>
  match m with
  | Ok a => f a
  | Raise e => Raise e
  end.
#[global] Instance result_fmap : FMap result := fun _ _ f m =>
  match m with
  | Ok a => Ok (f a)
  | Raise e => Raise e
  end.

Definition or_raise {A} (e : exn) (o : option A) : result A :=
  match o with
  | Some a => Ok a
  | None => Raise e
  end.

Definition is_Ok {A} (r : result A) : Prop := exists a, r = Ok a.

(** [for x in xs: acc = body(x, acc)] where the body may raise. *)
Fixpoint for_each {A S : Type} (xs : list A) (body : A -> S -> result S) (acc : S)
  : result S :=
  match xs with
  | [] => Ok acc
  | x :: xs' => acc' ← body x acc; for_each xs' body acc'
  end.

(** ** Enumerations

    [bofire/data_models/enum.py] is not part of the sources at hand. *)

(** Modelled from the spec: [CategoricalMethodEnum], the method selector of
    section 4.4, ranges over EXHAUSTIVE and FREE. *)
Inductive CategoricalMethodEnum : Type := EXHAUSTIVE | FREE.

(** Modelled from the spec: [CategoricalEncodingEnum], the encoding of
    section 3, is one of one-hot, ordinal, dummy and descriptor; a feature
    without an entry in the encoding spec has encoding none. *)
Inductive CategoricalEncodingEnum : Type := ONE_HOT | ORDINAL | DUMMY | DESCRIPTOR.

#[global] Instance CategoricalMethodEnum_eq_dec : EqDecision CategoricalMethodEnum.
Proof. solve_decision. Defined.

#[global] Instance CategoricalEncodingEnum_eq_dec : EqDecision CategoricalEncodingEnum.
Proof. solve_decision. Defined.

(** ** Data model of the strategy: [bofire/data_models/strategies/predictives/botorch.py] *)

Module DataModel.

(** [is_power_of_two(n)]: [(n != 0) and (n & (n - 1) == 0)]. *)
Definition is_power_of_two (n : Z) : bool :=
  negb (n =? 0) && (Z.land n (n - 1) =? 0).

Definition sobol_msg : string :=
  "number sobol samples have to be of the power of 2 to increase performance".
Definition raw_msg : string :=
  "number raw samples have to be of the power of 2 to increase performance".
Definition positive_msg : string := "ensure this value is greater than 0".

(** The [PositiveInt] field type of pydantic. *)
Definition validate_PositiveInt (v : Z) : result Z :=
  if 0 <? v then Ok v else Raise (ValueError positive_msg).

Definition validate_num_sobol_samples (v : Z) : result Z :=
  if is_power_of_two v then Ok v else Raise (ValueError sobol_msg).

Definition validate_num_raw_samples (v : Z) : result Z :=
  if is_power_of_two v then Ok v else Raise (ValueError raw_msg).

(** The validated fields of the data model.  [rest] stands for the fields the
    root validator works on ([domain], [surrogate_specs]). *)
Record BotorchStrategy (R : Type) : Type := mkBotorchStrategy {
  num_sobol_samples : Z;
  num_restarts : Z;
  num_raw_samples : Z;
  descriptor_method : CategoricalMethodEnum;
  categorical_method : CategoricalMethodEnum;
  discrete_method : CategoricalMethodEnum;
  rest : R
}.

Arguments mkBotorchStrategy {R}.
Arguments num_sobol_samples {R}.
Arguments num_restarts {R}.
Arguments num_raw_samples {R}.
Arguments descriptor_method {R}.
Arguments categorical_method {R}.
Arguments discrete_method {R}.
Arguments rest {R}.

(** One field of the model: the type's own validation, then the field's
    [@validator]s, which pydantic runs only when the type validation passed. *)
Definition validate_field (v : Z) (validators : list (Z -> result Z)) : result Z :=
  v' ← validate_PositiveInt v;
  for_each validators (fun f x => f x) v'.

Definition error_of {A} (r : result A) : list exn :=
  match r with
  | Ok _ => []
  | Raise e => [e]
  end.

Definition message_of (e : exn) : string :=
  match e with
  | ValueError m | AssertionError m | TypeError m | ExternalError m => m
  | KeyError k => k
  | _ => ""
  end.

(** The exceptions pydantic catches in a validator and reports as a
    validation error: [ValueError] (with its subclass [ValidationError]),
    [TypeError] and [AssertionError].  Any other exception, a [KeyError] for
    one, leaves the constructor as it is. *)
Definition caught_by_pydantic (e : exn) : bool :=
  match e with
  | ValueError _ | ValidationError _ | TypeError _ | AssertionError _ => true
  | _ => false
  end.

(** The outcome of a root validator as the constructor reports it: an error
    pydantic catches is raised as a [ValidationError] with the message of the
    error (under the location [__root__]). *)
Definition run_root_validator {A} (r : result A) : result A :=
  match r with
  | Ok v => Ok v
  | Raise e => if caught_by_pydantic e then Raise (ValidationError [message_of e]) else Raise e
  end.

(** Construction of the data model.  Every field is validated and the errors
    are collected; when there is one the constructor raises a
    [ValidationError] (a [ValueError] subclass) that carries all messages.
    The root validator [update_surrogate_specs_for_domain] is declared with
    [skip_on_failure=True]: it only runs when all fields passed.  It works on
    surrogate classes that are outside of this development and is a
    parameter. *)
Definition construct {R} (root_validator : BotorchStrategy R -> result (BotorchStrategy R))
    (values : BotorchStrategy R) : result (BotorchStrategy R) :=
  let sobol := validate_field (num_sobol_samples values) [validate_num_sobol_samples] in
  let restarts := validate_field (num_restarts values) [] in
  let raw := validate_field (num_raw_samples values) [validate_num_raw_samples] in
  match error_of sobol ++ error_of restarts ++ error_of raw with
  | [] => run_root_validator (root_validator values)
  | errors => Raise (ValidationError (message_of <$> errors))
  end.

(** A number is a power of two when it is [2 ^ k] for a natural [k]. *)
Definition power_of_two (n : Z) : Prop := exists k, 0 <= k /\ n = 2 ^ k.

End DataModel.

(** ** Values

    A cell of a data frame, a category label or a pinned number. *)

Inductive value : Type :=
| Float (q : Q)
| Str (s : string).

(** Python's [==] on two such values. *)
Definition value_eqb (a b : value) : bool :=
  match a, b with
  | Float x, Float y => Qeq_bool x y
  | Str s, Str t => bool_decide (s = t)
  | _, _ => false
  end.

(** [enumerate(l)] *)
Definition enumerate {A} (l : list A) : list (nat * A) := imap pair l.

(** [l.index(x)] on a list of labels. *)
Fixpoint index_of (l : list string) (x : string) : option nat :=
  match l with
  | [] => None
  | y :: l' => if bool_decide (y = x) then Some 0%nat else S <$> index_of l' x
  end.

Definition Qmin' (a b : Q) : Q := if Qle_bool a b then a else b.
Definition Qmax' (a b : Q) : Q := if Qle_bool a b then b else a.

Definition list_min (l : list Q) : option Q :=
  match l with
  | [] => None
  | x :: l' => Some (foldl Qmin' x l')
  end.

Definition list_max (l : list Q) : option Q :=
  match l with
  | [] => None
  | x :: l' => Some (foldl Qmax' x l')
  end.

(** ** Input features

    Of the feature classes of [bofire/data_models/features/] only
    [ContinuousInput] is part of the sources at hand, and its methods
    [is_fixed] and [fixed_value] are inherited from classes that are not. *)

(** Modelled from the spec: the feature variants of section 3, with the
    fields the data model lists; [TaskInput] is a categorical input
    ([predictive.py] tests for it with [isinstance]). *)
Inductive Input : Type :=
| ContinuousInput (k : string) (lower_bound upper_bound : Q)
| DiscreteInput (k : string) (values : list Q)
| CategoricalInput (k : string) (categories : list string) (allowed : list bool)
| CategoricalDescriptorInput (k : string) (categories : list string) (allowed : list bool)
    (descriptors : list string) (values : list (list Q))
| TaskInput (k : string) (categories : list string) (allowed : list bool).

(** Modelled from the spec: the classes [isinstance] and the feature filters
    are called with. *)
Inductive InputClass : Type :=
| cls_Input
| cls_ContinuousInput
| cls_DiscreteInput
| cls_CategoricalInput
| cls_CategoricalDescriptorInput
| cls_TaskInput.

#[global] Instance InputClass_eq_dec : EqDecision InputClass.
Proof. solve_decision. Defined.

(** Modelled from the spec: [isinstance(f, c)] along the class hierarchy; a
    categorical feature with descriptors and a task feature are categorical
    features. *)
Definition isinstance (f : Input) (c : InputClass) : bool :=
  match c, f with
  | cls_Input, _ => true
  | cls_ContinuousInput, ContinuousInput _ _ _ => true
  | cls_DiscreteInput, DiscreteInput _ _ => true
  | cls_CategoricalInput, (CategoricalInput _ _ _ | CategoricalDescriptorInput _ _ _ _ _
                          | TaskInput _ _ _) => true
  | cls_CategoricalDescriptorInput, CategoricalDescriptorInput _ _ _ _ _ => true
  | cls_TaskInput, TaskInput _ _ _ => true
  | _, _ => false
  end.

(** Modelled from the spec: the field [key], the name of the feature. *)
Definition key (f : Input) : string :=
  match f with
  | ContinuousInput k _ _ | DiscreteInput k _ | CategoricalInput k _ _
  | CategoricalDescriptorInput k _ _ _ _ | TaskInput k _ _ => k
  end.

(** Modelled from the spec: the field [categories], the ordered labels. *)
Definition categories (f : Input) : list string :=
  match f with
  | CategoricalInput _ cs _ | CategoricalDescriptorInput _ cs _ _ _ | TaskInput _ cs _ => cs
  | _ => []
  end.

(** Modelled from the spec: the field [allowed], the mask parallel to the
    categories. *)
Definition allowed (f : Input) : list bool :=
  match f with
  | CategoricalInput _ _ a | CategoricalDescriptorInput _ _ a _ _ | TaskInput _ _ a => a
  | _ => []
  end.

(** Modelled from the spec: the field [descriptors], the descriptor names. *)
Definition descriptors (f : Input) : list string :=
  match f with
  | CategoricalDescriptorInput _ _ _ ds _ => ds
  | _ => []
  end.

(** Modelled from the spec: the field [values], the descriptor matrix with a
    row per category. *)
Definition descriptor_values (f : Input) : list (list Q) :=
  match f with
  | CategoricalDescriptorInput _ _ _ _ vs => vs
  | _ => []
  end.

(** Modelled from the spec: [get_allowed_categories()], the categories whose
    entry in the allowed mask is [True]. *)
Definition get_allowed_categories (f : Input) : list string :=
  fst <$> filter (fun p => snd p = true) (zip (categories f) (allowed f)).

(** Modelled from the spec: [get_forbidden_categories()], the categories
    whose entry in the allowed mask is [False]. *)
Definition get_forbidden_categories (f : Input) : list string :=
  fst <$> filter (fun p => snd p = false) (zip (categories f) (allowed f)).

(** Modelled from the spec: [is_fixed()], section 4.3.  A continuous feature
    is fixed when [lower == upper], a categorical one when exactly one
    category is allowed; a discrete feature never is (the data model rejects
    a discrete feature with a single value). *)
Definition is_fixed (f : Input) : bool :=
  match f with
  | ContinuousInput _ l u => Qeq_bool l u
  | DiscreteInput _ _ => false
  | _ => bool_decide (length (get_allowed_categories f) = 1%nat)
  end.

(** Modelled from the spec: [to_onehot_encoding], section 4.1, on one label
    [val]: a column per category, 1 at the column of [val] and 0 elsewhere. *)
Definition to_onehot_encoding (f : Input) (val : value) : list value :=
  (fun c => if value_eqb (Str c) val then Float 1 else Float 0) <$> categories f.

(** Modelled from the spec: [to_dummy_encoding], the one-hot row without its
    first column. *)
Definition to_dummy_encoding (f : Input) (val : value) : list value :=
  tail (to_onehot_encoding f val).

(** Modelled from the spec: [to_ordinal_encoding], the rank of the label. *)
Definition to_ordinal_encoding (f : Input) (val : string) : result (list value) :=
  i ← or_raise (KeyError val) (index_of (categories f) val);
  Ok [Float (inject_Z (Z.of_nat i))].

(** Modelled from the spec: [to_descriptor_encoding], the row of the
    descriptor matrix of the label. *)
Definition to_descriptor_encoding (f : Input) (val : string) : result (list value) :=
  i ← or_raise (KeyError val) (index_of (categories f) val);
  row ← or_raise IndexError (descriptor_values f !! i);
  Ok (Float <$> (row : list Q)).

(** Modelled from the spec: [feat.fixed_value(transform_type)], section 4.3:
    [None] when the feature is not fixed, else the encoded value of its single allowed value, a list with an entry
    per column the feature owns.  Without a transform type a categorical
    feature answers with its label.  A numerical feature asserts that no
    transform type is given. *)
Definition fixed_value (f : Input) (transform_type : option CategoricalEncodingEnum)
  : result (option (list value)) :=
  match f with
  | ContinuousInput _ l _ =>
      match transform_type with
      | Some _ => Raise (AssertionError "")
      | None => Ok (if is_fixed f then Some [Float l] else None)
      end
  | DiscreteInput _ _ =>
      match transform_type with
      | Some _ => Raise (AssertionError "")
      | None => Ok None
      end
  | _ =>
      if is_fixed f then
        val ← or_raise IndexError (head (get_allowed_categories f));
        match transform_type with
        | None => Ok (Some [Str val])
        | Some ONE_HOT => Ok (Some (to_onehot_encoding f (Str val)))
        | Some DUMMY => Ok (Some (to_dummy_encoding f (Str val)))
        | Some ORDINAL => Some <$> to_ordinal_encoding f val
        | Some DESCRIPTOR =>
            if isinstance f cls_CategoricalDescriptorInput
            then Some <$> to_descriptor_encoding f val
            else Raise (ValueError "Unkwon transform type for fixed value")
        end
      else Ok None
  end.

(** Modelled from the spec: the rows of the descriptor matrix of the allowed
    categories. *)
Definition allowed_rows (f : Input) : list (list Q) :=
  fst <$> filter (fun p => snd p = true) (zip (descriptor_values f) (allowed f)).

(** Modelled from the spec: [feat.get_bounds(CategoricalEncodingEnum.DESCRIPTOR)],
    section 4.1: per descriptor column the minimum and the maximum over the
    rows of the allowed categories. *)
Definition get_bounds_DESCRIPTOR (f : Input) : list Q * list Q :=
  let column j := omap (fun row : list Q => row !! j) (allowed_rows f) in
  let js := seq 0 (length (descriptors f)) in
  (omap (fun j => list_min (column j)) js, omap (fun j => list_max (column j)) js).

(** ** Constraints and the domain

    [bofire/data_models/domain/] and [bofire/data_models/constraints/] are
    not part of the sources at hand. *)

(** Modelled from the spec: the n-choose-k constraint of section 3, a group
    of feature keys, the least and the greatest number of active features,
    and the exception that none is active. *)
Record NChooseKConstraint : Type := mkNChooseK {
  features : list string;
  min_count : nat;
  max_count : nat;
  none_also_valid : bool
}.

(** Modelled from the spec: the domain.  The input features are listed in the
    fixed order in which the container hands them out; of the constraints
    only the n-choose-k ones matter here:
    [domain.cnstrs.get(NChooseKConstraint)] is the field [nchoosek]. *)
Record Domain : Type := mkDomain {
  inputs : list Input;
  nchoosek : list NChooseKConstraint
}.

(** Modelled from the spec: [domain.get_features(includes, excludes)] and
    [inputs.get(includes, excludes)], the features that are an instance of one
    of the included classes and of none of the excluded. *)
Definition get_features (d : Domain) (includes : list InputClass)
    (excludes : option InputClass) : list Input :=
  filter (fun f => existsb (isinstance f) includes = true /\
                   from_option (fun c => isinstance f c) false excludes = false)
         (inputs d).

(** Modelled from the spec: [inputs.get_keys(cls)], the keys of the features
    of a class. *)
Definition get_keys (d : Domain) (cls : InputClass) : list string :=
  key <$> get_features d [cls] None.

(** Modelled from the spec: [inputs.get_by_key(k)] and
    [domain.get_feature(k)], the feature of the key [k]. *)
Definition get_by_key (d : Domain) (k : string) : result Input :=
  or_raise (KeyError k) (snd <$> list_find (fun f => key f = k) (inputs d)).

(** Modelled from the spec: [inputs.get_fixed()], the fixed features. *)
Definition get_fixed (d : Domain) : list Input :=
  filter (fun f => is_fixed f = true) (inputs d).

(** *** Column layout, spec section 4.2 *)

(** Modelled from the spec: the number of columns the encoding of a feature
    takes, section 4.1: one without an encoding and for ordinal, one per
    category for one-hot, one less for dummy, one per descriptor for the
    descriptor encoding. *)
Definition column_count (f : Input) (spec : option CategoricalEncodingEnum) : result nat :=
  match spec with
  | None | Some ORDINAL => Ok 1%nat
  | Some ONE_HOT =>
      if isinstance f cls_CategoricalInput then Ok (length (categories f))
      else Raise (AssertionError "")
  | Some DUMMY =>
      if isinstance f cls_CategoricalInput then Ok (length (categories f) - 1)%nat
      else Raise (AssertionError "")
  | Some DESCRIPTOR =>
      if isinstance f cls_CategoricalDescriptorInput then Ok (length (descriptors f))
      else Raise (AssertionError "")
  end.

(** Modelled from the spec: a step of the walk of [_get_transform_info]; the
    feature gets the next consecutive columns and the offset moves on. *)
Definition allocate (specs : gmap string CategoricalEncodingEnum) (f : Input)
    (acc : gmap string (list nat) * nat) : result (gmap string (list nat) * nat) :=
  n ← column_count f (specs !! key f);
  Ok (<[key f := seq (snd acc) n]> (fst acc), (snd acc + n)%nat).

(** Modelled from the spec: [Inputs._get_transform_info(specs)], section 4.2,
    walks the features in their order with a running column offset; only the
    map from keys to columns is kept. *)
Definition _get_transform_info (feats : list Input)
    (specs : gmap string CategoricalEncodingEnum) : result (gmap string (list nat)) :=
  fst <$> for_each feats (allocate specs) (∅, 0%nat).

(** *** Enumerators of the domain *)

(** [itertools.product] of the lists [ls] *)
Fixpoint product {A} (ls : list (list A)) : list (list A) :=
  match ls with
  | [] => [[]]
  | l :: ls' => x ← l; (cons x <$> product ls')
  end.

(** Flattening of a list of lists. *)
Definition flatten {A} (ls : list (list A)) : list A := mjoin ls.

(** [itertools.combinations(l, n)] *)
Fixpoint combinations {A} (l : list A) (n : nat) : list (list A) :=
  match l with
  | [] => match n with O => [[]] | S _ => [] end
  | x :: l' =>
      match n with
      | O => [[]]
      | S n' => (cons x <$> combinations l' n') ++ combinations l' n
      end
  end.

(** Modelled from the spec: the choices of a categorical feature, the pairs of
    its key with each allowed category. *)
Definition categorical_choices (f : Input) : list (string * value) :=
  (fun c => (key f, Str c)) <$> get_allowed_categories f.

(** Modelled from the spec: the choices of a discrete feature, the pairs of
    its key with each of its values. *)
Definition discrete_choices (f : Input) : list (string * value) :=
  match f with
  | DiscreteInput k vs => (fun v => (k, Float v)) <$> vs
  | _ => []
  end.

(** Modelled from the spec: the categorical features of the included classes
    that are not fixed. *)
Definition enumerated_categoricals (d : Domain) (include : list InputClass)
    (exclude : option InputClass) : list Input :=
  filter (fun f => isinstance f cls_CategoricalInput = true /\ is_fixed f = false)
         (get_features d include exclude).

(** Modelled from the spec: the discrete features of the included classes. *)
Definition enumerated_discretes (d : Domain) (include : list InputClass)
    (exclude : option InputClass) : list Input :=
  filter (fun f => isinstance f cls_DiscreteInput = true /\ is_fixed f = false)
         (get_features d include exclude).

(** Modelled from the spec: [Inputs.get_categorical_combinations(include,
    exclude)], section 4.4 step 3, the cross product of the choices of the
    enumerated categorical features and of the enumerated discrete ones. *)
Definition inputs_get_categorical_combinations (d : Domain) (include : list InputClass)
    (exclude : option InputClass) : list (list (string * value)) :=
  product ((categorical_choices <$> enumerated_categoricals d include exclude) ++
           (discrete_choices <$> enumerated_discretes d include exclude)).

(** Modelled from the spec: the subsets one constraint allows, section 4.5:
    every subset of the group whose size lies in [min_count, max_count], and
    the empty subset when [none_also_valid]. *)
Definition used_choices (c : NChooseKConstraint) : list (list string) :=
  (n ← seq (min_count c) (max_count c + 1 - min_count c); combinations (features c) n) ++
  (if none_also_valid c then [[]] else []).

(** Modelled from the spec: [Domain.get_nchoosek_combinations(exhaustive=True)],
    section 4.5.  Over several constraints the choices are combined by a
    cross product; the second list holds, for each combination of used
    features, the features of the constrained groups that are not used.
    Without a constraint no subset is generated. *)
Definition domain_get_nchoosek_combinations (d : Domain)
  : list (list string) * list (list string) :=
  match nchoosek d with
  | [] => ([], [])
  | cs =>
      let used : list (list string) := flatten <$> product (used_choices <$> cs) in
      let features_in_cc : list string := remove_dups (flatten (features <$> cs)) in
      (used, (fun u : list string => filter (fun k => k ∉ u) features_in_cc) <$> used)
  end.

(** [out = []; for x in xs: out.append(f(x))] where [f] may raise. *)
Fixpoint collect {A B : Type} (f : A -> result B) (xs : list A) : result (list B) :=
  match xs with
  | [] => Ok []
  | x :: xs' => y ← f x; ys ← collect f xs'; Ok (y :: ys)
  end.

(** ** The strategy: [bofire/strategies/predictives/botorch.py] *)

Record BotorchStrategy : Type := mkStrategy {
  domain : Domain;
  input_preprocessing_specs : gmap string CategoricalEncodingEnum;
  descriptor_method : CategoricalMethodEnum;
  categorical_method : CategoricalMethodEnum;
  discrete_method : CategoricalMethodEnum
}.

(** The property [_features2idx]. *)
Definition _features2idx (s : BotorchStrategy) : result (gmap string (list nat)) :=
  _get_transform_info (inputs (domain s)) (input_preprocessing_specs s).

(** [list(self.input_preprocessing_specs.values())] *)
Definition spec_values (s : BotorchStrategy) : list CategoricalEncodingEnum :=
  snd <$> map_to_list (input_preprocessing_specs s).

(** [fixed_values[j]], where [fixed_values] may be [None]. *)
Definition subscript (fixed_values : option (list value)) (j : nat) : result value :=
  match fixed_values with
  | None => Raise (TypeError "'NoneType' object is not subscriptable")
  | Some l => or_raise IndexError (l !! j)
  end.

(** [[get_by_key(k) for k in keys if specs[k] == enc]] *)
Fixpoint features_with_spec (d : Domain) (specs : gmap string CategoricalEncodingEnum)
    (enc : CategoricalEncodingEnum) (keys : list string) : result (list Input) :=
  match keys with
  | [] => Ok []
  | k :: ks =>
      e ← or_raise (KeyError k) (specs !! k);
      if bool_decide (e = enc) then
        f ← get_by_key d k;
        fs ← features_with_spec d specs enc ks;
        Ok (f :: fs)
      else features_with_spec d specs enc ks
  end.

(** Body of the first loop of [get_fixed_features], lines 298-302. *)
Definition pin_fixed_value (s : BotorchStrategy) (features2idx : gmap string (list nat))
    (feat : Input) (fixed_features : gmap nat value) : result (gmap nat value) :=
  fv ← fixed_value feat None;
  match fv with
  | None => Ok fixed_features
  | Some _ =>
      fixed_values ← fixed_value feat (input_preprocessing_specs s !! key feat);
      idxs ← or_raise (KeyError (key feat)) (features2idx !! key feat);
      for_each (enumerate idxs)
        (fun p ff => v ← subscript fixed_values (fst p); Ok (<[snd p := v]> ff))
        fixed_features
  end.

(** Body of the second loop, lines 320-327. *)
Definition pin_forbidden (features2idx : gmap string (list nat))
    (feat : Input) (fixed_features : gmap nat value) : result (gmap nat value) :=
  if isinstance feat cls_CategoricalInput then
    if is_fixed feat then Ok fixed_features
    else
      for_each (get_forbidden_categories feat)
        (fun cat ff =>
           let transformed := to_onehot_encoding feat (Str cat) in
           idxs ← or_raise (KeyError (key feat)) (features2idx !! key feat);
           for_each (enumerate idxs)
             (fun p ff =>
                t ← or_raise IndexError (transformed !! fst p);
                if value_eqb t (Float 1) then Ok (<[snd p := Float 0]> ff) else Ok ff)
             ff)
        fixed_features
  else Raise (AssertionError "").

(** Body of the third loop, lines 341-346. *)
Definition pin_constant_descriptor (features2idx : gmap string (list nat))
    (feat : Input) (fixed_features : gmap nat value) : result (gmap nat value) :=
  if isinstance feat cls_CategoricalDescriptorInput then
    if is_fixed feat then Ok fixed_features
    else
      let lower := fst (get_bounds_DESCRIPTOR feat) in
      let upper := snd (get_bounds_DESCRIPTOR feat) in
      idxs ← or_raise (KeyError (key feat)) (features2idx !! key feat);
      for_each (enumerate idxs)
        (fun p ff =>
           l ← or_raise IndexError (lower !! fst p);
           u ← or_raise IndexError (upper !! fst p);
           if Qeq_bool l u then Ok (<[snd p := Float l]> ff) else Ok ff)
        fixed_features
  else Raise (AssertionError "").

Definition get_fixed_features (s : BotorchStrategy) : result (gmap nat value) :=
  let d := domain s in
  let specs := input_preprocessing_specs s in
  features2idx ← _features2idx s;
  ff ← for_each (get_features d [cls_Input] None) (pin_fixed_value s features2idx) ∅;
  ff ← (if bool_decide (categorical_method s = FREE)
           && bool_decide (ONE_HOT ∈ spec_values s)
        then
          feats ← features_with_spec d specs ONE_HOT (get_keys d cls_CategoricalInput);
          for_each feats (pin_forbidden features2idx) ff
        else Ok ff);
  ff ← (if bool_decide (descriptor_method s = FREE)
           && bool_decide (DESCRIPTOR ∈ spec_values s)
        then
          feats ← features_with_spec d specs DESCRIPTOR
                    (get_keys d cls_CategoricalDescriptorInput);
          for_each feats (pin_constant_descriptor features2idx) ff
        else Ok ff);
  Ok ff.

(** The three branches of the inner loop of [get_categorical_combinations],
    lines 396-416. *)
Definition pin_descriptor_choice (features2idx : gmap string (list nat))
    (feat : string) (feature : Input) (val : value) (fixed_features : gmap nat value)
  : result (gmap nat value) :=
  index ← or_raise (ValueError "val is not in list")
            (match val with Str c => index_of (categories feature) c | Float _ => None end);
  idxs ← or_raise (KeyError feat) (features2idx !! feat);
  for_each (enumerate idxs)
    (fun p ff =>
       row ← or_raise IndexError (descriptor_values feature !! index);
       v ← or_raise IndexError ((row : list Q) !! fst p);
       Ok (<[snd p := Float v]> ff))
    fixed_features.

Definition pin_onehot_choice (features2idx : gmap string (list nat))
    (feat : string) (feature : Input) (val : value) (fixed_features : gmap nat value)
  : result (gmap nat value) :=
  let transformed := to_onehot_encoding feature val in
  idxs ← or_raise (KeyError feat) (features2idx !! feat);
  for_each (enumerate idxs)
    (fun p ff => t ← or_raise IndexError (transformed !! fst p); Ok (<[snd p := t]> ff))
    fixed_features.

Definition pin_discrete_choice (features2idx : gmap string (list nat))
    (feat : string) (val : value) (fixed_features : gmap nat value)
  : result (gmap nat value) :=
  idxs ← or_raise (KeyError feat) (features2idx !! feat);
  idx ← or_raise IndexError (idxs !! 0%nat);
  Ok (<[idx := val]> fixed_features).

Definition overlay_pair (s : BotorchStrategy) (features2idx : gmap string (list nat))
    (pair : string * value) (fixed_features : gmap nat value) : result (gmap nat value) :=
  let feat := fst pair in
  let val := snd pair in
  feature ← get_by_key (domain s) feat;
  if isinstance feature cls_CategoricalDescriptorInput then
    e ← or_raise (KeyError feat) (input_preprocessing_specs s !! feat);
    if bool_decide (e = DESCRIPTOR)
    then pin_descriptor_choice features2idx feat feature val fixed_features
    else pin_onehot_choice features2idx feat feature val fixed_features
  else if isinstance feature cls_CategoricalInput then
    pin_onehot_choice features2idx feat feature val fixed_features
  else if isinstance feature cls_DiscreteInput then
    pin_discrete_choice features2idx feat val fixed_features
  else Ok fixed_features.

Definition all_free (s : BotorchStrategy) : bool :=
  forallb (fun m => bool_decide (m = FREE))
    [descriptor_method s; discrete_method s; categorical_method s].

(** The classes handed to the enumerator of the domain, lines 366-385. *)
Definition include_exclude (s : BotorchStrategy) : list InputClass * option InputClass :=
  let include := [] in
  let exclude := None in
  let include :=
    if bool_decide (discrete_method s = EXHAUSTIVE)
    then include ++ [cls_DiscreteInput] else include in
  let '(include, exclude) :=
    if bool_decide (categorical_method s = EXHAUSTIVE)
    then (include ++ [cls_CategoricalInput], Some cls_CategoricalDescriptorInput)
    else (include, exclude) in
  let '(include, exclude) :=
    if bool_decide (descriptor_method s = EXHAUSTIVE)
    then (include ++ [cls_CategoricalDescriptorInput], None)
    else (include, exclude) in
  (match include with [] => [cls_Input] | _ => include end, exclude).

Definition enumerated_combos (s : BotorchStrategy) : list (list (string * value)) :=
  inputs_get_categorical_combinations (domain s)
    (fst (include_exclude s)) (snd (include_exclude s)).

Definition get_categorical_combinations (s : BotorchStrategy)
  : result (list (gmap nat value)) :=
  fixed_basis ← get_fixed_features s;
  if all_free s then Ok [∅]
  else
    let combos := enumerated_combos s in
    if bool_decide (length combos = 1%nat) then Ok [fixed_basis]
    else
      features2idx ← _features2idx s;
      collect (fun combo => for_each combo (overlay_pair s features2idx) fixed_basis) combos.

(** Body of the loop of [get_nchoosek_combinations], lines 433-439:
    [fixed_values[features2idx[f_key][0]] = 0.0] for every unused key. *)
Definition pin_unused_step (features2idx : gmap string (list nat)) (f_key : string)
    (fixed_values : gmap nat value) : result (gmap nat value) :=
  idxs ← or_raise (KeyError f_key) (features2idx !! f_key);
  idx ← or_raise IndexError (idxs !! 0%nat);
  Ok (<[idx := Float 0]> fixed_values).

Definition pin_unused (features2idx : gmap string (list nat)) (unused : list string)
  : result (gmap nat value) :=
  for_each unused (pin_unused_step features2idx) ∅.

Definition get_nchoosek_combinations (s : BotorchStrategy)
  : result (list (gmap nat value)) :=
  features2idx ← _features2idx s;
  let used_features := fst (domain_get_nchoosek_combinations (domain s)) in
  let unused_features := snd (domain_get_nchoosek_combinations (domain s)) in
  fixed_values_list_cc ←
    collect (fun p => pin_unused features2idx (snd p)) (zip used_features unused_features);
  if bool_decide (length fixed_values_list_cc = 0%nat)
  then Ok (fixed_values_list_cc ++ [∅])
  else Ok fixed_values_list_cc.

(** [ff = ff1.copy(); ff.update(ff2)]: on a common key the entry of [ff2]
    stays. *)
Definition update (ff1 ff2 : gmap nat value) : gmap nat value := ff2 ∪ ff1.

(** The inner call is written inside the outer loop: it runs once per
    categorical combination. *)
Definition get_fixed_values_list (s : BotorchStrategy) : result (list (gmap nat value)) :=
  ccs ← get_categorical_combinations s;
  for_each ccs
    (fun ff1 fixed_values_full =>
       ncks ← get_nchoosek_combinations s;
       Ok (fixed_values_full ++ (update ff1 <$> ncks)))
    [].

(** ** Data frames

    A frame has a number of rows and named columns; [df[k]] raises a
    [KeyError] for a column it does not have. *)
Record DataFrame : Type := mkDataFrame {
  nrows : nat;
  columns : gmap string (list value)
}.

Definition getitem (df : DataFrame) (k : string) : result (list value) :=
  or_raise (KeyError k) (columns df !! k).

(** [pd.concat((a, b), ignore_index=True)] *)
Definition concat_frames (a b : DataFrame) : DataFrame :=
  {| nrows := nrows a + nrows b;
     columns := union_with (fun x y => Some (x ++ y)) (columns a) (columns b) |}.

Definition has_sufficient_experiments (s : BotorchStrategy) (experiments : option DataFrame)
  : result bool :=
  match experiments with
  | None => Ok false
  | Some e =>
      fixed ← get_fixed_features s;
      let degrees_of_freedom :=
        Z.of_nat (length (get_features (domain s) [cls_Input] None)) - Z.of_nat (size fixed) in
      if Z.of_nat (nrows e) >? degrees_of_freedom + 1 then Ok true else Ok false
  end.

(** *** Dispatch of [_ask], lines 164-243

    The optimizers are collaborators; a call is the optimizer chosen together
    with the fixed features handed to it. *)
Inductive optimizer_call : Type :=
| optimize_acqf (fixed_features : gmap nat value)
| optimize_acqf_mixed (fixed_features_list : list (gmap nat value)).

Inductive branch : Type :=
| PureContinuous
| MixedCategorical
| MixedNChooseK
| NoBranch.

Definition num_categorical_features (s : BotorchStrategy) : nat :=
  length (get_features (domain s) [cls_CategoricalInput; cls_DiscreteInput] None).

Definition num_categorical_combinations (s : BotorchStrategy) : nat :=
  length (inputs_get_categorical_combinations (domain s) [cls_Input] None).

Definition methods (s : BotorchStrategy) : list CategoricalMethodEnum :=
  [categorical_method s; descriptor_method s; discrete_method s].

(** The conditions of the [if]/[elif]/[else] chain. *)
Definition ask_branch (s : BotorchStrategy) : branch :=
  if (bool_decide (num_categorical_features s = 0%nat)
      || bool_decide (num_categorical_combinations s = 1%nat)
      || forallb (fun enc => bool_decide (enc = FREE)) (methods s))
     && bool_decide (length (nchoosek (domain s)) = 0%nat)
  then PureContinuous
  else if bool_decide (EXHAUSTIVE ∈ methods s)
          && bool_decide (length (nchoosek (domain s)) = 0%nat)
  then MixedCategorical
  else if (0 <? length (nchoosek (domain s)))%nat
  then MixedNChooseK
  else NoBranch.

(** The first condition, and the test of the second, as propositions. *)
Definition continuous_condition (s : BotorchStrategy) : Prop :=
  (num_categorical_features s = 0%nat \/
   num_categorical_combinations s = 1%nat \/
   (categorical_method s = FREE /\ descriptor_method s = FREE /\ discrete_method s = FREE)) /\
  nchoosek (domain s) = [].

Definition some_exhaustive (s : BotorchStrategy) : Prop :=
  categorical_method s = EXHAUSTIVE \/ descriptor_method s = EXHAUSTIVE \/
  discrete_method s = EXHAUSTIVE.

(** The call made in each branch. *)
Definition choose_optimizer (s : BotorchStrategy) : result optimizer_call :=
  match ask_branch s with
  | PureContinuous => optimize_acqf <$> get_fixed_features s
  | MixedCategorical => optimize_acqf_mixed <$> get_categorical_combinations s
  | MixedNChooseK => optimize_acqf_mixed <$> get_fixed_values_list s
  | NoBranch => Raise IOError
  end.

(** ** The mutable part of a strategy and its collaborators *)

Inductive event : Type :=
| Fit (experiments : DataFrame)
| InitAcqf
| Optimize (call : optimizer_call)
| ChooseFromPool.

Record state : Type := mkState {
  experiments : option DataFrame;
  candidates : option DataFrame;
  is_fitted : bool;
  acqf : bool;
  log : list event
}.

Definition set_experiments_field (e : DataFrame) (st : state) : state :=
  mkState (Some e) (candidates st) (is_fitted st) (acqf st) (log st).
Definition set_candidates_field (c : DataFrame) (st : state) : state :=
  mkState (experiments st) (Some c) (is_fitted st) (acqf st) (log st).
Definition set_is_fitted (st : state) : state :=
  mkState (experiments st) (candidates st) true (acqf st) (log st).
Definition set_acqf (b : bool) (st : state) : state :=
  mkState (experiments st) (candidates st) (is_fitted st) b (log st).
Definition record_event (ev : event) (st : state) : state :=
  mkState (experiments st) (candidates st) (is_fitted st) (acqf st) (log st ++ [ev]).

(** Validation of frames against the domain, the surrogate and the optimizers
    are outside of the core; any of them may raise.

    [_init_acqf] is the abstract method of [BotorchStrategy] (lines 280-284)
    that a concrete strategy implements.  Called on the strategy object, it
    returns or raises, and [self.acqf] is set or is [None] afterwards: the
    second component tells which.  The method of the [DummyStrategy] of the
    tests is [pass], which leaves [self.acqf] as it finds it.  Of the fields
    of [state] it is taken to assign [self.acqf] only. *)
Record Collaborators : Type := mkCollaborators {
  validate_experiments : Domain -> DataFrame -> bool -> result DataFrame;
  validate_candidates : Domain -> DataFrame -> result DataFrame;
  preprocess_experiments_all_valid_outputs : Domain -> DataFrame -> result DataFrame;
  surrogate_fit : DataFrame -> result unit;
  _init_acqf : state -> result unit * bool;
  get_bounds : BotorchStrategy -> result unit;
  run_optimizer : optimizer_call -> Z -> result DataFrame;
  acquisition_choice : DataFrame -> option Z -> result DataFrame
}.

(** A computation on the strategy object: it ends in a value or an
    exception, and the object keeps what was assigned before. *)
Definition M (A : Type) : Type := state -> result A * state.

Definition ret {A} (a : A) : M A := fun st => (Ok a, st).
Definition raise {A} (e : exn) : M A := fun st => (Raise e, st).
Definition bind {A B} (m : M A) (k : A -> M B) : M B := fun st =>
  match m st with
  | (Ok a, st') => k a st'
  | (Raise e, st') => (Raise e, st')
  end.
Definition lift {A} (r : result A) : M A := fun st => (r, st).
Definition read {A} (f : state -> A) : M A := fun st => (Ok (f st), st).
Definition modify (f : state -> state) : M unit := fun st => (Ok tt, f st).

Notation "'do' x <~ m ; k" := (bind m (fun x => k))
  (at level 10, x name, m at level 100, k at level 200).
Notation "m ;; k" := (bind m (fun _ => k))
  (at level 100, k at level 200, right associativity).

(** *** [bofire/strategies/strategy.py] *)

Definition set_experiments (ext : Collaborators) (s : BotorchStrategy)
    (new_experiments : DataFrame) : M unit :=
  do e <~ lift (validate_experiments ext (domain s) new_experiments false);
  modify (set_experiments_field e).

Definition add_experiments (ext : Collaborators) (s : BotorchStrategy)
    (new_experiments : DataFrame) : M unit :=
  do e <~ lift (validate_experiments ext (domain s) new_experiments false);
  do old <~ read experiments;
  match old with
  | None => modify (set_experiments_field e)
  | Some o => modify (set_experiments_field (concat_frames o e))
  end.

Definition add_candidates (ext : Collaborators) (s : BotorchStrategy)
    (new_candidates : DataFrame) : M unit :=
  do c <~ lift (validate_candidates ext (domain s) new_candidates);
  do old <~ read candidates;
  match old with
  | None => modify (set_candidates_field c)
  | Some o => modify (set_candidates_field (concat_frames o c))
  end.

Definition not_enough_msg : string :=
  "Not enough experiments available to execute the strategy.".
Definition candidate_count_msg : string := "Candidate_count has to be at least 1".
Definition expected_msg : string := "unexpected number of candidates".

(** [BotorchStrategy._ask], lines 145-271: the assertions, the choice of the
    optimizer and its call.  The post-processing of the candidates is part of
    the collaborator. *)
Definition _ask (ext : Collaborators) (s : BotorchStrategy) (candidate_count : option Z)
  : M DataFrame :=
  match candidate_count with
  | None => raise (TypeError "'>' not supported between NoneType and int")
  | Some n =>
      if n >? 0 then
        do has_acqf <~ read acqf;
        if has_acqf then
          lift (get_bounds ext s);;
          do call <~ lift (choose_optimizer s);
          modify (record_event (Optimize call));;
          lift (run_optimizer ext call n)
        else raise (AssertionError "")
      else raise (AssertionError "candidate_count has to be larger than zero.")
  end.

Definition _choose_from_pool (ext : Collaborators) (candidate_pool : DataFrame)
    (candidate_count : option Z) : M DataFrame :=
  modify (record_event ChooseFromPool);;
  lift (acquisition_choice ext candidate_pool candidate_count).

(** A candidate count that is absent or at least one: what the hint
    [Optional[PositiveInt]] of [candidate_count] says.  Nothing enforces the
    hint; the first test of [ask] does. *)
Definition PositiveInt (candidate_count : option Z) : Prop :=
  forall n, candidate_count = Some n -> 1 <= n.

(** [Strategy.ask], lines 75-128.  [PredictiveStrategy.ask]
    ([predictive.py], lines 39-64) forwards to this method with a keyword
    [raise_validation_error] that its signature does not have; what follows
    is about the method itself. *)
Definition ask (ext : Collaborators) (s : BotorchStrategy) (candidate_count : option Z)
    (add_pending : bool) (candidate_pool : option DataFrame) : M DataFrame :=
  (match candidate_count with
   | Some n => if n <? 1 then raise (ValueError candidate_count_msg) else ret tt
   | None => ret tt
   end);;
  do e <~ read experiments;
  do sufficient <~ lift (has_sufficient_experiments s e);
  (if sufficient then ret tt else raise (ValueError not_enough_msg));;
  do cands <~
    (match candidate_pool with
     | None => _ask ext s candidate_count
     | Some pool =>
         lift (validate_candidates ext (domain s) pool);;
         (match candidate_count with
          | Some n =>
              if n <=? Z.of_nat (nrows pool) then ret tt else raise (AssertionError "")
          | None => ret tt
          end);;
         _choose_from_pool ext pool candidate_count
     end);
  lift (validate_candidates ext (domain s) cands);;
  (match candidate_count with
   | Some n =>
       if Z.of_nat (nrows cands) =? n then ret tt else raise (ValueError expected_msg)
   | None => ret tt
   end);;
  (if add_pending then add_candidates ext s cands else ret tt);;
  ret cands.

(** *** [bofire/strategies/predictives/predictive.py] *)

(** [fit], lines 154-162. *)
Definition fit (ext : Collaborators) (s : BotorchStrategy) : M unit :=
  do e <~ read experiments;
  match e with
  | Some e =>
      if (0 <? nrows e)%nat then
        lift (validate_experiments ext (domain s) e true);;
        modify (record_event (Fit e));;
        lift (surrogate_fit ext e);;
        modify set_is_fitted
      else raise (AssertionError "No fitting data available")
  | None => raise (AssertionError "No fitting data available")
  end.

(** [BotorchStrategy.init_acqf], lines 276-278: the call of the abstract
    [_init_acqf]. *)
Definition init_acqf (ext : Collaborators) : M unit := fun st =>
  ((_init_acqf ext st).1, set_acqf (_init_acqf ext st).2 (record_event InitAcqf st)).

(** [BotorchStrategy._tell], lines 273-274. *)
Definition _tell (ext : Collaborators) : M unit := init_acqf ext.

Definition no_variance_msg (k : string) : string :=
  "No variance in experiments for fixed feature " +:+ k.

(** The check of [tell] for fixed columns, lines 94-107. *)
Definition fixed_nontasks (d : Domain) : list Input :=
  filter (fun feat => isinstance feat cls_TaskInput = false) (get_fixed d).

Definition check_fixed_feature (cleaned_experiments : DataFrame) (feature : Input)
  : result unit :=
  fv ← fixed_value feature None;
  match fv with
  | None => Raise (AssertionError "")
  | Some fixed_value =>
      column ← getitem cleaned_experiments (key feature);
      v0 ← or_raise IndexError (fixed_value !! 0%nat);
      if forallb (fun c => value_eqb c v0) column && isinstance feature cls_TaskInput
      then Raise (ValueError (no_variance_msg (key feature)))
      else Ok tt
  end.

Definition check_fixed_columns (d : Domain) (cleaned_experiments : DataFrame) : result unit :=
  for_each (fixed_nontasks d) (fun feature _ => check_fixed_feature cleaned_experiments feature) tt.

(** Lines 83-86 of [tell]: replace the experiments or append to them. *)
Definition accumulate (ext : Collaborators) (s : BotorchStrategy) (new_experiments : DataFrame)
    (replace : bool) : M unit :=
  if replace then set_experiments ext s new_experiments
  else add_experiments ext s new_experiments.

(** [PredictiveStrategy.tell], lines 66-112. *)
Definition tell (ext : Collaborators) (s : BotorchStrategy) (new_experiments : DataFrame)
    (replace retrain : bool) : M unit :=
  if (nrows new_experiments =? 0)%nat then ret tt
  else
    accumulate ext s new_experiments replace;;
    do cleaned <~
      lift (preprocess_experiments_all_valid_outputs ext (domain s) new_experiments);
    lift (check_fixed_columns (domain s) cleaned);;
    if retrain then
      do e <~ read experiments;
      do sufficient <~ lift (has_sufficient_experiments s e);
      if sufficient then fit ext s;; _tell ext else ret tt
    else ret tt.

(** ** Vocabulary of the statements *)

(** What the loop of [_get_transform_info] keeps: the columns handed out so
    far lie below the counter, the columns of two keys are apart, and no key
    holds a column twice. *)
Record layout_ok (acc : gmap string (list nat) * nat) : Prop := {
  layout_below : forall k l x, acc.1 !! k = Some l -> x ∈ l -> (x < acc.2)%nat;
  layout_apart : forall k1 k2 l1 l2 x,
    k1 <> k2 -> acc.1 !! k1 = Some l1 -> acc.1 !! k2 = Some l2 -> x ∈ l1 -> x ∉ l2;
  layout_NoDup : forall k l, acc.1 !! k = Some l -> NoDup l
}.

(** A step either leaves the dictionary or assigns the column of the step. *)
Definition assigns_column (body : nat * nat -> gmap nat value -> result (gmap nat value))
  : Prop :=
  forall p ff ff', body p ff = Ok ff' -> ff' = ff \/ exists v, ff' = <[p.2 := v]> ff.

(** Conditional assignment of one value [w]:
    [for j, idx in enumerate(idxs): if test(j): ff[idx] = w]. *)
Definition assigns_only (w : value)
    (body : nat * nat -> gmap nat value -> result (gmap nat value)) : Prop :=
  forall p ff ff', body p ff = Ok ff' -> ff' = ff \/ ff' = <[p.2 := w]> ff.

(** The column [features2idx[f_key][0]]. *)
Definition first_column (features2idx : gmap string (list nat)) (f_key : string)
  : option nat :=
  idxs ← features2idx !! f_key; idxs !! 0%nat.

(** The dictionary pins the first column of every unused key, and nothing else. *)
Definition pins_unused (features2idx : gmap string (list nat)) (unused : list string)
    (fixed_values : gmap nat value) : Prop :=
  (forall f c, f ∈ unused -> first_column features2idx f = Some c ->
     fixed_values !! c = Some (Float 0)) /\
  (forall c v, fixed_values !! c = Some v ->
     exists f, f ∈ unused /\ first_column features2idx f = Some c).

(** The invariant of the data model: the keys of a domain are unique. *)
Definition unique_keys (d : Domain) : Prop := NoDup (key <$> inputs d).

(** [c] is no column of the key [k]. *)
Definition off_key (features2idx : gmap string (list nat)) (k : string) (c : nat) : Prop :=
  forall idxs, features2idx !! k = Some idxs -> c ∉ idxs.

(** The features whose choices make up the combinations, in the order of
    the cross product. *)
Definition enumerated_features (s : BotorchStrategy) : list Input :=
  enumerated_categoricals (domain s) (include_exclude s).1 (include_exclude s).2 ++
  enumerated_discretes (domain s) (include_exclude s).1 (include_exclude s).2.

(** The choices of one enumerated feature. *)
Definition choices (f : Input) : list (string * value) :=
  if isinstance f cls_CategoricalInput then categorical_choices f else discrete_choices f.

(** The invariants the data models of the features and of the strategy
    validate, spec section 3: a numerical feature has no encoding; the allowed
    mask of a categorical feature runs parallel to its categories and allows
    at least one; a plain categorical feature is one-hot, ordinal or dummy
    encoded; the descriptor matrix has a row per category and a column per
    descriptor. *)
Definition valid_feature (specs : gmap string CategoricalEncodingEnum) (f : Input) : Prop :=
  match f with
  | ContinuousInput k _ _ | DiscreteInput k _ => specs !! k = None
  | CategoricalInput k cs a | TaskInput k cs a =>
      length a = length cs /\ true ∈ a /\
      (specs !! k = Some ONE_HOT \/ specs !! k = Some ORDINAL \/ specs !! k = Some DUMMY)
  | CategoricalDescriptorInput k cs a ds vs =>
      length a = length cs /\ true ∈ a /\ is_Some (specs !! k) /\
      length vs = length cs /\ Forall (fun row => length row = length ds) vs
  end.

(** A strategy whose domain passed validation: the keys are unique, every
    feature is valid, and an n-choose-k constraint names continuous features
    of the domain. *)
Record well_formed (s : BotorchStrategy) : Prop := {
  wf_keys : unique_keys (domain s);
  wf_features : forall f, f ∈ inputs (domain s) ->
    valid_feature (input_preprocessing_specs s) f;
  wf_nchoosek : forall c k, c ∈ nchoosek (domain s) -> k ∈ features c ->
    exists lower upper, ContinuousInput k lower upper ∈ inputs (domain s)
}.

(** The layout holds, for every feature of the domain, as many columns as
    the encoding of the feature asks for. *)
Definition covers (s : BotorchStrategy) (m : gmap string (list nat)) : Prop :=
  forall f, f ∈ inputs (domain s) ->
    exists idxs, m !! key f = Some idxs /\
      column_count f (input_preprocessing_specs s !! key f) = Ok (length idxs).

(** Membership in a list that is written out. *)
Ltac in_list := cbn; repeat constructor.

(** ** Example strategies *)

(** A continuous feature and a categorical one with a single allowed category. *)
Definition fixed_categorical_strategy : BotorchStrategy :=
  mkStrategy
    (mkDomain [ContinuousInput "a" 0 1; CategoricalInput "d" ["x"; "y"] [true; false]] [])
    {["d" := ONE_HOT]} EXHAUSTIVE EXHAUSTIVE EXHAUSTIVE.

(** Two continuous features, the second one fixed at 3; every method is FREE. *)
Definition fixed_continuous_strategy : BotorchStrategy :=
  mkStrategy (mkDomain [ContinuousInput "if1" 3 (53 # 10); ContinuousInput "if2" 3 3] [])
             ∅ FREE FREE FREE.

(** Three continuous features under an n-choose-k constraint and a categorical
    feature with three categories. *)
Definition sparse_strategy : BotorchStrategy :=
  mkStrategy
    (mkDomain [ContinuousInput "a" 0 1; ContinuousInput "b" 0 1; ContinuousInput "c" 0 1;
               CategoricalInput "d" ["x"; "y"; "z"] [true; true; true]]
              [mkNChooseK ["a"; "b"; "c"] 1 2 false])
    {["d" := ONE_HOT]} EXHAUSTIVE EXHAUSTIVE EXHAUSTIVE.

Definition sparse_layout : gmap string (list nat) :=
  {[ "a" := [0%nat]; "b" := [1%nat]; "c" := [2%nat]; "d" := [3%nat; 4%nat; 5%nat] ]}.

(** The list a call returned, or the empty one. *)
Definition unwrap {A} (r : result (list A)) : list A :=
  match r with Ok l => l | Raise _ => [] end.

(** Collaborators that accept every frame and always succeed. *)
Definition trusting : Collaborators :=
  {| validate_experiments := fun _ df _ => Ok df;
     validate_candidates := fun _ df => Ok df;
     preprocess_experiments_all_valid_outputs := fun _ df => Ok df;
     surrogate_fit := fun _ => Ok tt;
     _init_acqf := fun _ => (Ok tt, true);
     get_bounds := fun _ => Ok tt;
     run_optimizer := fun _ n => Ok (mkDataFrame (Z.to_nat n) ∅);
     acquisition_choice := fun pool _ => Ok pool |}.

(** The collaborators of the [DummyStrategy] of the tests: as [trusting], but
    [_init_acqf] is [pass]. *)
Definition dummy : Collaborators :=
  {| validate_experiments := fun _ df _ => Ok df;
     validate_candidates := fun _ df => Ok df;
     preprocess_experiments_all_valid_outputs := fun _ df => Ok df;
     surrogate_fit := fun _ => Ok tt;
     _init_acqf := fun st => (Ok tt, acqf st);
     get_bounds := fun _ => Ok tt;
     run_optimizer := fun _ n => Ok (mkDataFrame (Z.to_nat n) ∅);
     acquisition_choice := fun pool _ => Ok pool |}.

(** One free continuous feature. *)
Definition line_strategy : BotorchStrategy :=
  mkStrategy (mkDomain [ContinuousInput "x" 0 1] []) ∅ EXHAUSTIVE EXHAUSTIVE EXHAUSTIVE.

(** A frame of [n] experiments. *)
Definition frame (n : nat) : DataFrame :=
  mkDataFrame n {[ "x" := replicate n (Float 0); "y" := replicate n (Float 1) ]}.

(** A strategy that was told nothing, and one that holds five experiments. *)
Definition fresh : state := mkState None None false false [].

Definition loaded : state := mkState (Some (frame 5)) None false false [].

(** The domain of the tests of [get_fixed_features]: free and fixed
    continuous features, a categorical feature with a forbidden category and
    a fixed one; [categorical_method] is FREE. *)
Definition mixed_strategy : BotorchStrategy :=
  mkStrategy
    (mkDomain [ContinuousInput "if1" 3 (53 # 10); ContinuousInput "if2" 3 3;
               CategoricalInput "if3" ["c1"; "c2"; "c3"] [true; true; false];
               CategoricalInput "if4" ["c1"; "c2"; "c3"] [true; false; false]] [])
    {[ "if3" := ONE_HOT; "if4" := ONE_HOT ]} FREE FREE FREE.

Definition mixed_layout : gmap string (list nat) :=
  {[ "if1" := [0%nat]; "if2" := [1%nat]; "if3" := [2%nat; 3%nat; 4%nat];
     "if4" := [5%nat; 6%nat; 7%nat] ]}.

(** The first domain of the tests of [get_categorical_combinations]: a
    continuous, a discrete, a descriptor encoded and a one-hot encoded
    feature; all methods are EXHAUSTIVE. *)
Definition descriptor_feature : Input :=
  CategoricalDescriptorInput "if5" ["c1"; "c2"; "c3"] [true; true; true] ["d1"; "d2"]
    [[1; 2]; [3; 7]; [5; 1]]%Q.

Definition exhaustive_strategy : BotorchStrategy :=
  mkStrategy
    (mkDomain [ContinuousInput "if1" 3 (53 # 10); DiscreteInput "if9" [1; 2]%Q;
               descriptor_feature;
               CategoricalInput "if3" ["c1"; "c2"; "c3"] [true; true; true]] [])
    {[ "if5" := DESCRIPTOR; "if3" := ONE_HOT ]} EXHAUSTIVE EXHAUSTIVE EXHAUSTIVE.

Definition exhaustive_layout : gmap string (list nat) :=
  {[ "if1" := [0%nat]; "if9" := [1%nat]; "if5" := [2%nat; 3%nat];
     "if3" := [4%nat; 5%nat; 6%nat] ]}.

(** The dictionary a call returned, or the empty one. *)
Definition unwrap_dict (r : result (gmap nat value)) : gmap nat value :=
  match r with Ok m => m | Raise _ => ∅ end.

(** The features of a list that is written out are valid. *)
Ltac valid_features :=
  let f := fresh "f" in
  let Hf := fresh "Hf" in
  intros f Hf; cbn in Hf;
  repeat (apply elem_of_cons in Hf as [->|Hf]);
  [..| by apply elem_of_nil in Hf];
  cbn [valid_feature descriptor_feature];
  repeat match goal with
         | |- _ /\ _ => split
         | |- length _ = length _ => reflexivity
         | |- true ∈ _ => in_list
         | |- Forall _ _ => repeat constructor
         | |- is_Some _ => eexists; reflexivity
         | |- _ !! _ = None => vm_compute; reflexivity
         | |- _ \/ _ =>
             first [ left; vm_compute; reflexivity
                   | right; left; vm_compute; reflexivity
                   | right; right; vm_compute; reflexivity ]
         end.

(** *** More of [bofire/strategies/strategy.py] *)

(** The property [num_candidates], lines 213-218. *)
Definition num_candidates (st : state) : nat :=
  match candidates st with
  | None => 0
  | Some c => nrows c
  end.

(** The property [num_experiments], lines 243-248. *)
Definition num_experiments (st : state) : nat :=
  match experiments st with
  | None => 0
  | Some e => nrows e
  end.

(** A computation keeps a relation between the strategy object before and
    after it, whatever its outcome. *)
Definition respects {A} (R : state -> state -> Prop) (m : M A) : Prop :=
  forall st, R st (m st).2.

(** The experiments and the fitted model are as before and the log grew. *)
Definition same_model (st st' : state) : Prop :=
  experiments st' = experiments st /\ is_fitted st' = is_fitted st /\
  acqf st' = acqf st /\ log st `prefix_of` log st'.

(** Nothing that was fitted or recorded is lost, and the acquisition function
    is as before unless the new part of the log records a call of
    [_init_acqf]. *)
Definition grows (st st' : state) : Prop :=
  (is_fitted st = true -> is_fitted st' = true) /\
  candidates st' = candidates st /\
  exists events, log st' = log st ++ events /\
    (InitAcqf ∉ events -> acqf st' = acqf st).

(** The strategy with one feature after it was told three experiments. *)
Definition told : state := (tell trusting line_strategy (frame 3) false true fresh).2.

(** The domain of the tests of [get_fixed_features] with every method
    EXHAUSTIVE: [if3] is enumerated, [if2] and [if4] are fixed. *)
Definition mixed_exhaustive_strategy : BotorchStrategy :=
  mkStrategy (domain mixed_strategy) (input_preprocessing_specs mixed_strategy)
             EXHAUSTIVE EXHAUSTIVE EXHAUSTIVE.

(** ** The root validator of the data model:
    [bofire/data_models/strategies/predictives/botorch.py], lines 72-143 *)

(** The classes of surrogate data models the validator names (imported at
    lines 9-13).  Their definitions are not part of the sources at hand; of a
    surrogate's class the code only tests
    [isinstance(m, MixedSingleTaskGPSurrogate)] (line 82) and constructs the
    two Gaussian-process classes (lines 127 and 134). *)
Inductive SurrogateClass : Type :=
| SingleTaskGPSurrogate
| MixedSingleTaskGPSurrogate
| OtherSurrogate.

#[global] Instance SurrogateClass_eq_dec : EqDecision SurrogateClass.
Proof. solve_decision. Defined.

(** What the validator reads of a surrogate data model: its class (line 82),
    [m.input_features] (line 89), [m.input_preprocessing_specs] (line 91)
    and the keys of the [output_features] it is constructed with (lines 129
    and 136). *)
Record Surrogate : Type := mkSurrogate {
  surrogate_class : SurrogateClass;
  input_features : list Input;
  output_keys : list string;
  surrogate_preprocessing_specs : gmap string CategoricalEncodingEnum
}.

(** The fields of [values] the root validator works on: the domain, the keys
    of its outputs and the optional [surrogate_specs] (their list
    [surrogates]). *)
Record RootValues : Type := mkRootValues {
  values_domain : Domain;
  values_outputs : list string;
  surrogate_specs : option (list Surrogate)
}.

(** What the validator calls and is not part of the sources at hand: the
    validation inside the constructors of the two Gaussian-process data
    models, which fills in the encodings of the inputs; the validation of
    [BotorchSurrogates(surrogates=...)] and [_check_compability]; the
    property [output_features] of given specs; and the order in which
    [list(set(a) - set(b))] hands out its elements. *)
Record SurrogateModels : Type := mkSurrogateModels {
  default_specs : SurrogateClass -> list Input -> string ->
                  result (gmap string CategoricalEncodingEnum);
  validate_surrogates : list Surrogate -> result unit;
  _check_compability : list Surrogate -> Domain -> list string -> result unit;
  existing_output_keys : list Surrogate -> list string;
  set_difference : list string -> list string -> list string
}.

(** [type(f) is CategoricalInput]: the class itself, no subclass. *)
Definition is_exactly_categorical (f : Input) : bool :=
  match f with
  | CategoricalInput _ _ _ => true
  | _ => false
  end.

(** [domain.inputs.get(CategoricalInput, exact=True)] *)
Definition exact_categoricals (d : Domain) : list Input :=
  filter (fun f => is_exactly_categorical f = true) (inputs d).

(** [_generate_surrogate_specs], lines 99-143. *)
Definition _generate_surrogate_specs (ext : SurrogateModels) (d : Domain)
    (outputs : list string) (given : option (list Surrogate)) : result (list Surrogate) :=
  let existing_keys :=
    match given with Some specs => existing_output_keys ext specs | None => [] end in
  let non_exisiting_keys := set_difference ext outputs existing_keys in
  let _surrogate_specs := match given with Some specs => specs | None => [] end in
  _surrogate_specs ←
    for_each non_exisiting_keys
      (fun output_feature acc =>
         let cls := if (0 <? length (exact_categoricals d))%nat
                    then MixedSingleTaskGPSurrogate else SingleTaskGPSurrogate in
         specs ← default_specs ext cls (inputs d) output_feature;
         Ok (acc ++ [mkSurrogate cls (inputs d) [output_feature] specs]))
      _surrogate_specs;
  _ ← validate_surrogates ext _surrogate_specs;
  _ ← _check_compability ext _surrogate_specs d outputs;
  Ok _surrogate_specs.

Definition free_mixed_msg : string :=
  "Categorical method FREE not compatible with a a MixedSingleTaskGPModel.".
Definition same_method_msg : string :=
  "One-hot encoded CategoricalDescriptorInput features has to be treated with the same method as categoricals.".

(** The first loop of the validator, lines 80-85. *)
Definition check_free_method (surrogates : list Surrogate) : result unit :=
  for_each surrogates
    (fun m _ =>
       if bool_decide (surrogate_class m = MixedSingleTaskGPSurrogate)
       then Raise (ValueError free_mixed_msg) else Ok tt)
    tt.

(** The second loop, lines 88-96. *)
Definition check_descriptor_method (categorical_method descriptor_method : CategoricalMethodEnum)
    (surrogates : list Surrogate) : result unit :=
  for_each surrogates
    (fun m _ =>
       let keys := get_keys (mkDomain (input_features m) []) cls_CategoricalDescriptorInput in
       for_each keys
         (fun k _ =>
            e ← or_raise (KeyError k) (surrogate_preprocessing_specs m !! k);
            if bool_decide (e = ONE_HOT) then
              if bool_decide (categorical_method <> descriptor_method)
              then Raise (ValueError same_method_msg) else Ok tt
            else Ok tt)
         tt)
    tt.

(** [update_surrogate_specs_for_domain], lines 72-97. *)
Definition update_surrogate_specs_for_domain (ext : SurrogateModels)
    (values : DataModel.BotorchStrategy RootValues)
  : result (DataModel.BotorchStrategy RootValues) :=
  let r := DataModel.rest values in
  specs ← _generate_surrogate_specs ext (values_domain r) (values_outputs r)
            (surrogate_specs r);
  _ ← (if bool_decide (DataModel.categorical_method values = FREE)
       then check_free_method specs else Ok tt);
  _ ← check_descriptor_method (DataModel.categorical_method values)
         (DataModel.descriptor_method values) specs;
  Ok (DataModel.mkBotorchStrategy
        (DataModel.num_sobol_samples values) (DataModel.num_restarts values)
        (DataModel.num_raw_samples values) (DataModel.descriptor_method values)
        (DataModel.categorical_method values) (DataModel.discrete_method values)
        (mkRootValues (values_domain r) (values_outputs r) (Some specs))).

(** The set difference has the elements of the first list that are not in
    the second. *)
Definition set_difference_ok (ext : SurrogateModels) : Prop :=
  forall a b k, k ∈ set_difference ext a b <-> k ∈ a /\ k ∉ b.

(** Surrogate models whose validations accept everything; the constructors
    leave the encodings empty. *)
Definition plain_models : SurrogateModels :=
  {| default_specs := fun _ _ _ => Ok ∅;
     validate_surrogates := fun _ => Ok tt;
     _check_compability := fun _ _ _ => Ok tt;
     existing_output_keys := fun specs => specs ≫= output_keys;
     set_difference := fun a b => filter (fun k => k ∉ b) (remove_dups a) |}.

(** The values of a data model over the domain with a categorical feature,
    with one output and no surrogate specs. *)
Definition categorical_values (method : CategoricalMethodEnum)
  : DataModel.BotorchStrategy RootValues :=
  DataModel.mkBotorchStrategy 512 8 1024 EXHAUSTIVE method EXHAUSTIVE
    (mkRootValues (domain fixed_categorical_strategy) ["y"] None).

(** ** The continuous input: [bofire/data_models/features/continuous.py]

    A float is the rational it stands for; comparisons are exact.  The
    subtraction and the addition round, and are parameters, as is the text
    [repr] a float is printed with.  A series holds no NaN; the minimum of an
    empty series is NaN, written [None]. *)
Module Continuous.

Record FloatOps : Type := mkFloatOps {
  fsub : Q -> Q -> Q;
  fadd : Q -> Q -> Q;
  repr : Q -> string
}.

(** Rounding never moves a difference above, or a sum below, the first
    operand when the second one is positive. *)
Definition monotone (ops : FloatOps) : Prop :=
  forall x w : Q, (0 < w)%Q -> (fsub ops x w <= x)%Q /\ (x <= fadd ops x w)%Q.

(** The fields [key], [bounds], [local_relative_bounds] and [stepsize]. *)
Record ContinuousInput : Type := mkContinuousInput {
  key : string;
  bounds : Q * Q;
  local_relative_bounds : option (Q * Q);
  stepsize : option Q
}.

Definition lower_bound (f : ContinuousInput) : Q := fst (bounds f).
Definition upper_bound (f : ContinuousInput) : Q := snd (bounds f).

(** Python's [max(a, b)] and [min(a, b)]: the first argument unless the
    second is greater, or smaller. *)
Definition py_max (a b : Q) : Q := if Qle_bool b a then a else b.
Definition py_min (a b : Q) : Q := if Qle_bool a b then a else b.

(** [local_lower_bound], lines 41-47.  Without a window the window is
    [(math.inf, math.inf)]: [reference_value - inf] is [-inf] and the maximum
    is the lower bound. *)
Definition local_lower_bound (ops : FloatOps) (f : ContinuousInput) (reference_value : Q) : Q :=
  match local_relative_bounds f with
  | None => lower_bound f
  | Some (w, _) => py_max (fsub ops reference_value w) (lower_bound f)
  end.

(** [local_upper_bound], lines 54-60. *)
Definition local_upper_bound (ops : FloatOps) (f : ContinuousInput) (reference_value : Q) : Q :=
  match local_relative_bounds f with
  | None => upper_bound f
  | Some (_, w) => py_min (fadd ops reference_value w) (upper_bound f)
  end.

(** Modelled from the spec: [is_fixed()] of the parent class, section 4.3: a
    continuous feature is fixed when [lower == upper]. *)
Definition is_fixed (f : ContinuousInput) : bool :=
  Qeq_bool (lower_bound f) (upper_bound f).

Definition only_one_msg : string := "Only one can be used, `local_value` or `values`.".

(** [get_bounds], lines 153-173.  [min(self.lower_bound, values.min())] keeps
    the bound when the series is empty, since no comparison with NaN holds. *)
Definition get_bounds (ops : FloatOps) (f : ContinuousInput)
    (transform_type : option CategoricalEncodingEnum) (values : option (list Q))
    (reference_value : option Q) : result (list Q * list Q) :=
  match transform_type with
  | Some _ => Raise (AssertionError "")
  | None =>
      match reference_value, values with
      | Some _, Some _ => Raise (ValueError only_one_msg)
      | _, None =>
          match reference_value with
          | None => Ok ([lower_bound f], [upper_bound f])
          | Some r =>
              if is_fixed f then Ok ([lower_bound f], [upper_bound f])
              else Ok ([local_lower_bound ops f r], [local_upper_bound ops f r])
          end
      | None, Some vs =>
          let lower := match list_min vs with
                       | Some m => py_min (lower_bound f) m
                       | None => lower_bound f
                       end in
          let upper := match list_max vs with
                       | Some m => py_max (upper_bound f) m
                       | None => upper_bound f
                       end in
          Ok ([lower], [upper])
      end
  end.

(** [noise = 10e-6] *)
Definition noise : Q := 1 # 100000.

Definition below_msg (k bound : string) : string :=
  "not all values of input feature `" +:+ k +:+ "`are larger than lower bound `"
  +:+ bound +:+ "` ".
Definition above_msg (k bound : string) : string :=
  "not all values of input feature `" +:+ k +:+ "`are smaller than upper bound `"
  +:+ bound +:+ "` ".

(** [values < x] and [values > x] on a series, then [.any()]. *)
Definition any_below (x : Q) (values : list Q) : bool :=
  existsb (fun v => negb (Qle_bool x v)) values.
Definition any_above (x : Q) (values : list Q) : bool :=
  existsb (fun v => negb (Qle_bool v x)) values.

(** [validate_candidental], lines 106-131; [super_validate] is the method of
    the parent class, which is not part of the sources at hand. *)
Definition validate_candidental (ops : FloatOps)
    (super_validate : list value -> result (list Q))
    (f : ContinuousInput) (values : list value) : result (list Q) :=
  values ← super_validate values;
  if any_below (fsub ops (lower_bound f) noise) values
  then Raise (ValueError (below_msg (key f) (repr ops (lower_bound f))))
  else if any_above (fadd ops (upper_bound f) noise) values
  then Raise (ValueError (above_msg (key f) (repr ops (upper_bound f))))
  else Ok values.

(** Exact arithmetic. *)
Definition exact : FloatOps := mkFloatOps Qminus Qplus (fun _ => "?").

(** A feature on [0, 10] with the window [(1, 2)]. *)
Definition windowed : ContinuousInput :=
  mkContinuousInput "x" (0, 10)%Q (Some (1, 2)%Q) None.

End Continuous.

(** The domain [if1, if2, if8] of the tests of [get_fixed_features]: the
    descriptor feature [if8] allows two categories with equal descriptors;
    [descriptor_method] is FREE. *)
Definition constant_descriptor_feature : Input :=
  CategoricalDescriptorInput "if8" ["c1"; "c2"; "c3"] [true; false; true] ["d1"]
    [[3]; [7]; [3]]%Q.

Definition constant_descriptor_strategy : BotorchStrategy :=
  mkStrategy
    (mkDomain [ContinuousInput "if1" 3 (53 # 10); ContinuousInput "if2" 3 3;
               constant_descriptor_feature] [])
    {[ "if8" := DESCRIPTOR ]} FREE FREE EXHAUSTIVE.

(** The strategy with an n-choose-k constraint, all methods FREE. *)
Definition sparse_free_strategy : BotorchStrategy :=
  mkStrategy (domain sparse_strategy) (input_preprocessing_specs sparse_strategy)
             FREE FREE FREE.

(** * Properties *)

Section DataModelFacts.
Import DataModel.

Lemma land_pred_pow2 k : 0 <= k -> Z.land (2 ^ k) (2 ^ k - 1) = 0.
Proof.
  intros Hk. apply Z.bits_inj'. intros i Hi.
  rewrite Z.land_spec, Z.bits_0, Z.pow2_bits_eqb by lia.
  replace (2 ^ k - 1) with (Z.ones k) by (rewrite Z.ones_equiv; lia).
  rewrite Z.testbit_ones_nonneg by lia.
  destruct (Z.eqb_spec k i) as [->|]; [|reflexivity].
  rewrite Z.ltb_irrefl. reflexivity.
Qed.

Lemma half_pred_even p : (Z.pos p~0 - 1) / 2 = Z.pos p - 1.
Proof. symmetry. apply Z.div_unique with 1; lia. Qed.

Lemma half_even p : Z.pos p~0 / 2 = Z.pos p.
Proof. symmetry. apply Z.div_unique with 0; lia. Qed.

Lemma half_odd p : Z.pos p~1 / 2 = Z.pos p.
Proof. symmetry. apply Z.div_unique with 1; lia. Qed.

Lemma half_pred_odd p : (Z.pos p~1 - 1) / 2 = Z.pos p.
Proof. symmetry. apply Z.div_unique with 0; lia. Qed.

Lemma land_halves a b : Z.land a b = 0 -> Z.land (a / 2) (b / 2) = 0.
Proof.
  intros H. rewrite <- (Z.pow_1_r 2), <- !Z.shiftr_div_pow2, <- Z.shiftr_land, H by lia.
  apply Z.shiftr_0_l.
Qed.

Lemma land_pred_zero_pos p :
  Z.land (Z.pos p) (Z.pos p - 1) = 0 -> power_of_two (Z.pos p).
Proof.
  induction p as [p IH|p IH|]; intros H.
  - apply land_halves in H. rewrite half_odd, half_pred_odd, Z.land_diag in H. lia.
  - apply land_halves in H. rewrite half_even, half_pred_even in H.
    destruct (IH H) as (k & Hk & Hp). exists (k + 1). split; [lia|].
    rewrite Z.pow_add_r, <- Hp by lia. lia.
  - exists 0. split; [lia | reflexivity].
Qed.

Lemma is_power_of_two_spec n : is_power_of_two n = true <-> power_of_two n.
Proof.
  unfold is_power_of_two. rewrite andb_true_iff, negb_true_iff, !Z.eqb_neq, Z.eqb_eq.
  split.
  - intros [Hn H]. destruct n as [|p|p]; [lia | by apply land_pred_zero_pos |].
    assert (Z.land (Z.neg p) (Z.neg p - 1) < 0) by (apply Z.land_neg; lia). lia.
  - intros (k & Hk & ->). split; [|by apply land_pred_pow2].
    apply Z.pow_nonzero; lia.
Qed.

Lemma is_power_of_two_false n : is_power_of_two n = false <-> ~ power_of_two n.
Proof. rewrite <- is_power_of_two_spec. destruct (is_power_of_two n); naive_solver. Qed.

Lemma validate_field_sobol v :
  0 < v ->
  validate_field v [validate_num_sobol_samples] =
    if is_power_of_two v then Ok v else Raise (ValueError sobol_msg).
Proof.
  intros Hv. unfold validate_field, validate_PositiveInt.
  destruct (Z.ltb_spec 0 v); [|lia]. simpl. unfold validate_num_sobol_samples.
  destruct (is_power_of_two v); reflexivity.
Qed.

Lemma validate_field_raw v :
  0 < v ->
  validate_field v [validate_num_raw_samples] =
    if is_power_of_two v then Ok v else Raise (ValueError raw_msg).
Proof.
  intros Hv. unfold validate_field, validate_PositiveInt.
  destruct (Z.ltb_spec 0 v); [|lia]. simpl. unfold validate_num_raw_samples.
  destruct (is_power_of_two v); reflexivity.
Qed.

Lemma construct_Ok_fields {R} (root : BotorchStrategy R -> result (BotorchStrategy R)) values :
  is_Ok (construct root values) ->
  is_power_of_two (num_sobol_samples values) = true /\
  is_power_of_two (num_raw_samples values) = true.
Proof.
  intros [dm H]. unfold construct, validate_field, validate_PositiveInt in H.
  destruct (0 <? num_sobol_samples values); simpl in H; [|discriminate].
  unfold validate_num_sobol_samples in H.
  destruct (is_power_of_two (num_sobol_samples values)); simpl in H; [|discriminate].
  destruct (0 <? num_restarts values); simpl in H; [|discriminate].
  destruct (0 <? num_raw_samples values); simpl in H; [|discriminate].
  unfold validate_num_raw_samples in H.
  destruct (is_power_of_two (num_raw_samples values)); simpl in H; [|discriminate].
  done.
Qed.

(** C10: constructing the data model succeeds only if [num_sobol_samples] and
    [num_raw_samples] are powers of two; for any other positive value of
    either field the constructor raises a validation error (a [ValueError])
    that carries the message of that field's validator. *)
Theorem construct_requires_powers_of_two {R}
    (root : BotorchStrategy R -> result (BotorchStrategy R)) (values : BotorchStrategy R) :
  0 < num_sobol_samples values ->
  0 < num_raw_samples values ->
  (is_Ok (construct root values) ->
     power_of_two (num_sobol_samples values) /\ power_of_two (num_raw_samples values)) /\
  (~ power_of_two (num_sobol_samples values) ->
     exists msgs, construct root values = Raise (ValidationError msgs) /\ sobol_msg ∈ msgs) /\
  (~ power_of_two (num_raw_samples values) ->
     exists msgs, construct root values = Raise (ValidationError msgs) /\ raw_msg ∈ msgs).
Proof.
  intros Hs Hr. split; [|split].
  - intros H. apply construct_Ok_fields in H. by rewrite <- !is_power_of_two_spec.
  - intros H. apply is_power_of_two_false in H. unfold construct.
    rewrite validate_field_sobol, H by done. simpl. eexists. split; [reflexivity|].
    apply elem_of_cons. by left.
  - intros H. apply is_power_of_two_false in H. unfold construct.
    rewrite validate_field_raw, H by done. simpl error_of at 3.
    set (errors := _ ++ _ ++ [ValueError raw_msg]).
    assert (Hin : ValueError raw_msg ∈ errors).
    { unfold errors. rewrite !elem_of_app, list_elem_of_singleton. auto. }
    exists (message_of <$> errors). split.
    + destruct errors; [by apply elem_of_nil in Hin | reflexivity].
    + apply list_elem_of_fmap. by exists (ValueError raw_msg).
Qed.
End DataModelFacts.

(** ** Generic facts on the error monad and loops *)

Lemma bind_Ok {A B} (m : result A) (k : A -> result B) b :
  m ≫= k = Ok b <-> exists a, m = Ok a /\ k a = Ok b.
Proof.
  destruct m as [a|e]; cbn; split.
  - intros H. by exists a.
  - by intros (a' & [= ->] & H).
  - done.
  - by intros (a' & [=] & _).
Qed.

Lemma bind_Raise {A B} (m : result A) (k : A -> result B) e :
  m ≫= k = Raise e <-> m = Raise e \/ exists a, m = Ok a /\ k a = Raise e.
Proof.
  destruct m as [a|e']; cbn; split.
  - intros H. right. by exists a.
  - by intros [[=]|(a' & [= ->] & H)].
  - intros [= ->]. by left.
  - by intros [[= ->]|(a' & [=] & _)].
Qed.

Lemma fmap_Ok {A B} (f : A -> B) (m : result A) b :
  f <$> m = Ok b <-> exists a, m = Ok a /\ b = f a.
Proof.
  destruct m as [a|e]; cbn; split.
  - intros [= <-]. by exists a.
  - by intros (a' & [= ->] & ->).
  - done.
  - by intros (a' & [=] & _).
Qed.

Lemma for_each_app {A S} (xs ys : list A) (body : A -> S -> result S) acc :
  for_each (xs ++ ys) body acc = for_each xs body acc ≫= for_each ys body.
Proof.
  revert acc. induction xs as [|x xs IH]; intros acc; simpl; [done|].
  destruct (body x acc); simpl; auto.
Qed.

(** An invariant kept by the body of a loop is kept by the loop. *)
Lemma for_each_invariant {A S} (P : S -> Prop) (xs : list A) (body : A -> S -> result S) :
  (forall x acc acc', x ∈ xs -> body x acc = Ok acc' -> P acc -> P acc') ->
  forall acc acc', for_each xs body acc = Ok acc' -> P acc -> P acc'.
Proof.
  induction xs as [|x xs IH]; intros Hbody acc acc' H HP; simpl in H.
  - by inversion H; subst.
  - apply bind_Ok in H as (acc1 & H1 & H2).
    eapply IH; [|exact H2|].
    + intros. eapply Hbody; [by right| |]; eauto.
    + eapply Hbody; [by left| |]; eauto.
Qed.

(** A loop only raises what its body raises. *)
Lemma for_each_raises {A S} (P : exn -> Prop) (xs : list A) (body : A -> S -> result S) :
  (forall x acc e, x ∈ xs -> body x acc = Raise e -> P e) ->
  forall acc e, for_each xs body acc = Raise e -> P e.
Proof.
  induction xs as [|x xs IH]; intros Hbody acc e H; simpl in H; [done|].
  apply bind_Raise in H as [H|(acc1 & H1 & H2)].
  - eapply Hbody; [by left|]; eauto.
  - eapply IH; [|exact H2]. intros. eapply Hbody; [by right|]; eauto.
Qed.

(** ** The composer of fixed values *)

Lemma lookup_update (ff1 ff2 : gmap nat value) k :
  update ff1 ff2 !! k = match ff2 !! k with Some v => Some v | None => ff1 !! k end.
Proof.
  unfold update. rewrite lookup_union. destruct (ff2 !! k), (ff1 !! k); reflexivity.
Qed.

Lemma compose_loop (ncks : list (gmap nat value)) (r : result (list (gmap nat value)))
    (ccs : list (gmap nat value)) acc :
  r = Ok ncks ->
  for_each ccs (fun ff1 full => ncks' ← r; Ok (full ++ (update ff1 <$> ncks'))) acc
  = Ok (acc ++ (ccs ≫= fun ff1 => update ff1 <$> ncks)).
Proof.
  intros ->. revert acc. induction ccs as [|ff1 ccs IH]; intros acc.
  - simpl. by rewrite app_nil_r.
  - rewrite bind_cons, app_assoc. simpl. by rewrite IH.
Qed.

Lemma length_bind_uniform {A B} (f : A -> list B) (l : list A) n :
  (forall x, length (f x) = n) -> length (l ≫= f) = (length l * n)%nat.
Proof.
  intros Hf. induction l as [|x l IH]; [done|].
  rewrite bind_cons, length_app, Hf, IH. simpl. lia.
Qed.

Lemma lookup_bind_uniform {A B} (f : A -> list B) (l : list A) n i j x :
  (forall x, length (f x) = n) ->
  l !! i = Some x -> (j < n)%nat ->
  (l ≫= f) !! (i * n + j)%nat = f x !! j.
Proof.
  intros Hf. revert i. induction l as [|y l IH]; intros i Hi Hj; [done|].
  rewrite bind_cons. destruct i as [|i]; simpl in *.
  - inversion Hi; subst. rewrite lookup_app_l; [done | rewrite Hf; lia].
  - rewrite lookup_app_r; rewrite Hf; [|lia].
    replace (n + i * n + j - n)%nat with (i * n + j)%nat by lia. by apply IH.
Qed.

Lemma lookup_bind_uniform_inv {A B} (f : A -> list B) (l : list A) n m y :
  (forall x, length (f x) = n) ->
  (l ≫= f) !! m = Some y ->
  exists i j x, m = (i * n + j)%nat /\ (j < n)%nat /\ l !! i = Some x /\ f x !! j = Some y.
Proof.
  intros Hf. revert m. induction l as [|x l IH]; intros m Hm; [done|]. rewrite bind_cons in Hm.
  destruct (decide (m < n)%nat) as [Hlt|Hge].
  - rewrite lookup_app_l in Hm by (rewrite Hf; lia).
    exists 0%nat, m, x. repeat split; auto.
  - rewrite lookup_app_r in Hm by (rewrite Hf; lia). rewrite Hf in Hm.
    apply IH in Hm as (i & j & x' & Hm & Hj & Hi & Hy).
    exists (S i), j, x'. repeat split; auto. simpl. lia.
Qed.

(** When the two enumerators return, [get_fixed_values_list] returns
    [len(get_categorical_combinations()) * len(get_nchoosek_combinations())]
    dictionaries; the one at position [i * len(nchoosek) + j] is the merge of
    the [i]-th categorical combination with the [j]-th n-choose-k dictionary,
    every element is such a merge, and on a key present in both the
    n-choose-k value stays. *)
Lemma get_fixed_values_list_merges (s : BotorchStrategy)
    (ccs ncks : list (gmap nat value)) :
  get_categorical_combinations s = Ok ccs ->
  get_nchoosek_combinations s = Ok ncks ->
  exists full,
    get_fixed_values_list s = Ok full /\
    length full = (length ccs * length ncks)%nat /\
    (forall i j ff1 ff2, ccs !! i = Some ff1 -> ncks !! j = Some ff2 ->
       exists ff, full !! (i * length ncks + j)%nat = Some ff /\
         forall k, ff !! k = match ff2 !! k with Some v => Some v | None => ff1 !! k end) /\
    (forall n ff, full !! n = Some ff ->
       exists i j ff1 ff2, n = (i * length ncks + j)%nat /\
         ccs !! i = Some ff1 /\ ncks !! j = Some ff2 /\
         forall k, ff !! k = match ff2 !! k with Some v => Some v | None => ff1 !! k end).
Proof.
  intros Hcc Hnck. unfold get_fixed_values_list. rewrite Hcc. simpl.
  rewrite (compose_loop ncks) by done. simpl.
  set (f := fun ff1 : gmap nat value => update ff1 <$> ncks).
  assert (Hf : forall x, length (f x) = length ncks) by (intros; apply length_fmap).
  eexists. split; [reflexivity|]. split; [|split].
  - by apply length_bind_uniform.
  - intros i j ff1 ff2 Hi Hj. exists (update ff1 ff2). split; [|apply lookup_update].
    rewrite (lookup_bind_uniform f ccs (length ncks) i j ff1) by eauto using lookup_lt_Some.
    unfold f. by rewrite list_lookup_fmap, Hj.
  - intros n ff Hn.
    apply (lookup_bind_uniform_inv f ccs (length ncks)) in Hn as (i & j & ff1 & -> & Hj & Hi & Hff);
      [|done].
    unfold f in Hff. rewrite list_lookup_fmap in Hff.
    destruct (ncks !! j) as [ff2|] eqn:E; [|done]. inversion Hff; subst.
    exists i, j, ff1, ff2. repeat split; auto. apply lookup_update.
Qed.

(** ** The check of [tell] for fixed columns *)

Lemma fixed_nontasks_not_task d f :
  f ∈ fixed_nontasks d -> isinstance f cls_TaskInput = false /\ is_fixed f = true.
Proof.
  unfold fixed_nontasks, get_fixed. rewrite !list_elem_of_filter. tauto.
Qed.

Lemma check_fixed_feature_guard cleaned f msg :
  isinstance f cls_TaskInput = false ->
  check_fixed_feature cleaned f <> Raise (ValueError msg).
Proof.
  intros Htask H. unfold check_fixed_feature in H.
  apply bind_Raise in H as [H|(fv & Hfv & H)].
  - destruct f; simpl in H; try discriminate;
      destruct (bool_decide _); try discriminate;
      destruct (head _); discriminate.
  - destruct fv as [fv|]; [|discriminate].
    apply bind_Raise in H as [H|(column & _ & H)].
    { unfold getitem in H. destruct (columns cleaned !! key f); discriminate. }
    apply bind_Raise in H as [H|(v0 & _ & H)].
    { destruct (fv !! 0%nat); discriminate. }
    rewrite Htask, andb_false_r in H. discriminate.
Qed.

(** C9: the branch of [tell] that raises "No variance in experiments for
    fixed feature" is unreachable: every feature the loop visits is no
    [TaskInput], so the guard of the raise is false for it whatever the
    column holds, and the loop never raises a [ValueError]. *)
Theorem no_variance_error_unreachable (d : Domain) (cleaned_experiments : DataFrame) :
  (forall feature, feature ∈ fixed_nontasks d ->
     forall column v0,
       forallb (fun c => value_eqb c v0) column && isinstance feature cls_TaskInput = false) /\
  (forall msg, check_fixed_columns d cleaned_experiments <> Raise (ValueError msg)).
Proof.
  split.
  - intros f Hf column v0. apply fixed_nontasks_not_task in Hf as [-> _].
    apply andb_false_r.
  - intros msg H. unfold check_fixed_columns in H.
    eapply (for_each_raises (fun e => e <> ValueError msg)) in H; [done|].
    intros f [] e Hf He ->. apply fixed_nontasks_not_task in Hf as [Hf _].
    by eapply check_fixed_feature_guard.
Qed.

(** ** [ask] before enough experiments *)

(** C8, as amended: on a strategy that was told no experiments, or too few
    for [has_sufficient_experiments], [Strategy.ask] called without a
    candidate count or with a count of at least one raises the error "Not
    enough experiments available to execute the strategy." and leaves the
    strategy as it was: nothing was fitted and no optimizer was called.  A
    count below one is refused before the experiments are looked at, with the
    error on the candidate count. *)
Theorem ask_requires_experiments (ext : Collaborators) (s : BotorchStrategy)
    (candidate_count : option Z) (add_pending : bool) (candidate_pool : option DataFrame)
    (st : state) :
  experiments st = None \/ has_sufficient_experiments s (experiments st) = Ok false ->
  (PositiveInt candidate_count ->
   ask ext s candidate_count add_pending candidate_pool st
   = (Raise (ValueError not_enough_msg), st)) /\
  (forall n, candidate_count = Some n -> n < 1 ->
   ask ext s candidate_count add_pending candidate_pool st
   = (Raise (ValueError candidate_count_msg), st)).
Proof.
  intros Hexp.
  assert (Hsuff : has_sufficient_experiments s (experiments st) = Ok false).
  { destruct Hexp as [->|]; done. }
  split.
  - intros Hcount. unfold ask, bind.
    assert (Hfirst : (match candidate_count with
                      | Some n => if n <? 1 then raise (ValueError candidate_count_msg) else ret tt
                      | None => ret tt
                      end) st = (Ok tt, st)).
    { destruct candidate_count as [n|]; [|done].
      specialize (Hcount n eq_refl). destruct (Z.ltb_spec n 1); [lia|done]. }
    rewrite Hfirst. unfold read, lift. rewrite Hsuff. reflexivity.
  - intros n -> Hn. unfold ask, bind, raise.
    destruct (Z.ltb_spec n 1); [done | lia].
Qed.

(** ** Sufficient experiments and refitting *)

Lemma get_features_Input d : get_features d [cls_Input] None = inputs d.
Proof.
  unfold get_features. induction (inputs d) as [|f l IH]; [done|].
  rewrite filter_cons_True; [by rewrite IH | done].
Qed.


Lemma accumulate_keeps ext s exps replace st r st' :
  accumulate ext s exps replace st = (r, st') ->
  log st' = log st /\ is_fitted st' = is_fitted st /\ acqf st' = acqf st /\
  (r = Ok tt -> exists e, experiments st' = Some e).
Proof.
  unfold accumulate, set_experiments, add_experiments, bind, lift, read, modify.
  destruct replace;
    destruct (validate_experiments ext (domain s) exps false) as [e|err]; cbn;
    try (intros [= <- <-]; repeat split; eauto; done).
  destruct (experiments st); intros [= <- <-]; simpl; repeat split; eauto.
Qed.

Lemma fit_then_tell ext s st r st' :
  (bind (fit ext s) (fun _ => _tell ext)) st = (r, st') ->
  r = Ok tt ->
  exists e,
    experiments st = Some e /\
    _init_acqf ext (set_is_fitted (record_event (Fit e) st)) = (Ok tt, acqf st') /\
    st' = set_acqf (acqf st')
            (record_event InitAcqf (set_is_fitted (record_event (Fit e) st))).
Proof.
  unfold fit, _tell, init_acqf, bind, read, lift, modify, raise. intros H ->.
  destruct (experiments st) as [e|] eqn:E; [|by inversion H].
  destruct (0 <? nrows e)%nat; [|by inversion H].
  destruct (validate_experiments ext (domain s) e true); [|by inversion H].
  destruct (surrogate_fit ext e); [|by inversion H].
  destruct (_init_acqf ext (set_is_fitted (record_event (Fit e) st))) as [r0 b] eqn:Hinit.
  simpl in H. inversion H; subst. exists e. simpl. by rewrite Hinit.
Qed.


(** ** The dispatch of [_ask] *)

Lemma methods_all_free s :
  forallb (fun enc => bool_decide (enc = FREE)) (methods s) = true <->
  categorical_method s = FREE /\ descriptor_method s = FREE /\ discrete_method s = FREE.
Proof.
  unfold methods. simpl. rewrite !andb_true_iff, !bool_decide_eq_true. tauto.
Qed.

Lemma methods_some_exhaustive s : EXHAUSTIVE ∈ methods s <-> some_exhaustive s.
Proof.
  unfold methods, some_exhaustive. rewrite !elem_of_cons, elem_of_nil.
  intuition congruence.
Qed.

Lemma not_all_free_some_exhaustive s :
  ~ (categorical_method s = FREE /\ descriptor_method s = FREE /\ discrete_method s = FREE) ->
  some_exhaustive s.
Proof.
  unfold some_exhaustive.
  destruct (categorical_method s), (descriptor_method s), (discrete_method s); tauto.
Qed.

Lemma continuous_condition_test s :
  (bool_decide (num_categorical_features s = 0%nat)
   || bool_decide (num_categorical_combinations s = 1%nat)
   || forallb (fun enc => bool_decide (enc = FREE)) (methods s))
  && bool_decide (length (nchoosek (domain s)) = 0%nat) = true
  <-> continuous_condition s.
Proof.
  unfold continuous_condition.
  rewrite andb_true_iff, !orb_true_iff, !bool_decide_eq_true, methods_all_free.
  rewrite length_zero_iff_nil. tauto.
Qed.

Lemma ask_branch_cases s :
  (continuous_condition s /\ ask_branch s = PureContinuous) \/
  (~ continuous_condition s /\ nchoosek (domain s) = [] /\ some_exhaustive s /\
   ask_branch s = MixedCategorical) \/
  (nchoosek (domain s) <> [] /\ ask_branch s = MixedNChooseK).
Proof.
  unfold ask_branch.
  destruct (_ && _) eqn:E1.
  { left. by apply continuous_condition_test in E1. }
  assert (Hn : ~ continuous_condition s).
  { intros H. apply continuous_condition_test in H. congruence. }
  destruct (nchoosek (domain s)) as [|c cs] eqn:En.
  - right. left. simpl.
    assert (Hex : some_exhaustive s).
    { apply not_all_free_some_exhaustive. intros H. apply Hn. split; [|done]. tauto. }
    rewrite bool_decide_eq_true_2 by (by apply methods_some_exhaustive). auto.
  - right. right. simpl. rewrite andb_false_r. done.
Qed.

(** C2, as amended: [_ask] runs the continuous optimizer with the dictionary
    of [get_fixed_features] exactly when there is no n-choose-k constraint and
    the domain has no categorical or discrete feature, or its categorical
    combinations number exactly one, or all three methods are FREE; it runs
    the mixed optimizer with [get_categorical_combinations] exactly when there
    is no n-choose-k constraint and none of these holds (some method is then
    EXHAUSTIVE); it runs the mixed optimizer with [get_fixed_values_list]
    exactly when there is an n-choose-k constraint; the [else] branch raises
    an [IOError] and is never taken. *)
Theorem ask_dispatch (s : BotorchStrategy) :
  (ask_branch s = PureContinuous <-> continuous_condition s) /\
  (ask_branch s = MixedCategorical <->
     ~ continuous_condition s /\ some_exhaustive s /\ nchoosek (domain s) = []) /\
  (ask_branch s = MixedNChooseK <-> nchoosek (domain s) <> []) /\
  ask_branch s <> NoBranch /\
  (ask_branch s = NoBranch -> choose_optimizer s = Raise IOError) /\
  (continuous_condition s ->
     choose_optimizer s = optimize_acqf <$> get_fixed_features s) /\
  (~ continuous_condition s -> nchoosek (domain s) = [] ->
     choose_optimizer s = optimize_acqf_mixed <$> get_categorical_combinations s) /\
  (nchoosek (domain s) <> [] ->
     choose_optimizer s = optimize_acqf_mixed <$> get_fixed_values_list s).
Proof.
  unfold choose_optimizer.
  assert (Hc : continuous_condition s -> nchoosek (domain s) = []) by (by intros [_ ?]).
  destruct (ask_branch_cases s) as [[H1 E]|[(H1 & H2 & H3 & E)|[H1 E]]]; rewrite E.
  - split; [split; auto|]. split; [split; [discriminate | tauto]|].
    split; [split; [discriminate | intros H; exfalso; auto]|].
    split; [discriminate|]. split; [discriminate|]. split; [reflexivity|].
    split; intros; exfalso; auto.
  - split; [split; [discriminate | tauto]|]. split; [split; auto|].
    split; [split; [discriminate | tauto]|].
    split; [discriminate|]. split; [discriminate|].
    split; [tauto|]. split; [reflexivity | tauto].
  - split; [split; [discriminate | intros H; exfalso; auto]|].
    split; [split; [discriminate | tauto]|].
    split; [split; auto|]. split; [discriminate|]. split; [discriminate|].
    split; [intros H; exfalso; auto|]. split; [tauto | reflexivity].
Qed.

(** C2 as stated fails: with a single categorical feature that is fixed, all
    methods EXHAUSTIVE and no n-choose-k constraint, the continuous optimizer
    is called and not the mixed one, although the domain has a categorical
    feature and no method is FREE. *)
Lemma ask_dispatch_counterexample :
  choose_optimizer fixed_categorical_strategy
    = Ok (optimize_acqf (<[1%nat := Float 1]> (<[2%nat := Float 0]> ∅))) /\
  some_exhaustive fixed_categorical_strategy /\
  nchoosek (domain fixed_categorical_strategy) = [] /\
  ~ ((num_categorical_features fixed_categorical_strategy = 0%nat \/
      (categorical_method fixed_categorical_strategy = FREE /\
       descriptor_method fixed_categorical_strategy = FREE /\
       discrete_method fixed_categorical_strategy = FREE)) /\
     nchoosek (domain fixed_categorical_strategy) = []).
Proof.
  split; [vm_compute; reflexivity|].
  split; [by left|]. split; [reflexivity|].
  intros [[H|[H _]] _]; [vm_compute in H|]; discriminate.
Qed.

(** ** All methods FREE *)

Lemma get_categorical_combinations_all_free s fixed_basis :
  all_free s = true ->
  get_fixed_features s = Ok fixed_basis ->
  get_categorical_combinations s = Ok [∅].
Proof.
  intros Hfree Hfixed. unfold get_categorical_combinations.
  rewrite Hfixed. simpl. by rewrite Hfree.
Qed.

(** C1 fails on the code: with all methods FREE and a fixed continuous feature
    [get_fixed_features] pins column 1 to 3, and [get_categorical_combinations]
    returns the list of one empty dictionary, not the list of that base
    dictionary. *)
Theorem get_categorical_combinations_all_free_drops_fixed :
  categorical_method fixed_continuous_strategy = FREE /\
  descriptor_method fixed_continuous_strategy = FREE /\
  discrete_method fixed_continuous_strategy = FREE /\
  get_fixed_features fixed_continuous_strategy = Ok {[1%nat := Float 3]} /\
  get_categorical_combinations fixed_continuous_strategy = Ok [∅] /\
  get_categorical_combinations fixed_continuous_strategy <> Ok [{[1%nat := Float 3]}].
Proof.
  split; [reflexivity|]. split; [reflexivity|]. split; [reflexivity|].
  split; [vm_compute; reflexivity|]. split; [vm_compute; reflexivity|].
  intros H.
  assert (H0 : get_categorical_combinations fixed_continuous_strategy = Ok [∅])
    by (vm_compute; reflexivity).
  rewrite H0 in H.
  apply (f_equal (fun r : result (list (gmap nat value)) =>
                    match r with Ok [m] => m !! 1%nat | _ => None end)) in H.
  vm_compute in H. discriminate.
Qed.

(** ** The column layout *)

Lemma layout_ok_empty : layout_ok (∅, 0%nat).
Proof. split; simpl; intros *; try rewrite lookup_empty; try done. Qed.

Lemma allocate_layout_ok specs f acc acc' :
  allocate specs f acc = Ok acc' -> layout_ok acc -> layout_ok acc'.
Proof.
  unfold allocate. intros H [Hb Ha Hn].
  apply bind_Ok in H as (n & _ & [= <-]).
  split; simpl.
  - intros k l x. rewrite lookup_insert. case_decide as Hk.
    + intros [= <-]. rewrite elem_of_seq. lia.
    + intros Hl Hx. specialize (Hb _ _ _ Hl Hx). lia.
  - intros k1 k2 l1 l2 x Hne. rewrite !lookup_insert.
    case_decide as H1; case_decide as H2; try congruence.
    + intros [= <-] Hl2. rewrite elem_of_seq. intros Hx Hx2.
      specialize (Hb _ _ _ Hl2 Hx2). lia.
    + intros Hl1 [= <-] Hx. rewrite elem_of_seq.
      specialize (Hb _ _ _ Hl1 Hx). lia.
    + eauto.
  - intros k l. rewrite lookup_insert. case_decide.
    + intros [= <-]. apply NoDup_seq.
    + eauto.
Qed.

Lemma transform_info_apart feats specs m k1 k2 l1 l2 x :
  _get_transform_info feats specs = Ok m ->
  k1 <> k2 -> m !! k1 = Some l1 -> m !! k2 = Some l2 -> x ∈ l1 -> x ∉ l2.
Proof.
  unfold _get_transform_info. intros H.
  apply fmap_Ok in H as (acc & H & ->).
  apply (for_each_invariant layout_ok) in H; [|eauto using allocate_layout_ok|apply layout_ok_empty].
  apply (layout_apart _ H).
Qed.

Lemma transform_info_NoDup feats specs m k l :
  _get_transform_info feats specs = Ok m -> m !! k = Some l -> NoDup l.
Proof.
  unfold _get_transform_info. intros H.
  apply fmap_Ok in H as (acc & H & ->).
  apply (for_each_invariant layout_ok) in H; [|eauto using allocate_layout_ok|apply layout_ok_empty].
  apply (layout_NoDup _ H).
Qed.

(** ** Loops over the columns of a feature *)

Lemma elem_of_enumerate {A} (l : list A) (p : nat * A) :
  p ∈ enumerate l <-> l !! p.1 = Some p.2.
Proof.
  unfold enumerate. rewrite list_elem_of_lookup. split.
  - intros [i Hi]. rewrite list_lookup_imap in Hi.
    destruct (l !! i) eqn:E; simpl in Hi; [|done]. by inversion Hi; subst.
  - intros H. exists p.1. rewrite list_lookup_imap, H. by destruct p.
Qed.

Lemma columns_frame (body : nat * nat -> gmap nat value -> result (gmap nat value))
    (idxs : list nat) ff ff' c :
  assigns_column body ->
  for_each (enumerate idxs) body ff = Ok ff' ->
  c ∉ idxs -> ff' !! c = ff !! c.
Proof.
  intros Hbody H Hc.
  apply (for_each_invariant (fun acc => acc !! c = ff !! c)) in H; [done| |done].
  intros p acc acc' Hp Hstep Hacc.
  apply elem_of_enumerate in Hp.
  destruct (Hbody _ _ _ Hstep) as [->|[v ->]]; [done|].
  rewrite lookup_insert_ne; [done|]. intros <-. apply Hc.
  by eapply list_elem_of_lookup_2.
Qed.

(** Unconditional assignment: [for j, idx in enumerate(idxs): ff[idx] = g(j)]. *)
Lemma columns_written_from (g : nat -> result value)
    (body : nat * nat -> gmap nat value -> result (gmap nat value))
    (h : nat -> nat) (idxs : list nat) :
  (forall p ff, body p ff = v ← g p.1; Ok (<[p.2 := v]> ff)) ->
  NoDup idxs ->
  forall ff ff', for_each (imap (fun i x => (h i, x)) idxs) body ff = Ok ff' ->
  forall j idx, idxs !! j = Some idx -> exists v, g (h j) = Ok v /\ ff' !! idx = Some v.
Proof.
  intros Hbody. revert h. induction idxs as [|i0 idxs IH]; intros h Hnd ff ff' H j idx Hj; [done|].
  apply NoDup_cons in Hnd as [Hi0 Hnd].
  simpl in H. apply bind_Ok in H as (ff1 & H1 & H2).
  rewrite Hbody in H1. simpl in H1. apply bind_Ok in H1 as (v0 & Hv0 & [= <-]).
  destruct j as [|j]; simpl in Hj.
  - inversion Hj; subst idx. exists v0. split; [done|].
    assert (Hframe : ff' !! i0 = <[i0:=v0]> ff !! i0).
    { apply (for_each_invariant (fun acc => acc !! i0 = <[i0:=v0]> ff !! i0)) in H2; [done| |done].
      intros p acc acc' Hp Hstep Hacc. rewrite Hbody in Hstep.
      apply bind_Ok in Hstep as (v & _ & [= <-]).
      apply list_elem_of_lookup in Hp as [n Hp]. rewrite list_lookup_imap in Hp.
      destruct (idxs !! n) eqn:E; simpl in Hp; [|done]. inversion Hp; subst p. simpl.
      rewrite lookup_insert_ne; [done|]. intros <-. apply Hi0.
      by eapply list_elem_of_lookup_2. }
    by rewrite Hframe, lookup_insert_eq.
  - apply (IH (h ∘ S) Hnd _ _ H2 j idx Hj).
Qed.

Lemma columns_written (g : nat -> result value)
    (body : nat * nat -> gmap nat value -> result (gmap nat value))
    (idxs : list nat) ff ff' :
  (forall p ff, body p ff = v ← g p.1; Ok (<[p.2 := v]> ff)) ->
  NoDup idxs ->
  for_each (enumerate idxs) body ff = Ok ff' ->
  forall j idx, idxs !! j = Some idx -> exists v, g j = Ok v /\ ff' !! idx = Some v.
Proof. intros Hbody Hnd H. by apply (columns_written_from g body id idxs Hbody Hnd ff ff'). Qed.

Lemma assigns_only_keeps w body p ff ff' c :
  assigns_only w body -> body p ff = Ok ff' -> ff !! c = Some w -> ff' !! c = Some w.
Proof.
  intros Hbody H Hc. destruct (Hbody _ _ _ H) as [->| ->]; [done|].
  destruct (decide (p.2 = c)) as [->|]; [by rewrite lookup_insert_eq|].
  by rewrite lookup_insert_ne.
Qed.

Lemma columns_marked w (test : nat -> result bool)
    (body : nat * nat -> gmap nat value -> result (gmap nat value))
    (idxs : list nat) ff ff' j idx :
  (forall p ff, body p ff = b ← test p.1; if b : bool then Ok (<[p.2 := w]> ff) else Ok ff) ->
  for_each (enumerate idxs) body ff = Ok ff' ->
  idxs !! j = Some idx -> test j = Ok true -> ff' !! idx = Some w.
Proof.
  intros Hbody H Hj Ht.
  assert (Honly : assigns_only w body).
  { intros p a a' Hp. rewrite Hbody in Hp. apply bind_Ok in Hp as ([|] & _ & [= <-]); auto. }
  assert (Hin : (j, idx) ∈ enumerate idxs) by (by apply elem_of_enumerate).
  apply list_elem_of_split in Hin as (l1 & l2 & Hsplit). rewrite Hsplit in H.
  rewrite for_each_app in H. apply bind_Ok in H as (ff1 & _ & H).
  simpl in H. apply bind_Ok in H as (ff2 & Hstep & H).
  rewrite Hbody in Hstep. simpl in Hstep. rewrite Ht in Hstep. simpl in Hstep.
  inversion Hstep; subst ff2.
  apply (for_each_invariant (fun acc => acc !! idx = Some w)) in H; [done| |].
  - intros p acc acc' _ Hp Hacc. by eapply assigns_only_keeps.
  - by rewrite lookup_insert_eq.
Qed.

(** ** Collected results *)

Lemma collect_Ok {A B} (f : A -> result B) (xs : list A) (ys : list B) :
  collect f xs = Ok ys <-> Forall2 (fun x y => f x = Ok y) xs ys.
Proof.
  revert ys. induction xs as [|x xs IH]; intros ys; simpl.
  - split; [intros [= <-]; constructor | by inversion 1].
  - rewrite bind_Ok. split.
    + intros (y & Hy & H). apply bind_Ok in H as (ys' & Hys & [= <-]).
      constructor; [done | by apply IH].
    + inversion 1 as [|? y ? ys' Hy Hys]; subst. exists y. split; [done|].
      apply bind_Ok. exists ys'. split; [by apply IH | done].
Qed.

Lemma collect_total {A B} (f : A -> result B) (xs : list A) :
  (forall x, x ∈ xs -> is_Ok (f x)) -> exists ys, collect f xs = Ok ys.
Proof.
  induction xs as [|x xs IH]; intros H; simpl; [by eexists|].
  destruct (H x) as [y Hy]; [by left|]. rewrite Hy. simpl.
  destruct IH as [ys Hys]; [intros; apply H; by right|]. rewrite Hys. by eexists.
Qed.

(** ** The n-choose-k enumerator *)

Lemma pin_unused_step_Ok m f fv fv' :
  pin_unused_step m f fv = Ok fv' <->
  exists c, first_column m f = Some c /\ fv' = <[c := Float 0]> fv.
Proof.
  unfold pin_unused_step, first_column.
  destruct (m !! f) as [idxs|]; simpl; [|split; [done | by intros (? & ? & _)]].
  destruct (idxs !! 0%nat) as [c|]; simpl; [|split; [done | by intros (? & ? & _)]].
  split; [intros [= <-]; eauto | by intros (? & [= <-] & ->)].
Qed.

Lemma pin_unused_loop m unused acc d :
  for_each unused (pin_unused_step m) acc = Ok d ->
  (forall f c, f ∈ unused -> first_column m f = Some c -> d !! c = Some (Float 0)) /\
  (forall c, acc !! c = Some (Float 0) -> d !! c = Some (Float 0)) /\
  (forall c v, d !! c = Some v ->
     acc !! c = Some v \/ exists f, f ∈ unused /\ first_column m f = Some c).
Proof.
  revert acc. induction unused as [|f unused IH]; intros acc H; simpl in H.
  - inversion H; subst. repeat split; auto. intros f c Hf. by apply elem_of_nil in Hf.
  - apply bind_Ok in H as (acc1 & Hstep & H).
    apply pin_unused_step_Ok in Hstep as (c0 & Hc0 & ->).
    destruct (IH _ H) as (IH1 & IH2 & IH3). repeat split.
    + intros g c Hg Hc. apply elem_of_cons in Hg as [->|Hg]; [|eauto].
      apply IH2. rewrite Hc0 in Hc. inversion Hc; subst. apply lookup_insert_eq.
    + intros c Hc. apply IH2. destruct (decide (c0 = c)) as [->|];
        [apply lookup_insert_eq | by rewrite lookup_insert_ne].
    + intros c v Hc. destruct (IH3 _ _ Hc) as [Hin|(g & Hg & Hgc)].
      * destruct (decide (c0 = c)) as [->|Hne].
        -- right. exists f. split; [by left | done].
        -- left. by rewrite lookup_insert_ne in Hin.
      * right. exists g. split; [by right | done].
Qed.

Lemma pin_unused_total m unused acc :
  (forall f, f ∈ unused -> is_Some (first_column m f)) ->
  exists d, for_each unused (pin_unused_step m) acc = Ok d.
Proof.
  revert acc. induction unused as [|f unused IH]; intros acc H; simpl; [by eexists|].
  destruct (H f) as [c Hc]; [by left|].
  assert (Hstep : pin_unused_step m f acc = Ok (<[c := Float 0]> acc)).
  { apply pin_unused_step_Ok. eauto. }
  rewrite Hstep. simpl. apply IH. intros. apply H. by right.
Qed.

Lemma pin_unused_pins m unused d :
  pin_unused m unused = Ok d -> pins_unused m unused d.
Proof.
  intros H. apply pin_unused_loop in H as (H1 & _ & H3). split; [done|].
  intros c v Hc. destruct (H3 _ _ Hc) as [Hin|]; [|done]. by rewrite lookup_empty in Hin.
Qed.

(** The unused features of the enumerator belong to a constraint and are not
    among the used ones. *)
Lemma unused_features_spec d i u un :
  (domain_get_nchoosek_combinations d).1 !! i = Some u ->
  (domain_get_nchoosek_combinations d).2 !! i = Some un ->
  forall f, f ∈ un -> (f ∉ u) /\ (exists c, c ∈ nchoosek d /\ f ∈ features c).
Proof.
  unfold domain_get_nchoosek_combinations.
  destruct (nchoosek d) as [|c0 cs]; [done|].
  cbv zeta. cbn [fst snd]. generalize (c0 :: cs). clear c0 cs. intros cs.
  intros Hu Hun f Hf. rewrite list_lookup_fmap, Hu in Hun. cbn [fmap option_fmap option_map] in Hun.
  inversion Hun; subst un. apply list_elem_of_filter in Hf as [Hnot Hin].
  split; [done|]. rewrite elem_of_remove_dups in Hin.
  unfold flatten in Hin. apply list_elem_of_join in Hin as (l & Hfl & Hl).
  apply list_elem_of_fmap in Hl as (c & -> & Hc). eauto.
Qed.

Lemma nchoosek_lists_same_length d :
  length (domain_get_nchoosek_combinations d).2 = length (domain_get_nchoosek_combinations d).1.
Proof.
  unfold domain_get_nchoosek_combinations.
  destruct (nchoosek d); [done|]. cbv zeta. cbn [fst snd]. by rewrite length_fmap.
Qed.

(** When every feature of an n-choose-k constraint owns a column,
    [get_nchoosek_combinations] returns a list that is never empty; without a
    constraint it is the list of one empty dictionary; and the dictionary at
    the position of a generated subset pins the column of every unused
    feature to 0.0 and holds no column of a used feature. *)
Lemma get_nchoosek_combinations_spec (s : BotorchStrategy)
    (features2idx : gmap string (list nat)) :
  _features2idx s = Ok features2idx ->
  (forall c f, c ∈ nchoosek (domain s) -> f ∈ features c ->
     is_Some (first_column features2idx f)) ->
  exists fixed_values_list,
    get_nchoosek_combinations s = Ok fixed_values_list /\
    fixed_values_list <> [] /\
    (nchoosek (domain s) = [] -> fixed_values_list = [∅]) /\
    ((domain_get_nchoosek_combinations (domain s)).1 <> [] ->
       length fixed_values_list = length (domain_get_nchoosek_combinations (domain s)).1) /\
    (forall i used unused,
       (domain_get_nchoosek_combinations (domain s)).1 !! i = Some used ->
       (domain_get_nchoosek_combinations (domain s)).2 !! i = Some unused ->
       exists fixed_values,
         fixed_values_list !! i = Some fixed_values /\
         (forall f, f ∈ unused ->
            exists c, first_column features2idx f = Some c /\
                      fixed_values !! c = Some (Float 0)) /\
         (forall f idxs c, f ∈ used -> features2idx !! f = Some idxs -> c ∈ idxs ->
            fixed_values !! c = None)).
Proof.
  intros Hlayout Hcols. unfold get_nchoosek_combinations. rewrite Hlayout. simpl.
  set (used_features := (domain_get_nchoosek_combinations (domain s)).1).
  set (unused_features := (domain_get_nchoosek_combinations (domain s)).2).
  assert (Hlen : length unused_features = length used_features)
    by apply nchoosek_lists_same_length.
  destruct (collect_total (fun p => pin_unused features2idx p.2)
              (zip used_features unused_features)) as [cc Hcc].
  { intros [u un] Hp. apply list_elem_of_lookup in Hp as [i Hi].
    apply lookup_zip_Some in Hi as [Hu Hun].
    destruct (pin_unused_total features2idx un ∅) as [d Hd]; [|by exists d].
    intros f Hf. destruct (unused_features_spec _ _ _ _ Hu Hun f Hf) as (_ & c & Hc & Hfc).
    eauto. }
  rewrite Hcc. simpl. apply collect_Ok in Hcc.
  assert (Hcclen : length cc = length used_features).
  { apply Forall2_length in Hcc. rewrite <- Hcc, length_zip. lia. }
  assert (Hpairs : forall i used unused,
    used_features !! i = Some used -> unused_features !! i = Some unused ->
    exists fixed_values, cc !! i = Some fixed_values /\
      (forall f, f ∈ unused ->
         exists c, first_column features2idx f = Some c /\ fixed_values !! c = Some (Float 0)) /\
      (forall f idxs c, f ∈ used -> features2idx !! f = Some idxs -> c ∈ idxs ->
         fixed_values !! c = None)).
  { intros i u un Hu Hun.
    assert (Hz : zip used_features unused_features !! i = Some (u, un))
      by (by apply lookup_zip_Some).
    destruct (Forall2_lookup_l _ _ _ _ _ Hcc Hz) as (d & Hd & Hpin). simpl in Hpin.
    exists d. split; [done|]. apply pin_unused_pins in Hpin as [Hp1 Hp2]. split.
    - intros f Hf.
      destruct (unused_features_spec _ _ _ _ Hu Hun f Hf) as (_ & c & Hc & Hfc).
      destruct (Hcols _ _ Hc Hfc) as [col Hcol]. eauto.
    - intros f idxs c Hf Hidxs Hc.
      destruct (d !! c) as [v|] eqn:E; [|done]. exfalso.
      destruct (Hp2 _ _ E) as (g & Hg & Hgc).
      destruct (unused_features_spec _ _ _ _ Hu Hun g Hg) as (Hgu & _).
      unfold first_column in Hgc. destruct (features2idx !! g) as [gidxs|] eqn:Eg; [|done].
      simpl in Hgc. apply list_elem_of_lookup_2 in Hgc.
      assert (f <> g) by (intros ->; done).
      by eapply (transform_info_apart _ _ _ f g idxs gidxs c Hlayout). }
  destruct cc as [|d0 cc'] eqn:Ecc; simpl.
  - exists [∅]. split; [done|]. split; [done|]. split; [done|]. split.
    + intros Hne. destruct used_features; [done | simpl in Hcclen; lia].
    + intros i u un Hu Hun. destruct (Hpairs i u un Hu Hun) as (d & Hd & _). done.
  - exists (d0 :: cc'). split; [done|]. split; [done|]. split; [|split; [done|exact Hpairs]].
    intros Hnil. exfalso. subst used_features.
    unfold domain_get_nchoosek_combinations in Hcclen. rewrite Hnil in Hcclen. done.
Qed.

(** ** Features of a domain *)

Lemma get_by_key_Ok d k f :
  get_by_key d k = Ok f -> f ∈ inputs d /\ key f = k.
Proof.
  unfold get_by_key. destruct (list_find _ _) as [[i f']|] eqn:E; simpl; [|done].
  intros [= <-]. apply list_find_Some in E as (Hi & Hk & _).
  split; [by eapply list_elem_of_lookup_2 | done].
Qed.

Lemma unique_keys_inj d f g :
  unique_keys d -> f ∈ inputs d -> g ∈ inputs d -> key f = key g -> f = g.
Proof.
  unfold unique_keys. intros Hnd Hf Hg Hk.
  apply list_elem_of_lookup in Hf as [i Hi]. apply list_elem_of_lookup in Hg as [j Hj].
  assert (i = j).
  { eapply NoDup_lookup; [exact Hnd| |]; rewrite list_lookup_fmap.
    - by rewrite Hi.
    - rewrite Hj. simpl. by rewrite Hk. }
  subst. congruence.
Qed.

Lemma get_by_key_unique d f :
  unique_keys d -> f ∈ inputs d -> get_by_key d (key f) = Ok f.
Proof.
  intros Hnd Hf. unfold get_by_key.
  destruct (list_find (fun g => key g = key f) (inputs d)) as [[i g]|] eqn:E; simpl.
  - apply list_find_Some in E as (Hi & Hk & _).
    f_equal. eapply unique_keys_inj; eauto. by eapply list_elem_of_lookup_2.
  - apply list_find_None in E. rewrite Forall_forall in E. by destruct (E f Hf).
Qed.

Lemma elem_of_get_features d includes excludes f :
  f ∈ get_features d includes excludes ->
  f ∈ inputs d /\ existsb (isinstance f) includes = true /\
  from_option (fun c => isinstance f c) false excludes = false.
Proof. unfold get_features. rewrite list_elem_of_filter. tauto. Qed.

Lemma elem_of_get_keys d cls k :
  k ∈ get_keys d cls <-> exists f, f ∈ inputs d /\ isinstance f cls = true /\ key f = k.
Proof.
  unfold get_keys, get_features. rewrite list_elem_of_fmap. split.
  - intros (f & -> & Hf). apply list_elem_of_filter in Hf as [[Hi _] Hf].
    simpl in Hi. rewrite orb_false_r in Hi. eauto.
  - intros (f & Hf & Hi & <-). exists f. split; [done|].
    apply list_elem_of_filter. split; [|done]. simpl. by rewrite Hi.
Qed.

Lemma features_with_spec_sound d specs enc keys fs f :
  features_with_spec d specs enc keys = Ok fs -> f ∈ fs ->
  f ∈ inputs d /\ key f ∈ keys /\ specs !! key f = Some enc.
Proof.
  revert fs. induction keys as [|k ks IH]; intros fs H Hf; simpl in H.
  - inversion H; subst. by apply elem_of_nil in Hf.
  - apply bind_Ok in H as (e & He & H).
    destruct (specs !! k) as [e'|] eqn:Ek; simpl in He; [|done]. inversion He; subst e'.
    case_bool_decide as Henc.
    + apply bind_Ok in H as (g & Hg & H). apply bind_Ok in H as (fs' & Hfs & [= <-]).
      apply get_by_key_Ok in Hg as [Hgin Hgk].
      apply elem_of_cons in Hf as [->|Hf].
      * subst. split; [done|]. split; [by left | done].
      * destruct (IH _ Hfs Hf) as (? & ? & ?). split; [done|]. split; [by right | done].
    + destruct (IH _ H Hf) as (? & ? & ?). split; [done|]. split; [by right | done].
Qed.

Lemma features_with_spec_complete d specs enc keys fs f :
  unique_keys d ->
  features_with_spec d specs enc keys = Ok fs ->
  f ∈ inputs d -> key f ∈ keys -> specs !! key f = Some enc -> f ∈ fs.
Proof.
  intros Hnd. revert fs. induction keys as [|k ks IH]; intros fs H Hf Hk Hs; simpl in H.
  - by apply elem_of_nil in Hk.
  - apply bind_Ok in H as (e & He & H).
    destruct (specs !! k) as [e'|] eqn:Ek; simpl in He; [|done]. inversion He; subst e'.
    apply elem_of_cons in Hk as [Hk|Hk].
    + subst k. rewrite Hs in Ek. inversion Ek; subst e.
      rewrite bool_decide_eq_true_2 in H by done.
      rewrite (get_by_key_unique d f Hnd Hf) in H. simpl in H.
      apply bind_Ok in H as (fs' & _ & [= <-]). by left.
    + case_bool_decide.
      * apply bind_Ok in H as (g & _ & H). apply bind_Ok in H as (fs' & Hfs & [= <-]).
        right. by eapply IH.
      * by eapply IH.
Qed.

Lemma spec_values_elem s k enc :
  input_preprocessing_specs s !! k = Some enc -> enc ∈ spec_values s.
Proof.
  intros H. unfold spec_values. apply list_elem_of_fmap. exists (k, enc).
  split; [done|]. by apply elem_of_map_to_list.
Qed.

(** ** Fixed values *)

Lemma fixed_value_is_fixed f t vals :
  fixed_value f t = Ok (Some vals) -> is_fixed f = true.
Proof.
  destruct f; simpl; try (destruct t; try done; by destruct (Qeq_bool _ _));
    try (destruct t; done); by destruct (bool_decide _).
Qed.

Lemma fixed_value_fixed_Some f t o :
  is_fixed f = true -> fixed_value f t = Ok o -> exists vals, o = Some vals.
Proof.
  intros Hfix. destruct f; simpl in *; try discriminate.
  - destruct t; [done|]. rewrite Hfix. intros [= <-]. eauto.
  - rewrite Hfix. destruct (head _); simpl; [|done].
    destruct t as [[]|]; simpl; try (intros [= <-]; eauto); try done.
    + intros H. apply fmap_Ok in H as (? & _ & ->). eauto.
  - rewrite Hfix. destruct (head _); simpl; [|done].
    destruct t as [[]|]; simpl; try (intros [= <-]; eauto); try done.
    + intros H. apply fmap_Ok in H as (? & _ & ->). eauto.
    + intros H. apply fmap_Ok in H as (? & _ & ->). eauto.
  - rewrite Hfix. destruct (head _); simpl; [|done].
    destruct t as [[]|]; simpl; try (intros [= <-]; eauto); try done.
    + intros H. apply fmap_Ok in H as (? & _ & ->). eauto.
Qed.

(** ** Frames of the three loops of [get_fixed_features] *)

Lemma pin_fixed_value_frame s m feat ff ff' c :
  pin_fixed_value s m feat ff = Ok ff' -> off_key m (key feat) c -> ff' !! c = ff !! c.
Proof.
  unfold pin_fixed_value. intros H Hc.
  apply bind_Ok in H as ([fv|] & _ & H); [|by inversion H].
  apply bind_Ok in H as (fixed_values & _ & H).
  apply bind_Ok in H as (idxs & Hidxs & H).
  destruct (m !! key feat) as [idxs'|] eqn:E; simpl in Hidxs; [|done].
  inversion Hidxs; subst idxs'.
  eapply columns_frame; [|exact H|by apply Hc].
  intros p a a' Hp. apply bind_Ok in Hp as (v & _ & [= <-]). eauto.
Qed.

Lemma forbidden_step_assigns_only (transformed : list value) :
  assigns_only (Float 0)
    (fun p ff =>
       t ← or_raise IndexError (transformed !! p.1);
       if value_eqb t (Float 1) then Ok (<[p.2 := Float 0]> ff) else Ok ff).
Proof.
  intros p a a' Hp. apply bind_Ok in Hp as (t & _ & Hp).
  destruct (value_eqb t (Float 1)); inversion Hp; auto.
Qed.

Lemma assigns_only_column w body : assigns_only w body -> assigns_column body.
Proof. intros H p a a' Hp. destruct (H _ _ _ Hp); eauto. Qed.

Lemma pin_forbidden_frame m feat ff ff' c :
  pin_forbidden m feat ff = Ok ff' ->
  (is_fixed feat = false -> off_key m (key feat) c) -> ff' !! c = ff !! c.
Proof.
  unfold pin_forbidden. intros H Hc.
  destruct (isinstance feat cls_CategoricalInput); [|done].
  destruct (is_fixed feat); [by inversion H|]. specialize (Hc eq_refl).
  apply (for_each_invariant (fun acc => acc !! c = ff !! c)) in H; [done| |done].
  intros cat acc acc' _ Hstep Hacc.
  apply bind_Ok in Hstep as (idxs & Hidxs & Hstep).
  destruct (m !! key feat) as [idxs'|] eqn:E; simpl in Hidxs; [|done].
  inversion Hidxs; subst idxs'. rewrite <- Hacc.
  eapply columns_frame; [|exact Hstep|by apply Hc].
  apply (assigns_only_column (Float 0)), forbidden_step_assigns_only.
Qed.

Lemma pin_forbidden_keeps_zero m feat ff ff' c :
  pin_forbidden m feat ff = Ok ff' -> ff !! c = Some (Float 0) -> ff' !! c = Some (Float 0).
Proof.
  unfold pin_forbidden. intros H Hc.
  destruct (isinstance feat cls_CategoricalInput); [|done].
  destruct (is_fixed feat); [by inversion H; subst|].
  apply (for_each_invariant (fun acc => acc !! c = Some (Float 0))) in H; [done| |done].
  intros cat acc acc' _ Hstep Hacc.
  apply bind_Ok in Hstep as (idxs & _ & Hstep).
  apply (for_each_invariant (fun acc => acc !! c = Some (Float 0))) in Hstep; [done| |done].
  intros p a a' _ Hp Ha.
  exact (assigns_only_keeps (Float 0) _ p a a' c (forbidden_step_assigns_only _) Hp Ha).
Qed.

Lemma pin_constant_descriptor_frame m feat ff ff' c :
  pin_constant_descriptor m feat ff = Ok ff' ->
  (is_fixed feat = false -> off_key m (key feat) c) -> ff' !! c = ff !! c.
Proof.
  unfold pin_constant_descriptor. intros H Hc.
  destruct (isinstance feat cls_CategoricalDescriptorInput); [|done].
  destruct (is_fixed feat); [by inversion H|]. specialize (Hc eq_refl).
  apply bind_Ok in H as (idxs & Hidxs & H).
  destruct (m !! key feat) as [idxs'|] eqn:E; simpl in Hidxs; [|done].
  inversion Hidxs; subst idxs'.
  eapply columns_frame; [|exact H|by apply Hc].
  intros p a a' Hp. apply bind_Ok in Hp as (l & _ & Hp). apply bind_Ok in Hp as (u & _ & Hp).
  destruct (Qeq_bool l u); inversion Hp; eauto.
Qed.

(** A loop over features that keeps off the column [c] leaves it as it is. *)
Lemma features_frame (body : Input -> gmap nat value -> result (gmap nat value))
    (feats : list Input) ff ff' c (keeps_off : Input -> Prop) :
  (forall f acc acc', body f acc = Ok acc' -> keeps_off f -> acc' !! c = acc !! c) ->
  (forall f, f ∈ feats -> keeps_off f) ->
  for_each feats body ff = Ok ff' -> ff' !! c = ff !! c.
Proof.
  intros Hbody Hoff H.
  apply (for_each_invariant (fun acc => acc !! c = ff !! c)) in H; [done| |done].
  intros f acc acc' Hf Hstep Hacc. rewrite <- Hacc. eauto.
Qed.

(** The columns of two features with different keys are apart. *)
Lemma off_other_key s m k1 k2 idxs idx :
  _features2idx s = Ok m -> k1 <> k2 -> m !! k1 = Some idxs -> idx ∈ idxs -> off_key m k2 idx.
Proof.
  intros Hm Hne H1 Hidx idxs2 H2.
  by eapply (transform_info_apart _ _ _ k1 k2 idxs idxs2 idx Hm).
Qed.

(** ** What the first loop writes *)

Lemma pin_fixed_value_writes s m feat ff ff' idxs x :
  fixed_value feat None = Ok (Some x) ->
  m !! key feat = Some idxs -> NoDup idxs ->
  pin_fixed_value s m feat ff = Ok ff' ->
  exists vals,
    fixed_value feat (input_preprocessing_specs s !! key feat) = Ok (Some vals) /\
    forall j idx, idxs !! j = Some idx -> exists v, vals !! j = Some v /\ ff' !! idx = Some v.
Proof.
  intros Hfv Hidxs Hnd H. unfold pin_fixed_value in H. rewrite Hfv in H. simpl in H.
  apply bind_Ok in H as (fixed_values & Hvals & H).
  rewrite Hidxs in H. simpl in H.
  destruct (fixed_value_fixed_Some _ _ _ (fixed_value_is_fixed _ _ _ Hfv) Hvals) as [vals ->].
  exists vals. split; [done|]. intros j idx Hj.
  destruct (columns_written (subscript (Some vals)) _ idxs ff ff' (fun _ _ => eq_refl) Hnd H j idx Hj)
    as (v & Hv & Hff).
  exists v. split; [|done]. simpl in Hv. by destruct (vals !! j); inversion Hv.
Qed.

Lemma unique_keys_split d l1 f l2 g :
  unique_keys d -> inputs d = l1 ++ f :: l2 -> g ∈ l1 ++ l2 -> key g <> key f.
Proof.
  unfold unique_keys. intros Hnd Hsplit Hg Hk. rewrite Hsplit in Hnd.
  rewrite fmap_app, fmap_cons in Hnd.
  apply NoDup_app in Hnd as (_ & H12 & Hnd2). apply NoDup_cons in Hnd2 as [Hf2 _].
  apply elem_of_app in Hg as [Hg|Hg].
  - apply (H12 (key g)); [by apply list_elem_of_fmap_2|]. rewrite Hk. by left.
  - apply Hf2. rewrite <- Hk. by apply list_elem_of_fmap_2.
Qed.

Lemma first_loop_pins s m ff1 feat idxs x :
  unique_keys (domain s) ->
  _features2idx s = Ok m ->
  for_each (inputs (domain s)) (pin_fixed_value s m) ∅ = Ok ff1 ->
  feat ∈ inputs (domain s) ->
  fixed_value feat None = Ok (Some x) ->
  m !! key feat = Some idxs ->
  exists vals,
    fixed_value feat (input_preprocessing_specs s !! key feat) = Ok (Some vals) /\
    forall j idx, idxs !! j = Some idx -> exists v, vals !! j = Some v /\ ff1 !! idx = Some v.
Proof.
  intros Hnd Hm H Hfeat Hfv Hidxs.
  destruct (list_elem_of_split _ _ Hfeat) as (l1 & l2 & Hsplit).
  rewrite Hsplit, for_each_app in H. apply bind_Ok in H as (ffa & _ & H).
  simpl in H. apply bind_Ok in H as (ffb & Hstep & H).
  assert (Hnd' : NoDup idxs) by (by eapply transform_info_NoDup).
  destruct (pin_fixed_value_writes _ _ _ _ _ _ _ Hfv Hidxs Hnd' Hstep) as (vals & Hvals & Hw).
  exists vals. split; [done|]. intros j idx Hj.
  destruct (Hw j idx Hj) as (v & Hv & Hb). exists v. split; [done|].
  rewrite <- Hb.
  eapply (features_frame (pin_fixed_value s m) l2 ffb ff1 idx (fun g => key g <> key feat));
    [| |exact H].
  - intros g acc acc' Hg Hne. eapply pin_fixed_value_frame; [exact Hg|].
    eapply off_other_key; eauto. by eapply list_elem_of_lookup_2.
  - intros g Hg. eapply unique_keys_split; eauto. apply elem_of_app; by right.
Qed.

Lemma is_fixed_fixed_value f :
  is_fixed f = true -> exists x, fixed_value f None = Ok (Some x).
Proof.
  intros Hfix. destruct f; simpl in *; try discriminate.
  - rewrite Hfix. eauto.
  - rewrite Hfix. apply bool_decide_eq_true in Hfix.
    destruct (get_allowed_categories _) as [|c l]; [done|]. simpl. eauto.
  - rewrite Hfix. apply bool_decide_eq_true in Hfix.
    destruct (get_allowed_categories _) as [|c l]; [done|]. simpl. eauto.
  - rewrite Hfix. apply bool_decide_eq_true in Hfix.
    destruct (get_allowed_categories _) as [|c l]; [done|]. simpl. eauto.
Qed.

(** The columns of a fixed feature are no columns of a feature that is not
    fixed. *)
Lemma fixed_columns_off s m feat idxs idx g :
  unique_keys (domain s) -> _features2idx s = Ok m ->
  feat ∈ inputs (domain s) -> is_fixed feat = true ->
  m !! key feat = Some idxs -> idx ∈ idxs ->
  g ∈ inputs (domain s) -> is_fixed g = false -> off_key m (key g) idx.
Proof.
  intros Hnd Hm Hfeat Hfix Hidxs Hidx Hg Hgfix.
  eapply off_other_key; eauto. intros Hk.
  assert (feat = g) by (eapply unique_keys_inj; eauto). congruence.
Qed.

Lemma second_loop_frame s m feats enc keys ff ff' feat idxs idx :
  unique_keys (domain s) -> _features2idx s = Ok m ->
  features_with_spec (domain s) (input_preprocessing_specs s) enc keys = Ok feats ->
  feat ∈ inputs (domain s) -> is_fixed feat = true ->
  m !! key feat = Some idxs -> idx ∈ idxs ->
  for_each feats (pin_forbidden m) ff = Ok ff' -> ff' !! idx = ff !! idx.
Proof.
  intros Hnd Hm Hfeats Hfeat Hfix Hidxs Hidx H.
  apply (features_frame (pin_forbidden m) feats ff ff' idx
           (fun g => is_fixed g = false -> off_key m (key g) idx)); [| |exact H].
  - intros g acc acc' Hg Hoff. by eapply pin_forbidden_frame.
  - intros g Hg Hgfix. destruct (features_with_spec_sound _ _ _ _ _ _ Hfeats Hg) as (Hgin & _).
    exact (fixed_columns_off s m feat idxs idx g Hnd Hm Hfeat Hfix Hidxs Hidx Hgin Hgfix).
Qed.

Lemma third_loop_frame m feats ff ff' idx :
  for_each feats (pin_constant_descriptor m) ff = Ok ff' ->
  (forall g, g ∈ feats -> is_fixed g = false -> off_key m (key g) idx) ->
  ff' !! idx = ff !! idx.
Proof.
  intros H Hoff.
  apply (features_frame (pin_constant_descriptor m) feats ff ff' idx
           (fun g => is_fixed g = false -> off_key m (key g) idx)); [|done|done].
  intros g acc acc' Hg Hg'. by eapply pin_constant_descriptor_frame.
Qed.

(** The parts of [get_fixed_features]. *)
Lemma get_fixed_features_parts s m ff :
  _features2idx s = Ok m ->
  get_fixed_features s = Ok ff ->
  exists ff1 ff2,
    for_each (inputs (domain s)) (pin_fixed_value s m) ∅ = Ok ff1 /\
    (if bool_decide (categorical_method s = FREE) && bool_decide (ONE_HOT ∈ spec_values s)
     then exists feats,
        features_with_spec (domain s) (input_preprocessing_specs s) ONE_HOT
          (get_keys (domain s) cls_CategoricalInput) = Ok feats /\
        for_each feats (pin_forbidden m) ff1 = Ok ff2
     else ff2 = ff1) /\
    (if bool_decide (descriptor_method s = FREE) && bool_decide (DESCRIPTOR ∈ spec_values s)
     then exists feats,
        features_with_spec (domain s) (input_preprocessing_specs s) DESCRIPTOR
          (get_keys (domain s) cls_CategoricalDescriptorInput) = Ok feats /\
        for_each feats (pin_constant_descriptor m) ff2 = Ok ff
     else ff = ff2).
Proof.
  intros Hm H. unfold get_fixed_features in H. rewrite Hm in H. simpl in H.
  rewrite get_features_Input in H.
  apply bind_Ok in H as (ff1 & H1 & H). apply bind_Ok in H as (ff2 & H2 & H).
  apply bind_Ok in H as (ff3 & H3 & [= <-]).
  exists ff1, ff2. split; [done|]. split.
  - destruct (bool_decide (categorical_method s = FREE) && bool_decide (ONE_HOT ∈ spec_values s)); [|inversion H2; subst; reflexivity].
    apply bind_Ok in H2 as (feats & ? & ?). eauto.
  - destruct (bool_decide (descriptor_method s = FREE) && bool_decide (DESCRIPTOR ∈ spec_values s)); [|inversion H3; subst; reflexivity].
    apply bind_Ok in H3 as (feats & ? & ?). eauto.
Qed.

Lemma onehot_lookup f val j cat :
  categories f !! j = Some cat ->
  to_onehot_encoding f val !! j = Some (if value_eqb (Str cat) val then Float 1 else Float 0).
Proof. intros H. unfold to_onehot_encoding. by rewrite list_lookup_fmap, H. Qed.

Lemma onehot_lookup_inv f val j v :
  to_onehot_encoding f val !! j = Some v ->
  exists cat, categories f !! j = Some cat /\
    v = if value_eqb (Str cat) val then Float 1 else Float 0.
Proof.
  unfold to_onehot_encoding. rewrite list_lookup_fmap.
  destruct (categories f !! j) as [cat|]; simpl; [|done]. intros [= <-]. eauto.
Qed.

(** What the second loop writes. *)
Lemma second_loop_pins s m feats ff ff' feat idxs j idx cat :
  unique_keys (domain s) ->
  features_with_spec (domain s) (input_preprocessing_specs s) ONE_HOT
    (get_keys (domain s) cls_CategoricalInput) = Ok feats ->
  for_each feats (pin_forbidden m) ff = Ok ff' ->
  feat ∈ inputs (domain s) -> isinstance feat cls_CategoricalInput = true ->
  input_preprocessing_specs s !! key feat = Some ONE_HOT ->
  is_fixed feat = false ->
  m !! key feat = Some idxs -> idxs !! j = Some idx ->
  categories feat !! j = Some cat -> cat ∈ get_forbidden_categories feat ->
  ff' !! idx = Some (Float 0).
Proof.
  intros Hnd Hfeats H Hfeat Hcat Hspec Hfix Hidxs Hj Hcj Hforb.
  assert (Hin : feat ∈ feats).
  { eapply features_with_spec_complete; eauto. apply elem_of_get_keys. eauto. }
  apply list_elem_of_split in Hin as (l1 & l2 & ->).
  rewrite for_each_app in H. apply bind_Ok in H as (ffa & _ & H).
  simpl in H. apply bind_Ok in H as (ffb & Hstep & H).
  assert (Hb : ffb !! idx = Some (Float 0)).
  { unfold pin_forbidden in Hstep. rewrite Hcat, Hfix in Hstep.
    apply list_elem_of_split in Hforb as (c1 & c2 & Hsplit). rewrite Hsplit in Hstep.
    rewrite for_each_app in Hstep. apply bind_Ok in Hstep as (ffc & _ & Hstep).
    simpl in Hstep. apply bind_Ok in Hstep as (ffd & Hinner & Hstep).
    rewrite Hidxs in Hinner. simpl in Hinner.
    assert (Hd : ffd !! idx = Some (Float 0)).
    { eapply (columns_marked (Float 0)
               (fun j => t ← or_raise IndexError (to_onehot_encoding feat (Str cat) !! j);
                         Ok (value_eqb t (Float 1)))); [|exact Hinner|exact Hj|].
      - intros p a. cbv beta.
        destruct (to_onehot_encoding feat (Str cat) !! p.1); simpl; [|reflexivity].
        by destruct (value_eqb _ _).
      - rewrite (onehot_lookup feat (Str cat) j cat Hcj). simpl.
        by rewrite bool_decide_eq_true_2. }
    apply (for_each_invariant (fun acc => acc !! idx = Some (Float 0))) in Hstep; [done| |done].
    intros c acc acc' _ Hc Hacc. apply bind_Ok in Hc as (idxs' & _ & Hc).
    apply (for_each_invariant (fun acc => acc !! idx = Some (Float 0))) in Hc; [done| |done].
    intros p a a' _ Hp Ha.
    exact (assigns_only_keeps (Float 0) _ p a a' idx (forbidden_step_assigns_only _) Hp Ha). }
  apply (for_each_invariant (fun acc => acc !! idx = Some (Float 0))) in H; [done| |done].
  intros g acc acc' _ Hg Hacc. by eapply pin_forbidden_keeps_zero.
Qed.

(** A dictionary returned by [get_fixed_features] pins every column of every
    fixed feature to its encoded value: a continuous feature with
    [lower == upper] gets [lower], a one-hot encoded categorical with exactly
    one allowed category gets 1 at the column of that category and 0 at the
    others; and when [categorical_method] is FREE, every one-hot column of a
    forbidden category of a categorical feature that is not fixed is pinned
    to 0. *)
Lemma get_fixed_features_spec (s : BotorchStrategy)
    (features2idx : gmap string (list nat)) (fixed_features : gmap nat value) :
  unique_keys (domain s) ->
  _features2idx s = Ok features2idx ->
  get_fixed_features s = Ok fixed_features ->
  (forall feat idxs,
     feat ∈ inputs (domain s) -> is_fixed feat = true ->
     features2idx !! key feat = Some idxs ->
     exists fixed_values,
       fixed_value feat (input_preprocessing_specs s !! key feat) = Ok (Some fixed_values) /\
       forall j idx, idxs !! j = Some idx ->
         exists v, fixed_values !! j = Some v /\ fixed_features !! idx = Some v) /\
  (forall k lower upper idxs idx,
     ContinuousInput k lower upper ∈ inputs (domain s) -> Qeq_bool lower upper = true ->
     features2idx !! k = Some idxs -> idx ∈ idxs ->
     fixed_features !! idx = Some (Float lower)) /\
  (forall feat c idxs j idx cat,
     feat ∈ inputs (domain s) -> isinstance feat cls_CategoricalInput = true ->
     get_allowed_categories feat = [c] ->
     input_preprocessing_specs s !! key feat = Some ONE_HOT ->
     features2idx !! key feat = Some idxs ->
     idxs !! j = Some idx -> categories feat !! j = Some cat ->
     fixed_features !! idx = Some (if bool_decide (cat = c) then Float 1 else Float 0)) /\
  (categorical_method s = FREE ->
   forall feat idxs j idx cat,
     feat ∈ inputs (domain s) -> isinstance feat cls_CategoricalInput = true ->
     input_preprocessing_specs s !! key feat = Some ONE_HOT ->
     is_fixed feat = false ->
     features2idx !! key feat = Some idxs ->
     idxs !! j = Some idx -> categories feat !! j = Some cat ->
     cat ∈ get_forbidden_categories feat ->
     fixed_features !! idx = Some (Float 0)).
Proof.
  intros Hnd Hm Hff.
  destruct (get_fixed_features_parts s features2idx fixed_features Hm Hff)
    as (ff1 & ff2 & H1 & H2 & H3).
  assert (Hfixed : forall feat idxs,
     feat ∈ inputs (domain s) -> is_fixed feat = true ->
     features2idx !! key feat = Some idxs ->
     exists fixed_values,
       fixed_value feat (input_preprocessing_specs s !! key feat) = Ok (Some fixed_values) /\
       forall j idx, idxs !! j = Some idx ->
         exists v, fixed_values !! j = Some v /\ fixed_features !! idx = Some v).
  { intros feat idxs Hfeat Hfix Hidxs.
    destruct (is_fixed_fixed_value feat Hfix) as [x Hx].
    destruct (first_loop_pins s features2idx ff1 feat idxs x Hnd Hm H1 Hfeat Hx Hidxs)
      as (vals & Hvals & Hw).
    exists vals. split; [done|]. intros j idx Hj.
    destruct (Hw j idx Hj) as (v & Hv & Hff1). exists v. split; [done|].
    assert (Hidx : idx ∈ idxs) by (by eapply list_elem_of_lookup_2).
    assert (H12 : ff2 !! idx = ff1 !! idx).
    { destruct (bool_decide (categorical_method s = FREE) && bool_decide (ONE_HOT ∈ spec_values s)); [|by subst].
      destruct H2 as (feats & Hfeats & Hloop).
      by eapply (second_loop_frame s features2idx feats). }
    assert (H23 : fixed_features !! idx = ff2 !! idx).
    { destruct (bool_decide (descriptor_method s = FREE) && bool_decide (DESCRIPTOR ∈ spec_values s)); [|by subst].
      destruct H3 as (feats & Hfeats & Hloop).
      apply (third_loop_frame features2idx feats ff2 fixed_features idx Hloop).
      intros g Hg Hgfix.
      destruct (features_with_spec_sound _ _ _ _ _ _ Hfeats Hg) as (Hgin & _).
      exact (fixed_columns_off s features2idx feat idxs idx g Hnd Hm Hfeat Hfix Hidxs Hidx
               Hgin Hgfix). }
    by rewrite H23, H12. }
  split; [exact Hfixed|]. split; [|split].
  - intros k lower upper idxs idx Hfeat Heq Hidxs Hidx.
    destruct (Hfixed _ idxs Hfeat Heq Hidxs) as (vals & Hvals & Hw).
    apply list_elem_of_lookup in Hidx as [j Hj].
    destruct (Hw j idx Hj) as (v & Hv & Hffv). rewrite Hffv. f_equal.
    simpl in Hvals. destruct (input_preprocessing_specs s !! k); [done|].
    rewrite Heq in Hvals. inversion Hvals; subst vals.
    destruct j; simpl in Hv; [by inversion Hv | done].
  - intros feat c idxs j idx cat Hfeat Hcat Hallowed Hspec Hidxs Hj Hcj.
    assert (Hfix : is_fixed feat = true).
    { destruct feat; simpl in Hcat; try discriminate; simpl;
        apply bool_decide_eq_true; by rewrite Hallowed. }
    destruct (Hfixed _ idxs Hfeat Hfix Hidxs) as (vals & Hvals & Hw).
    destruct (Hw j idx Hj) as (v & Hv & Hffv). rewrite Hffv. f_equal.
    assert (Hvals' : vals = to_onehot_encoding feat (Str c)).
    { rewrite Hspec in Hvals.
      destruct feat; simpl in Hcat; try discriminate; simpl in Hvals, Hfix;
        rewrite Hfix, Hallowed in Hvals; simpl in Hvals; by inversion Hvals. }
    subst vals. rewrite (onehot_lookup feat (Str c) j cat Hcj) in Hv.
    inversion Hv. simpl. by destruct (bool_decide (cat = c)).
  - intros Hfree feat idxs j idx cat Hfeat Hcat Hspec Hfix Hidxs Hj Hcj Hforb.
    rewrite (bool_decide_eq_true_2 _ Hfree) in H2.
    rewrite (bool_decide_eq_true_2 _ (spec_values_elem s _ _ Hspec)) in H2. simpl in H2.
    destruct H2 as (feats & Hfeats & Hloop).
    assert (H2' : ff2 !! idx = Some (Float 0)).
    { by eapply (second_loop_pins s features2idx feats ff1 ff2 feat idxs j idx cat). }
    rewrite <- H2'.
    destruct (bool_decide (descriptor_method s = FREE) && bool_decide (DESCRIPTOR ∈ spec_values s)); [|by subst].
    destruct H3 as (feats3 & Hfeats3 & Hloop3).
    apply (third_loop_frame features2idx feats3 ff2 fixed_features idx Hloop3).
    intros g Hg _.
    destruct (features_with_spec_sound _ _ _ _ _ _ Hfeats3 Hg) as (_ & _ & Hgspec).
    eapply (off_other_key s features2idx (key feat) (key g) idxs idx Hm); [|done|].
    + intros Hk. rewrite Hk in Hspec. congruence.
    + by eapply list_elem_of_lookup_2.
Qed.

(** ** Cross products *)

Lemma elem_of_product {A} (ls : list (list A)) (xs : list A) :
  xs ∈ product ls <-> Forall2 (fun x l => x ∈ l) xs ls.
Proof.
  revert xs. induction ls as [|l ls IH]; intros xs; simpl.
  - rewrite list_elem_of_singleton. split; [intros ->; constructor | by inversion 1].
  - rewrite list_elem_of_bind. split.
    + intros (x & Hxs & Hx). apply list_elem_of_fmap in Hxs as (ys & -> & Hys).
      constructor; [done | by apply IH].
    + inversion 1 as [|x ? ys ? Hx Hys]; subst. exists x. split; [|done].
      apply list_elem_of_fmap. exists ys. split; [done | by apply IH].
Qed.

Lemma length_product {A} (l : list A) (ls : list (list A)) :
  length (product (l :: ls)) = (length l * length (product ls))%nat.
Proof.
  simpl. induction l as [|x l IH]; [done|].
  rewrite bind_cons, length_app, length_fmap, IH. simpl. lia.
Qed.


(** ** The features the strategy enumerates *)

Lemma enumerated_combos_product s :
  enumerated_combos s = product (choices <$> enumerated_features s).
Proof.
  unfold enumerated_combos, inputs_get_categorical_combinations, enumerated_features.
  f_equal. rewrite fmap_app. f_equal.
  - apply list_fmap_ext. intros i f Hf. apply list_elem_of_lookup_2 in Hf.
    unfold enumerated_categoricals in Hf. apply list_elem_of_filter in Hf as [[Hc _] _].
    unfold choices. by rewrite Hc.
  - apply list_fmap_ext. intros i f Hf. apply list_elem_of_lookup_2 in Hf.
    unfold enumerated_discretes in Hf. apply list_elem_of_filter in Hf as [[Hd _] _].
    unfold choices. by destruct f.
Qed.

Lemma choices_key f p : p ∈ choices f -> p.1 = key f.
Proof.
  unfold choices, categorical_choices, discrete_choices.
  destruct (isinstance f cls_CategoricalInput).
  - intros H. by apply list_elem_of_fmap in H as (c & -> & _).
  - destruct f; try (intros H; by apply elem_of_nil in H).
    intros H. by apply list_elem_of_fmap in H as (v & -> & _).
Qed.

Lemma combo_keys s combo :
  combo ∈ enumerated_combos s -> combo.*1 = key <$> enumerated_features s.
Proof.
  rewrite enumerated_combos_product, elem_of_product.
  generalize (enumerated_features s). intros fs H.
  remember (choices <$> fs) as ls eqn:E. revert fs E.
  induction H as [|p l combo ls Hp H IH]; intros fs E.
  - by destruct fs.
  - destruct fs as [|f fs]; [done|]. inversion E; subst. simpl.
    f_equal; [by apply choices_key | by apply IH].
Qed.

Lemma enumerated_features_inputs s f :
  f ∈ enumerated_features s -> f ∈ inputs (domain s).
Proof.
  unfold enumerated_features, enumerated_categoricals, enumerated_discretes.
  rewrite elem_of_app, !list_elem_of_filter.
  intros [[_ H]|[_ H]]; by apply elem_of_get_features in H as [? _].
Qed.

Lemma unique_keys_NoDup_inputs d : unique_keys d -> NoDup (inputs d).
Proof. unfold unique_keys. apply NoDup_fmap_1. Qed.

Lemma enumerated_features_NoDup s :
  unique_keys (domain s) -> NoDup (key <$> enumerated_features s).
Proof.
  intros Hnd.
  apply NoDup_fmap_2_strong.
  - intros f g Hf Hg. apply (unique_keys_inj (domain s)); auto using enumerated_features_inputs.
  - unfold enumerated_features. apply NoDup_app. split; [|split].
    + apply NoDup_filter, NoDup_filter. by apply unique_keys_NoDup_inputs.
    + intros f Hf Hg. unfold enumerated_categoricals, enumerated_discretes in *.
      apply list_elem_of_filter in Hf as [[Hc _] _].
      apply list_elem_of_filter in Hg as [[Hd _] _]. by destruct f.
    + apply NoDup_filter, NoDup_filter. by apply unique_keys_NoDup_inputs.
Qed.

Lemma combo_keys_NoDup s combo :
  unique_keys (domain s) -> combo ∈ enumerated_combos s -> NoDup combo.*1.
Proof. intros Hnd H. rewrite (combo_keys s combo H). by apply enumerated_features_NoDup. Qed.


(** ** The classes handed to the enumerator *)




(** ** The inner loop of [get_categorical_combinations] *)

Lemma pin_descriptor_choice_frame m feat feature val ff ff' c :
  pin_descriptor_choice m feat feature val ff = Ok ff' -> off_key m feat c ->
  ff' !! c = ff !! c.
Proof.
  unfold pin_descriptor_choice. intros H Hc.
  apply bind_Ok in H as (index & _ & H). apply bind_Ok in H as (idxs & Hidxs & H).
  destruct (m !! feat) as [idxs'|] eqn:E; simpl in Hidxs; [|done]. inversion Hidxs; subst idxs'.
  eapply columns_frame; [|exact H|by apply Hc].
  intros p a a' Hp. apply bind_Ok in Hp as (row & _ & Hp).
  apply bind_Ok in Hp as (v & _ & [= <-]). eauto.
Qed.

Lemma pin_onehot_choice_frame m feat feature val ff ff' c :
  pin_onehot_choice m feat feature val ff = Ok ff' -> off_key m feat c ->
  ff' !! c = ff !! c.
Proof.
  unfold pin_onehot_choice. intros H Hc.
  apply bind_Ok in H as (idxs & Hidxs & H).
  destruct (m !! feat) as [idxs'|] eqn:E; simpl in Hidxs; [|done]. inversion Hidxs; subst idxs'.
  eapply columns_frame; [|exact H|by apply Hc].
  intros p a a' Hp. apply bind_Ok in Hp as (t & _ & [= <-]). eauto.
Qed.

Lemma pin_discrete_choice_frame m feat val ff ff' c :
  pin_discrete_choice m feat val ff = Ok ff' -> off_key m feat c ->
  ff' !! c = ff !! c.
Proof.
  unfold pin_discrete_choice. intros H Hc.
  apply bind_Ok in H as (idxs & Hidxs & H).
  destruct (m !! feat) as [idxs'|] eqn:E; simpl in Hidxs; [|done]. inversion Hidxs; subst idxs'.
  apply bind_Ok in H as (idx & Hidx & [= <-]).
  destruct (idxs !! 0%nat) as [idx'|] eqn:E0; simpl in Hidx; [|done]. inversion Hidx; subst idx'.
  apply lookup_insert_ne. intros <-. apply (Hc idxs E). by eapply list_elem_of_lookup_2.
Qed.

Lemma overlay_pair_frame s m pair ff ff' c :
  overlay_pair s m pair ff = Ok ff' -> off_key m pair.1 c -> ff' !! c = ff !! c.
Proof.
  unfold overlay_pair. intros H Hc.
  apply bind_Ok in H as (feature & _ & H).
  destruct (isinstance feature cls_CategoricalDescriptorInput).
  - apply bind_Ok in H as (e & _ & H). case_bool_decide.
    + by eapply pin_descriptor_choice_frame.
    + by eapply pin_onehot_choice_frame.
  - destruct (isinstance feature cls_CategoricalInput);
      [by eapply pin_onehot_choice_frame|].
    destruct (isinstance feature cls_DiscreteInput);
      [by eapply pin_discrete_choice_frame | by inversion H].
Qed.





Lemma descriptor_is_categorical f :
  isinstance f cls_CategoricalDescriptorInput = true ->
  isinstance f cls_CategoricalInput = true.
Proof. by destruct f. Qed.



(** ** Loops that do not raise *)

Lemma for_each_total {A S} (Inv : S -> Prop) (xs : list A) (body : A -> S -> result S) :
  (forall x acc, x ∈ xs -> Inv acc -> exists acc', body x acc = Ok acc' /\ Inv acc') ->
  forall acc, Inv acc -> exists acc', for_each xs body acc = Ok acc' /\ Inv acc'.
Proof.
  induction xs as [|x xs IH]; intros Hbody acc Hacc; simpl; [by exists acc|].
  destruct (Hbody x acc) as (acc1 & -> & H1); [by left|done|]. simpl.
  apply IH; [|done]. intros. apply Hbody; [by right | done].
Qed.

Lemma for_each_returns {A S} (xs : list A) (body : A -> S -> result S) :
  (forall x acc, x ∈ xs -> is_Ok (body x acc)) ->
  forall acc, is_Ok (for_each xs body acc).
Proof.
  intros Hbody acc.
  destruct (for_each_total (fun _ => True) xs body) with (acc := acc) as (acc' & H & _);
    [|done|by exists acc'].
  intros x a Hx _. destruct (Hbody x a Hx) as [a' Ha]. eauto.
Qed.

Lemma enumerate_lt {A} (l : list A) p : p ∈ enumerate l -> (p.1 < length l)%nat.
Proof. rewrite elem_of_enumerate. apply lookup_lt_Some. Qed.

(** ** The layout of a well-formed strategy *)

Lemma valid_feature_column_count specs f :
  valid_feature specs f -> is_Ok (column_count f (specs !! key f)).
Proof.
  destruct f; simpl.
  - intros ->. by eexists.
  - intros ->. by eexists.
  - intros (_ & _ & [-> | [-> | ->]]); by eexists.
  - intros (_ & _ & [[] ->] & _); by eexists.
  - intros (_ & _ & [-> | [-> | ->]]); by eexists.
Qed.

Lemma allocate_Ok specs f acc n :
  column_count f (specs !! key f) = Ok n ->
  allocate specs f acc = Ok (<[key f := seq acc.2 n]> acc.1, (acc.2 + n)%nat).
Proof. intros H. unfold allocate. by rewrite H. Qed.

Lemma layout_loop specs feats acc :
  NoDup (key <$> feats) ->
  (forall f, f ∈ feats -> is_Ok (column_count f (specs !! key f))) ->
  exists acc',
    for_each feats (allocate specs) acc = Ok acc' /\
    (forall k, k ∉ key <$> feats -> acc'.1 !! k = acc.1 !! k) /\
    (forall f, f ∈ feats ->
       exists idxs, acc'.1 !! key f = Some idxs /\
                    column_count f (specs !! key f) = Ok (length idxs)).
Proof.
  revert acc. induction feats as [|f feats IH]; intros acc Hnd Hcols.
  - exists acc. split; [done|]. split; [done|]. intros f Hf. by apply elem_of_nil in Hf.
  - rewrite fmap_cons in Hnd. apply NoDup_cons in Hnd as [Hf Hnd].
    destruct (Hcols f) as [n Hn]; [by left|].
    simpl. rewrite (allocate_Ok _ _ _ _ Hn). simpl.
    destruct (IH (<[key f := seq acc.2 n]> acc.1, (acc.2 + n)%nat) Hnd) as (acc' & H & Hkeep & Hin).
    { intros g Hg. apply Hcols. by right. }
    exists acc'. split; [done|]. split.
    + intros k Hk. change (k ∉ key f :: (key <$> feats)) in Hk.
      apply not_elem_of_cons in Hk as [Hk1 Hk2].
      rewrite (Hkeep k Hk2). simpl. by rewrite lookup_insert_ne.
    + intros g Hg. apply elem_of_cons in Hg as [->|Hg]; [|by apply Hin].
      exists (seq acc.2 n). rewrite (Hkeep _ Hf). simpl.
      rewrite lookup_insert_eq, length_seq. done.
Qed.

Lemma well_formed_layout s :
  well_formed s ->
  exists m, _features2idx s = Ok m /\
    forall f, f ∈ inputs (domain s) ->
      exists idxs, m !! key f = Some idxs /\
        column_count f (input_preprocessing_specs s !! key f) = Ok (length idxs).
Proof.
  intros [Hkeys Hfeat _].
  destruct (layout_loop (input_preprocessing_specs s) (inputs (domain s)) (∅, 0%nat) Hkeys)
    as (acc' & H & _ & Hin).
  { intros f Hf. by apply valid_feature_column_count, Hfeat. }
  exists acc'.1. split; [|done]. unfold _features2idx, _get_transform_info. by rewrite H.
Qed.

(** ** Encoded values of a well-formed feature *)

Lemma index_of_Some l x : x ∈ l -> exists i, index_of l x = Some i /\ (i < length l)%nat.
Proof.
  induction l as [|y l IH]; intros Hx; [by apply elem_of_nil in Hx|]. simpl.
  case_bool_decide as Hy; [exists 0%nat; split; [done | lia]|].
  apply elem_of_cons in Hx as [->|Hx]; [done|].
  destruct (IH Hx) as (i & -> & Hi). exists (S i). split; [done | lia].
Qed.

Lemma allowed_categories_subset f c : c ∈ get_allowed_categories f -> c ∈ categories f.
Proof.
  unfold get_allowed_categories. intros H.
  apply list_elem_of_fmap in H as ([c' a] & -> & H).
  apply list_elem_of_filter in H as [_ H]. simpl.
  apply list_elem_of_lookup in H as [i Hi]. apply lookup_zip_Some in Hi as [Hc _].
  by eapply list_elem_of_lookup_2.
Qed.

Lemma length_onehot f val : length (to_onehot_encoding f val) = length (categories f).
Proof. unfold to_onehot_encoding. apply length_fmap. Qed.

Lemma categories_nonempty (cs : list string) (a : list bool) :
  length a = length cs -> true ∈ a -> (0 < length cs)%nat.
Proof. intros <- H. destruct a; [by apply elem_of_nil in H | simpl; lia]. Qed.

Lemma descriptor_row (cs ds : list string) (vs : list (list Q)) i :
  length vs = length cs -> Forall (fun row => length row = length ds) vs ->
  (i < length cs)%nat -> exists row, vs !! i = Some row /\ length row = length ds.
Proof.
  intros Hlen Hrows Hi.
  destruct (lookup_lt_is_Some_2 vs i) as [row Hrow]; [lia|].
  exists row. split; [done|]. rewrite Forall_forall in Hrows. apply Hrows.
  by eapply list_elem_of_lookup_2.
Qed.

(** The encoded value of a fixed feature has an entry per column. *)
Lemma fixed_value_encoded specs f n :
  valid_feature specs f -> is_fixed f = true ->
  column_count f (specs !! key f) = Ok n ->
  exists vals, fixed_value f (specs !! key f) = Ok (Some vals) /\ length vals = n.
Proof.
  intros Hvalid Hfix Hn.
  assert (Hhead : isinstance f cls_CategoricalInput = true ->
                  exists c, head (get_allowed_categories f) = Some c /\ c ∈ categories f).
  { intros Hc. destruct f; simpl in Hc, Hfix; try discriminate;
      apply bool_decide_eq_true in Hfix;
      (destruct (get_allowed_categories _) as [|c l] eqn:E; [done|]);
      exists c; (split; [done|]); apply allowed_categories_subset; rewrite E; by left. }
  destruct f as [k l u|k vs|k cs a|k cs a ds vs|k cs a]; simpl in Hvalid, Hfix, Hn |- *;
    try discriminate.
  - rewrite Hvalid in Hn |- *. rewrite Hfix. inversion Hn. by eexists.
  - destruct (Hhead eq_refl) as (c & Hc & Hin). rewrite Hfix, Hc. simpl.
    destruct Hvalid as (Hlen & Htrue & [Hs | [Hs | Hs]]); rewrite Hs in Hn |- *;
      simpl in Hn; inversion Hn; subst n.
    + eexists. split; [done|]. apply (length_onehot (CategoricalInput k cs a)).
    + destruct (index_of_Some cs c Hin) as (i & Hi & _).
      unfold to_ordinal_encoding. simpl. rewrite Hi. simpl. by eexists.
    + eexists. split; [done|]. unfold to_dummy_encoding.
      rewrite length_tl, (length_onehot (CategoricalInput k cs a)). done.
  - destruct (Hhead eq_refl) as (c & Hc & Hin). rewrite Hfix, Hc. simpl.
    destruct Hvalid as (Hlen & Htrue & [e Hs] & Hvs & Hrows). rewrite Hs in Hn |- *.
    destruct e; simpl in Hn; inversion Hn; subst n.
    + eexists. split; [done|]. apply (length_onehot (CategoricalDescriptorInput k cs a ds vs)).
    + destruct (index_of_Some cs c Hin) as (i & Hi & _).
      unfold to_ordinal_encoding. simpl. rewrite Hi. simpl. by eexists.
    + eexists. split; [done|]. unfold to_dummy_encoding.
      rewrite length_tl, (length_onehot (CategoricalDescriptorInput k cs a ds vs)). done.
    + destruct (index_of_Some cs c Hin) as (i & Hi & Hlt).
      destruct (descriptor_row cs ds vs i Hvs Hrows Hlt) as (row & Hrow & Hrowlen).
      unfold to_descriptor_encoding. simpl. rewrite Hi. simpl. rewrite Hrow. simpl.
      eexists. split; [done|]. by rewrite length_fmap.
  - destruct (Hhead eq_refl) as (c & Hc & Hin). rewrite Hfix, Hc. simpl.
    destruct Hvalid as (Hlen & Htrue & [Hs | [Hs | Hs]]); rewrite Hs in Hn |- *;
      simpl in Hn; inversion Hn; subst n.
    + eexists. split; [done|]. apply (length_onehot (TaskInput k cs a)).
    + destruct (index_of_Some cs c Hin) as (i & Hi & _).
      unfold to_ordinal_encoding. simpl. rewrite Hi. simpl. by eexists.
    + eexists. split; [done|]. unfold to_dummy_encoding.
      rewrite length_tl, (length_onehot (TaskInput k cs a)). done.
Qed.

Lemma fixed_value_plain f : exists o, fixed_value f None = Ok o /\ (is_Some o <-> is_fixed f = true).
Proof.
  destruct f as [k l u|k vs|k cs a|k cs a ds vs|k cs a]; simpl.
  - destruct (Qeq_bool l u); eexists; (split; [done|]); split; try done; by inversion 1.
  - eexists. split; [done|]. split; [by inversion 1 | done].
  - case_bool_decide as H.
    + destruct (get_allowed_categories _) as [|c l]; [done|]. simpl. eexists. split; [done|]. done.
    + eexists. split; [done|]. split; [by inversion 1 | done].
  - case_bool_decide as H.
    + destruct (get_allowed_categories _) as [|c l]; [done|]. simpl. eexists. split; [done|]. done.
    + eexists. split; [done|]. split; [by inversion 1 | done].
  - case_bool_decide as H.
    + destruct (get_allowed_categories _) as [|c l]; [done|]. simpl. eexists. split; [done|]. done.
    + eexists. split; [done|]. split; [by inversion 1 | done].
Qed.

(** ** [get_fixed_features] returns on a well-formed strategy *)

Lemma bind_Ok_l {A B} (a : A) (k : A -> result B) : Ok a ≫= k = k a.
Proof. reflexivity. Qed.

Lemma or_raise_Some {A} e (a : A) : or_raise e (Some a) = Ok a.
Proof. reflexivity. Qed.

Lemma pin_fixed_value_total s m f acc :
  well_formed s -> covers s m -> f ∈ inputs (domain s) ->
  is_Ok (pin_fixed_value s m f acc).
Proof.
  intros Hwf Hcov Hf. unfold pin_fixed_value.
  destruct (fixed_value_plain f) as (o & -> & Ho). simpl.
  destruct o as [x|]; [|by eexists].
  assert (Hfix : is_fixed f = true) by (apply Ho; by eexists).
  destruct (Hcov f Hf) as (idxs & Hidxs & Hn).
  destruct (fixed_value_encoded _ f _ (wf_features s Hwf f Hf) Hfix Hn) as (vals & -> & Hlen).
  simpl. rewrite Hidxs. simpl.
  apply for_each_returns. intros p a Hp. apply enumerate_lt in Hp.
  destruct (lookup_lt_is_Some_2 vals p.1) as [v Hv]; [lia|].
  simpl. rewrite Hv. by eexists.
Qed.

Lemma features_with_spec_total d specs enc keys :
  (forall k, k ∈ keys -> is_Some (specs !! k) /\ is_Ok (get_by_key d k)) ->
  is_Ok (features_with_spec d specs enc keys).
Proof.
  induction keys as [|k ks IH]; intros H; simpl; [by eexists|].
  destruct (H k) as [[e He] [f Hf]]; [by left|]. rewrite He. simpl.
  destruct IH as [fs Hfs]; [intros; apply H; by right|].
  case_bool_decide; [|by exists fs]. rewrite Hf. simpl. rewrite Hfs. by eexists.
Qed.

Lemma categorical_has_spec s f :
  well_formed s -> f ∈ inputs (domain s) -> isinstance f cls_CategoricalInput = true ->
  is_Some (input_preprocessing_specs s !! key f).
Proof.
  intros Hwf Hf Hc. pose proof (wf_features s Hwf f Hf) as Hv.
  destruct f; simpl in Hc, Hv |- *; try discriminate.
  - destruct Hv as (_ & _ & [-> | [-> | ->]]); by eexists.
  - by destruct Hv as (_ & _ & ? & _).
  - destruct Hv as (_ & _ & [-> | [-> | ->]]); by eexists.
Qed.

Lemma selection_total s enc cls :
  well_formed s ->
  (forall f, isinstance f cls = true -> isinstance f cls_CategoricalInput = true) ->
  is_Ok (features_with_spec (domain s) (input_preprocessing_specs s) enc
           (get_keys (domain s) cls)).
Proof.
  intros Hwf Hcls. apply features_with_spec_total. intros k Hk.
  apply elem_of_get_keys in Hk as (f & Hf & Hi & <-). split.
  - by apply categorical_has_spec; auto.
  - exists f. apply get_by_key_unique; [apply (wf_keys s Hwf) | done].
Qed.

(** A selected feature is an instance of the class its key was taken from. *)
Lemma selection_class s enc cls feats f :
  well_formed s ->
  features_with_spec (domain s) (input_preprocessing_specs s) enc
    (get_keys (domain s) cls) = Ok feats ->
  f ∈ feats ->
  f ∈ inputs (domain s) /\ isinstance f cls = true /\
  input_preprocessing_specs s !! key f = Some enc.
Proof.
  intros Hwf Hfeats Hf.
  destruct (features_with_spec_sound _ _ _ _ _ _ Hfeats Hf) as (Hin & Hk & Hs).
  split; [done|]. split; [|done].
  apply elem_of_get_keys in Hk as (g & Hg & Hi & Hgk).
  assert (g = f) by (by apply (unique_keys_inj (domain s) g f (wf_keys s Hwf))). by subst.
Qed.

Lemma column_count_ONE_HOT f :
  isinstance f cls_CategoricalInput = true ->
  column_count f (Some ONE_HOT) = Ok (length (categories f)).
Proof. unfold column_count. by intros ->. Qed.

Lemma column_count_DESCRIPTOR f :
  isinstance f cls_CategoricalDescriptorInput = true ->
  column_count f (Some DESCRIPTOR) = Ok (length (descriptors f)).
Proof. unfold column_count. by intros ->. Qed.

Lemma pin_forbidden_total s m f acc :
  covers s m -> f ∈ inputs (domain s) -> isinstance f cls_CategoricalInput = true ->
  input_preprocessing_specs s !! key f = Some ONE_HOT ->
  is_Ok (pin_forbidden m f acc).
Proof.
  intros Hcov Hf Hc Hs. unfold pin_forbidden. rewrite Hc.
  destruct (is_fixed f); [by eexists|].
  destruct (Hcov f Hf) as (idxs & Hidxs & Hn).
  rewrite Hs, (column_count_ONE_HOT f Hc) in Hn. inversion Hn as [Hlen].
  apply for_each_returns. intros cat a _. rewrite Hidxs. simpl.
  apply for_each_returns. intros p a' Hp. apply enumerate_lt in Hp.
  destruct (lookup_lt_is_Some_2 (to_onehot_encoding f (Str cat)) p.1) as [t Ht].
  { rewrite length_onehot. lia. }
  rewrite Ht. simpl. destruct (value_eqb t (Float 1)); by eexists.
Qed.

Lemma length_omap_all {A B} (f : A -> option B) (l : list A) :
  (forall x, x ∈ l -> is_Some (f x)) -> length (omap f l) = length l.
Proof.
  induction l as [|x l IH]; intros H; [done|]. simpl.
  destruct (H x) as [y Hy]; [by left|]. rewrite Hy. simpl. f_equal.
  apply IH. intros. apply H. by right.
Qed.

Lemma allowed_rows_spec f row :
  row ∈ allowed_rows f -> row ∈ descriptor_values f.
Proof.
  unfold allowed_rows. intros H.
  apply list_elem_of_fmap in H as ([r a] & -> & H).
  apply list_elem_of_filter in H as [_ H].
  apply list_elem_of_lookup in H as [i Hi]. apply lookup_zip_Some in Hi as [Hr _].
  by eapply list_elem_of_lookup_2.
Qed.

Lemma allowed_rows_nonempty f :
  length (descriptor_values f) = length (allowed f) -> true ∈ allowed f ->
  allowed_rows f <> [].
Proof.
  intros Hlen Htrue Hnil.
  apply list_elem_of_lookup in Htrue as [i Hi].
  destruct (lookup_lt_is_Some_2 (descriptor_values f) i) as [row Hrow].
  { rewrite Hlen. by eapply lookup_lt_Some. }
  assert (Hin : row ∈ allowed_rows f).
  { unfold allowed_rows. apply list_elem_of_fmap. exists (row, true). split; [done|].
    apply list_elem_of_filter. split; [done|].
    apply list_elem_of_lookup. exists i. by apply lookup_zip_Some. }
  rewrite Hnil in Hin. by apply elem_of_nil in Hin.
Qed.

Lemma list_min_Some l : l <> [] -> is_Some (list_min l).
Proof. destruct l; [done|]. by eexists. Qed.

Lemma list_max_Some l : l <> [] -> is_Some (list_max l).
Proof. destruct l; [done|]. by eexists. Qed.

Lemma bounds_length specs f :
  valid_feature specs f -> isinstance f cls_CategoricalDescriptorInput = true ->
  length (get_bounds_DESCRIPTOR f).1 = length (descriptors f) /\
  length (get_bounds_DESCRIPTOR f).2 = length (descriptors f).
Proof.
  intros Hv Hd. destruct f as [| | |k cs a ds vs|]; try discriminate.
  destruct Hv as (Hlen & Htrue & _ & Hvs & Hrows).
  set (f := CategoricalDescriptorInput k cs a ds vs).
  assert (Hcol : forall j, (j < length ds)%nat ->
            omap (fun row : list Q => row !! j) (allowed_rows f) <> []).
  { intros j Hj Hnil. apply (f_equal length) in Hnil.
    rewrite length_omap_all in Hnil.
    - apply (allowed_rows_nonempty f); [simpl; congruence | done |].
      by apply length_zero_iff_nil.
    - intros row Hrow. apply allowed_rows_spec in Hrow. simpl in Hrow.
      rewrite Forall_forall in Hrows. apply lookup_lt_is_Some_2. rewrite (Hrows row Hrow). done. }
  unfold get_bounds_DESCRIPTOR. cbv zeta. cbn [fst snd]. change (descriptors f) with ds. split.
  - rewrite length_omap_all; [by rewrite length_seq|].
    intros j Hj. apply elem_of_seq in Hj. apply list_min_Some, Hcol. lia.
  - rewrite length_omap_all; [by rewrite length_seq|].
    intros j Hj. apply elem_of_seq in Hj. apply list_max_Some, Hcol. lia.
Qed.

Lemma pin_constant_descriptor_total s m f acc :
  well_formed s -> covers s m -> f ∈ inputs (domain s) ->
  isinstance f cls_CategoricalDescriptorInput = true ->
  input_preprocessing_specs s !! key f = Some DESCRIPTOR ->
  is_Ok (pin_constant_descriptor m f acc).
Proof.
  intros Hwf Hcov Hf Hd Hs. unfold pin_constant_descriptor. rewrite Hd.
  destruct (is_fixed f); [by eexists|].
  destruct (Hcov f Hf) as (idxs & Hidxs & Hn).
  rewrite Hs, (column_count_DESCRIPTOR f Hd) in Hn. inversion Hn as [Hlen].
  destruct (bounds_length _ f (wf_features s Hwf f Hf) Hd) as [Hl Hu].
  cbv zeta. rewrite Hidxs, or_raise_Some, bind_Ok_l.
  apply for_each_returns. intros p a Hp. apply enumerate_lt in Hp.
  destruct (lookup_lt_is_Some_2 (get_bounds_DESCRIPTOR f).1 p.1) as [l Hl']; [lia|].
  destruct (lookup_lt_is_Some_2 (get_bounds_DESCRIPTOR f).2 p.1) as [u Hu']; [lia|].
  rewrite Hl', Hu', !or_raise_Some, !bind_Ok_l. destruct (Qeq_bool l u); by eexists.
Qed.

Lemma get_fixed_features_total s m :
  well_formed s -> _features2idx s = Ok m -> covers s m ->
  is_Ok (get_fixed_features s).
Proof.
  intros Hwf Hm Hcov. unfold get_fixed_features. rewrite Hm. simpl.
  rewrite get_features_Input.
  destruct (for_each_returns (inputs (domain s)) (pin_fixed_value s m)) with (acc := (∅ : gmap nat value))
    as [ff1 H1].
  { intros f a Hf. by apply pin_fixed_value_total. }
  rewrite H1. simpl.
  assert (H2 : exists ff2,
    (if bool_decide (categorical_method s = FREE) && bool_decide (ONE_HOT ∈ spec_values s)
     then feats ← features_with_spec (domain s) (input_preprocessing_specs s) ONE_HOT
                     (get_keys (domain s) cls_CategoricalInput);
          for_each feats (pin_forbidden m) ff1
     else Ok ff1) = Ok ff2).
  { destruct (bool_decide (categorical_method s = FREE) && bool_decide (ONE_HOT ∈ spec_values s)); [|eexists; reflexivity].
    destruct (selection_total s ONE_HOT cls_CategoricalInput Hwf) as [feats Hfeats]; [done|].
    rewrite Hfeats. simpl. apply for_each_returns. intros f a Hf.
    destruct (selection_class s _ _ _ f Hwf Hfeats Hf) as (Hin & Hc & Hs).
    by apply (pin_forbidden_total s). }
  destruct H2 as [ff2 H2]. rewrite H2. simpl.
  assert (H3 : exists ff3,
    (if bool_decide (descriptor_method s = FREE) && bool_decide (DESCRIPTOR ∈ spec_values s)
     then feats ← features_with_spec (domain s) (input_preprocessing_specs s) DESCRIPTOR
                     (get_keys (domain s) cls_CategoricalDescriptorInput);
          for_each feats (pin_constant_descriptor m) ff2
     else Ok ff2) = Ok ff3).
  { destruct (bool_decide (descriptor_method s = FREE) && bool_decide (DESCRIPTOR ∈ spec_values s)); [|eexists; reflexivity].
    destruct (selection_total s DESCRIPTOR cls_CategoricalDescriptorInput Hwf) as [feats Hfeats].
    { intros f. by destruct f. }
    rewrite Hfeats. simpl. apply for_each_returns. intros f a Hf.
    destruct (selection_class s _ _ _ f Hwf Hfeats Hf) as (Hin & Hc & Hs).
    by apply (pin_constant_descriptor_total s). }
  destruct H3 as [ff3 H3]. rewrite H3. simpl. eexists; reflexivity.
Qed.

(** ** [get_categorical_combinations] returns on a well-formed strategy *)

Lemma combo_pair_choice s combo pair :
  combo ∈ enumerated_combos s -> pair ∈ combo ->
  exists f, f ∈ enumerated_features s /\ pair ∈ choices f.
Proof.
  rewrite enumerated_combos_product, elem_of_product. intros H Hp.
  apply list_elem_of_lookup in Hp as [i Hi].
  destruct (Forall2_lookup_l _ _ _ _ _ H Hi) as (l & Hl & Hpl).
  rewrite list_lookup_fmap in Hl.
  destruct (enumerated_features s !! i) as [f|] eqn:E; [|done].
  simpl in Hl. inversion Hl; subst l. exists f. split; [|done].
  by eapply list_elem_of_lookup_2.
Qed.

Lemma enumerated_features_kind s f :
  f ∈ enumerated_features s ->
  isinstance f cls_CategoricalInput = true \/ isinstance f cls_DiscreteInput = true.
Proof.
  unfold enumerated_features, enumerated_categoricals, enumerated_discretes.
  rewrite elem_of_app, !list_elem_of_filter. intros [[[? _] _]|[[? _] _]]; auto.
Qed.

Lemma onehot_columns_le specs f n :
  valid_feature specs f -> isinstance f cls_CategoricalInput = true ->
  specs !! key f <> Some DESCRIPTOR ->
  column_count f (specs !! key f) = Ok n -> (n <= length (categories f))%nat.
Proof.
  intros Hv Hc Hs Hn.
  assert (Hne : (0 < length (categories f))%nat).
  { destruct f; simpl in Hc, Hv |- *; try discriminate;
      destruct Hv as (Hlen & Htrue & _); by eapply categories_nonempty. }
  unfold column_count in Hn. rewrite Hc in Hn.
  destruct (specs !! key f) as [[]|]; inversion Hn; subst; try lia. done.
Qed.

Lemma pin_onehot_choice_total s m f val acc :
  well_formed s -> covers s m -> f ∈ inputs (domain s) ->
  isinstance f cls_CategoricalInput = true ->
  input_preprocessing_specs s !! key f <> Some DESCRIPTOR ->
  is_Ok (pin_onehot_choice m (key f) f val acc).
Proof.
  intros Hwf Hcov Hf Hc Hs. unfold pin_onehot_choice.
  destruct (Hcov f Hf) as (idxs & Hidxs & Hn).
  apply (onehot_columns_le _ f _ (wf_features s Hwf f Hf) Hc Hs) in Hn.
  cbv zeta. rewrite Hidxs, or_raise_Some, bind_Ok_l.
  apply for_each_returns. intros p a Hp. apply enumerate_lt in Hp.
  destruct (lookup_lt_is_Some_2 (to_onehot_encoding f val) p.1) as [t Ht].
  { rewrite length_onehot. lia. }
  rewrite Ht, or_raise_Some, bind_Ok_l. by eexists.
Qed.

Lemma pin_descriptor_choice_total s m f c acc :
  well_formed s -> covers s m -> f ∈ inputs (domain s) ->
  isinstance f cls_CategoricalDescriptorInput = true ->
  input_preprocessing_specs s !! key f = Some DESCRIPTOR ->
  c ∈ categories f ->
  is_Ok (pin_descriptor_choice m (key f) f (Str c) acc).
Proof.
  intros Hwf Hcov Hf Hd Hs Hc. unfold pin_descriptor_choice.
  destruct (index_of_Some _ _ Hc) as (i & Hi & Hlt). rewrite Hi, or_raise_Some, bind_Ok_l.
  destruct (Hcov f Hf) as (idxs & Hidxs & Hn).
  rewrite Hs, (column_count_DESCRIPTOR f Hd) in Hn. inversion Hn as [Hlen].
  rewrite Hidxs, or_raise_Some, bind_Ok_l.
  pose proof (wf_features s Hwf f Hf) as Hv.
  destruct f as [| | |k cs a ds vs|]; try discriminate.
  destruct Hv as (_ & _ & _ & Hvs & Hrows).
  destruct (descriptor_row cs ds vs i Hvs Hrows Hlt) as (row & Hrow & Hrowlen).
  apply for_each_returns. intros p acc' Hp. apply enumerate_lt in Hp.
  change (descriptor_values (CategoricalDescriptorInput k cs a ds vs)) with vs.
  rewrite Hrow, or_raise_Some, bind_Ok_l.
  destruct (lookup_lt_is_Some_2 row p.1) as [v Hv]; [simpl in Hlen; lia|].
  rewrite Hv, or_raise_Some, bind_Ok_l. by eexists.
Qed.

Lemma overlay_pair_total s m f pair acc :
  well_formed s -> covers s m ->
  f ∈ enumerated_features s -> pair ∈ choices f ->
  is_Ok (overlay_pair s m pair acc).
Proof.
  intros Hwf Hcov Hf Hp.
  assert (Hin := enumerated_features_inputs s f Hf).
  pose proof (choices_key f pair Hp) as Hk.
  unfold overlay_pair. cbv zeta. rewrite Hk.
  rewrite (get_by_key_unique _ _ (wf_keys s Hwf) Hin), bind_Ok_l.
  destruct (isinstance f cls_CategoricalDescriptorInput) eqn:Hd.
  - assert (Hc := descriptor_is_categorical f Hd).
    destruct (categorical_has_spec s f Hwf Hin Hc) as [e He].
    rewrite He, or_raise_Some, bind_Ok_l. case_bool_decide as Hs.
    + subst e. unfold choices in Hp. rewrite Hc in Hp. unfold categorical_choices in Hp.
      apply list_elem_of_fmap in Hp as (c & -> & Hcin). simpl.
      apply (pin_descriptor_choice_total s); auto using allowed_categories_subset.
    + apply (pin_onehot_choice_total s); auto. rewrite He. congruence.
  - destruct (isinstance f cls_CategoricalInput) eqn:Hc.
    + apply (pin_onehot_choice_total s); auto.
      pose proof (wf_features s Hwf f Hin) as Hv.
      destruct f; simpl in Hc, Hd, Hv |- *; try discriminate;
        destruct Hv as (_ & _ & [-> | [-> | ->]]); discriminate.
    + destruct (enumerated_features_kind s f Hf) as [?|Hdisc]; [congruence|].
      rewrite Hdisc. unfold pin_discrete_choice.
      destruct (Hcov f Hin) as (idxs & Hidxs & Hn).
      pose proof (wf_features s Hwf f Hin) as Hv.
      destruct f; simpl in Hdisc; try discriminate. simpl in Hv, Hn, Hidxs |- *.
      rewrite Hv in Hn. simpl in Hn. inversion Hn as [Hlen].
      rewrite Hidxs. simpl. destruct idxs as [|idx idxs]; [done|]. simpl. by eexists.
Qed.

Lemma get_categorical_combinations_total s m :
  well_formed s -> _features2idx s = Ok m -> covers s m ->
  is_Ok (get_categorical_combinations s).
Proof.
  intros Hwf Hm Hcov. unfold get_categorical_combinations.
  destruct (get_fixed_features_total s m Hwf Hm Hcov) as [fixed_basis ->].
  rewrite bind_Ok_l. destruct (all_free s); [by eexists|]. cbv zeta.
  case_bool_decide; [by eexists|]. rewrite Hm, bind_Ok_l.
  destruct (collect_total (fun combo => for_each combo (overlay_pair s m) fixed_basis)
              (enumerated_combos s)) as [l Hl]; [|by exists l].
  intros combo Hcombo. apply for_each_returns. intros pair a Hpair.
  destruct (combo_pair_choice s combo pair Hcombo Hpair) as (f & Hf & Hp).
  by apply (overlay_pair_total s m f).
Qed.

(** ** [get_nchoosek_combinations] on a well-formed strategy *)

Lemma constrained_features_have_columns s m :
  well_formed s -> covers s m ->
  forall c k, c ∈ nchoosek (domain s) -> k ∈ features c -> is_Some (first_column m k).
Proof.
  intros Hwf Hcov c k Hc Hk.
  destruct (wf_nchoosek s Hwf c k Hc Hk) as (l & u & Hf).
  destruct (Hcov _ Hf) as (idxs & Hidxs & Hn).
  pose proof (wf_features s Hwf _ Hf) as Hv. simpl in Hv, Hidxs, Hn.
  rewrite Hv in Hn. simpl in Hn. inversion Hn as [Hlen].
  unfold first_column. rewrite Hidxs. simpl.
  destruct idxs as [|idx idxs]; [done|]. by eexists.
Qed.

(** ** The enumerators on a well-formed strategy *)

Lemma well_formed_covers s :
  well_formed s -> exists m, _features2idx s = Ok m /\ covers s m.
Proof. apply well_formed_layout. Qed.

(** C3: on a well-formed strategy the two enumerators and
    [get_fixed_values_list] return, and the latter returns
    [len(get_categorical_combinations()) * len(get_nchoosek_combinations())]
    dictionaries; the one at position [i * len(nchoosek) + j] is the merge of
    the [i]-th categorical combination with the [j]-th n-choose-k dictionary,
    every element is such a merge, and on a key present in both the
    n-choose-k value stays. *)
Theorem get_fixed_values_list_product (s : BotorchStrategy) :
  well_formed s ->
  exists ccs ncks full,
    get_categorical_combinations s = Ok ccs /\
    get_nchoosek_combinations s = Ok ncks /\
    get_fixed_values_list s = Ok full /\
    length full = (length ccs * length ncks)%nat /\
    (forall i j ff1 ff2, ccs !! i = Some ff1 -> ncks !! j = Some ff2 ->
       exists ff, full !! (i * length ncks + j)%nat = Some ff /\
         forall k, ff !! k = match ff2 !! k with Some v => Some v | None => ff1 !! k end) /\
    (forall n ff, full !! n = Some ff ->
       exists i j ff1 ff2, n = (i * length ncks + j)%nat /\
         ccs !! i = Some ff1 /\ ncks !! j = Some ff2 /\
         forall k, ff !! k = match ff2 !! k with Some v => Some v | None => ff1 !! k end).
Proof.
  intros Hwf. destruct (well_formed_covers s Hwf) as (m & Hm & Hcov).
  destruct (get_categorical_combinations_total s m Hwf Hm Hcov) as [ccs Hccs].
  destruct (get_nchoosek_combinations_spec s m Hm
              (constrained_features_have_columns s m Hwf Hcov)) as (ncks & Hncks & _).
  destruct (get_fixed_values_list_merges s ccs ncks Hccs Hncks) as (full & H).
  by exists ccs, ncks, full.
Qed.

(** C4: on a well-formed strategy [get_nchoosek_combinations] returns a list
    that is never empty; without a constraint it is the list of one empty
    dictionary; otherwise there is one dictionary per generated subset, and
    the dictionary at the position of a subset pins the column of every
    unused feature to 0.0 and holds no column of a used feature. *)
Theorem get_nchoosek_combinations_pins (s : BotorchStrategy) :
  well_formed s ->
  exists features2idx fixed_values_list,
    _features2idx s = Ok features2idx /\
    get_nchoosek_combinations s = Ok fixed_values_list /\
    fixed_values_list <> [] /\
    (nchoosek (domain s) = [] -> fixed_values_list = [∅]) /\
    ((domain_get_nchoosek_combinations (domain s)).1 <> [] ->
       length fixed_values_list = length (domain_get_nchoosek_combinations (domain s)).1) /\
    (forall i used unused,
       (domain_get_nchoosek_combinations (domain s)).1 !! i = Some used ->
       (domain_get_nchoosek_combinations (domain s)).2 !! i = Some unused ->
       exists fixed_values,
         fixed_values_list !! i = Some fixed_values /\
         (forall f, f ∈ unused ->
            exists c, first_column features2idx f = Some c /\
                      fixed_values !! c = Some (Float 0)) /\
         (forall f idxs c, f ∈ used -> features2idx !! f = Some idxs -> c ∈ idxs ->
            fixed_values !! c = None)).
Proof.
  intros Hwf. destruct (well_formed_covers s Hwf) as (m & Hm & Hcov).
  destruct (get_nchoosek_combinations_spec s m Hm
              (constrained_features_have_columns s m Hwf Hcov)) as (l & H).
  by exists m, l.
Qed.


(** C6: on a well-formed strategy [get_fixed_features] returns, and its
    dictionary pins every column of every fixed feature to its encoded value,
    which has one entry per column: a continuous feature with
    [lower == upper] gets [lower], a one-hot encoded categorical with exactly
    one allowed category gets 1 at the column of that category and 0 at the
    others; and when [categorical_method] is FREE, every one-hot column of a
    forbidden category of a categorical feature that is not fixed is pinned
    to 0. *)
Theorem get_fixed_features_pins (s : BotorchStrategy) :
  well_formed s ->
  exists features2idx fixed_features,
    _features2idx s = Ok features2idx /\
    covers s features2idx /\
    get_fixed_features s = Ok fixed_features /\
    (forall feat idxs,
       feat ∈ inputs (domain s) -> is_fixed feat = true ->
       features2idx !! key feat = Some idxs ->
       exists fixed_values,
         fixed_value feat (input_preprocessing_specs s !! key feat) = Ok (Some fixed_values) /\
         length fixed_values = length idxs /\
         forall j idx, idxs !! j = Some idx ->
           exists v, fixed_values !! j = Some v /\ fixed_features !! idx = Some v) /\
    (forall k lower upper idxs idx,
       ContinuousInput k lower upper ∈ inputs (domain s) -> Qeq_bool lower upper = true ->
       features2idx !! k = Some idxs -> idx ∈ idxs ->
       fixed_features !! idx = Some (Float lower)) /\
    (forall feat c idxs j idx cat,
       feat ∈ inputs (domain s) -> isinstance feat cls_CategoricalInput = true ->
       get_allowed_categories feat = [c] ->
       input_preprocessing_specs s !! key feat = Some ONE_HOT ->
       features2idx !! key feat = Some idxs ->
       idxs !! j = Some idx -> categories feat !! j = Some cat ->
       fixed_features !! idx = Some (if bool_decide (cat = c) then Float 1 else Float 0)) /\
    (categorical_method s = FREE ->
     forall feat idxs j idx cat,
       feat ∈ inputs (domain s) -> isinstance feat cls_CategoricalInput = true ->
       input_preprocessing_specs s !! key feat = Some ONE_HOT ->
       is_fixed feat = false ->
       features2idx !! key feat = Some idxs ->
       idxs !! j = Some idx -> categories feat !! j = Some cat ->
       cat ∈ get_forbidden_categories feat ->
       fixed_features !! idx = Some (Float 0)).
Proof.
  intros Hwf. destruct (well_formed_covers s Hwf) as (m & Hm & Hcov).
  destruct (get_fixed_features_total s m Hwf Hm Hcov) as [ff Hff].
  destruct (get_fixed_features_spec s m ff (wf_keys s Hwf) Hm Hff) as (HA & HB & HC & HD).
  exists m, ff. split; [done|]. split; [done|]. split; [done|].
  split; [|split; [done|split; done]].
  intros feat idxs Hfeat Hfix Hidxs.
  destruct (HA feat idxs Hfeat Hfix Hidxs) as (vals & Hvals & Hw).
  exists vals. split; [done|]. split; [|done].
  destruct (Hcov feat Hfeat) as (idxs' & Hidxs' & Hn). rewrite Hidxs in Hidxs'.
  inversion Hidxs'; subst idxs'.
  destruct (fixed_value_encoded _ feat _ (wf_features s Hwf feat Hfeat) Hfix Hn)
    as (vals' & Hvals' & Hlen).
  rewrite Hvals in Hvals'. by inversion Hvals'; subst.
Qed.

(** ** The theorems at the example strategies *)

Lemma sparse_strategy_well_formed : well_formed sparse_strategy.
Proof.
  split.
  - apply (bool_decide_unpack _). vm_compute. exact I.
  - valid_features.
  - intros c k Hc Hk. simpl in Hc. apply list_elem_of_singleton in Hc. subst c.
    simpl in Hk. rewrite !elem_of_cons, elem_of_nil in Hk.
    destruct Hk as [->|[->|[->|[]]]]; exists 0%Q, 1%Q; in_list.
Qed.

Lemma mixed_strategy_well_formed : well_formed mixed_strategy.
Proof.
  split.
  - apply (bool_decide_unpack _). vm_compute. exact I.
  - valid_features.
  - intros c k Hc. simpl in Hc. by apply elem_of_nil in Hc.
Qed.

Lemma exhaustive_strategy_well_formed : well_formed exhaustive_strategy.
Proof.
  split.
  - apply (bool_decide_unpack _). vm_compute. exact I.
  - valid_features.
  - intros c k Hc. simpl in Hc. by apply elem_of_nil in Hc.
Qed.

(** C3 at the strategy with an n-choose-k constraint: three categorical
    combinations times six subsets. *)
Lemma get_fixed_values_list_product_witness :
  well_formed sparse_strategy /\
  exists full,
    get_fixed_values_list sparse_strategy = Ok full /\ length full = 18%nat.
Proof.
  split; [exact sparse_strategy_well_formed|].
  destruct (get_fixed_values_list_product sparse_strategy sparse_strategy_well_formed)
    as (ccs & ncks & full & H1 & H2 & H3 & H4 & _).
  exists full. split; [exact H3|]. rewrite H4.
  assert (E1 : get_categorical_combinations sparse_strategy
               = Ok (unwrap (get_categorical_combinations sparse_strategy)))
    by (vm_compute; reflexivity).
  assert (E2 : get_nchoosek_combinations sparse_strategy
               = Ok (unwrap (get_nchoosek_combinations sparse_strategy)))
    by (vm_compute; reflexivity).
  rewrite E1 in H1. rewrite E2 in H2.
  injection H1 as <-. injection H2 as <-. vm_compute. reflexivity.
Defined.

(** C4 at the same strategy: the subsets of one or two of three features. *)
Lemma get_nchoosek_combinations_pins_witness :
  well_formed sparse_strategy /\
  exists fixed_values_list,
    get_nchoosek_combinations sparse_strategy = Ok fixed_values_list /\
    fixed_values_list <> [] /\ length fixed_values_list = 6%nat.
Proof.
  split; [exact sparse_strategy_well_formed|].
  destruct (get_nchoosek_combinations_pins sparse_strategy sparse_strategy_well_formed)
    as (m & l & _ & H1 & H2 & _ & H4 & _).
  exists l. split; [exact H1|]. split; [exact H2|]. apply H4. vm_compute. discriminate.
Defined.

(** C8 at a strategy that was told nothing. *)
Lemma ask_requires_experiments_witness :
  ask trusting line_strategy (Some 1) false None fresh
  = (Raise (ValueError not_enough_msg), fresh).
Proof.
  apply (ask_requires_experiments trusting line_strategy (Some 1) false None fresh).
  - left. reflexivity.
  - intros n [= <-]. lia.
Defined.

(** C8 as stated fails: a strategy that was told nothing is asked for zero
    candidates, and the error is the one on the candidate count. *)
Lemma ask_counterexample :
  experiments fresh = None /\
  ask trusting line_strategy (Some 0) false None fresh
  = (Raise (ValueError candidate_count_msg), fresh) /\
  String.eqb candidate_count_msg not_enough_msg = false.
Proof. repeat split. Qed.



(** C10 at [num_sobol_samples = 5]. *)
Lemma construct_requires_powers_of_two_witness :
  exists msgs,
    DataModel.construct (fun v : DataModel.BotorchStrategy unit => Ok v)
      (DataModel.mkBotorchStrategy 5 8 1024 EXHAUSTIVE EXHAUSTIVE EXHAUSTIVE tt)
    = Raise (ValidationError msgs) /\ DataModel.sobol_msg ∈ msgs.
Proof.
  apply (construct_requires_powers_of_two (fun v => Ok v)
           (DataModel.mkBotorchStrategy 5 8 1024 EXHAUSTIVE EXHAUSTIVE EXHAUSTIVE tt));
    simpl; [lia | lia |].
  apply is_power_of_two_false. reflexivity.
Defined.

(** C6 at the domain of the tests: the fixed continuous feature, the
    forbidden category of [if3] and the fixed categorical feature [if4]. *)
Lemma get_fixed_features_pins_witness :
  well_formed mixed_strategy /\
  exists fixed_features,
    get_fixed_features mixed_strategy = Ok fixed_features /\
    fixed_features !! 1%nat = Some (Float 3) /\
    fixed_features !! 4%nat = Some (Float 0) /\
    fixed_features !! 5%nat = Some (Float 1) /\
    fixed_features !! 6%nat = Some (Float 0).
Proof.
  split; [exact mixed_strategy_well_formed|].
  destruct (get_fixed_features_pins mixed_strategy mixed_strategy_well_formed)
    as (m & ff & Hm & _ & Hff & _ & Hcont & Hcat & Hforb).
  assert (E : _features2idx mixed_strategy = Ok mixed_layout) by (vm_compute; reflexivity).
  rewrite E in Hm. injection Hm as <-.
  exists ff. split; [exact Hff|]. split; [|split; [|split]].
  - apply (Hcont "if2" 3%Q 3%Q [1%nat] 1%nat);
      [in_list | reflexivity | vm_compute; reflexivity | in_list].
  - apply (Hforb eq_refl
             (CategoricalInput "if3" ["c1"; "c2"; "c3"] [true; true; false])
             [2%nat; 3%nat; 4%nat] 2%nat 4%nat "c3");
      try reflexivity; try (vm_compute; reflexivity); in_list.
  - apply (Hcat (CategoricalInput "if4" ["c1"; "c2"; "c3"] [true; false; false])
             "c1" [5%nat; 6%nat; 7%nat] 0%nat 5%nat "c1");
      try reflexivity; try (vm_compute; reflexivity); in_list.
  - apply (Hcat (CategoricalInput "if4" ["c1"; "c2"; "c3"] [true; false; false])
             "c1" [5%nat; 6%nat; 7%nat] 1%nat 6%nat "c2");
      try reflexivity; try (vm_compute; reflexivity); in_list.
Defined.


(** ** Frames of the operations on the strategy object *)

#[local] Instance same_model_refl : Reflexive same_model.
Proof. intros st. by repeat split. Qed.

#[local] Instance same_model_trans : Transitive same_model.
Proof.
  intros a b c (H1 & H2 & H3 & H4) (K1 & K2 & K3 & K4).
  repeat split; try congruence. by etrans.
Qed.

#[local] Instance grows_refl : Reflexive grows.
Proof.
  intros st. split; [done|]. split; [done|]. exists []. by rewrite app_nil_r.
Qed.

#[local] Instance grows_trans : Transitive grows.
Proof.
  intros a b c (H1 & H2 & l1 & H3 & H4) (K1 & K2 & l2 & K3 & K4).
  split; [auto|]. split; [congruence|]. exists (l1 ++ l2).
  split; [by rewrite K3, H3, app_assoc|].
  intros Hno. apply not_elem_of_app in Hno as [Hn1 Hn2].
  rewrite (K4 Hn2). auto.
Qed.

Lemma respects_bind {A B} (R : state -> state -> Prop) `{!Reflexive R, !Transitive R}
    (m : M A) (k : A -> M B) :
  respects R m -> (forall a, respects R (k a)) -> respects R (bind m k).
Proof.
  intros Hm Hk st. unfold bind. specialize (Hm st).
  destruct (m st) as [[a|e] st1]; simpl in *; [|done].
  etrans; [exact Hm | apply Hk].
Qed.

Lemma respects_ret {A} (R : state -> state -> Prop) `{!Reflexive R} (a : A) :
  respects R (ret a).
Proof. intros st. simpl. reflexivity. Qed.

Lemma respects_raise {A} (R : state -> state -> Prop) `{!Reflexive R} e :
  respects R (@raise A e).
Proof. intros st. simpl. reflexivity. Qed.

Lemma respects_lift {A} (R : state -> state -> Prop) `{!Reflexive R} (r : result A) :
  respects R (lift r).
Proof. intros st. simpl. reflexivity. Qed.

Lemma respects_read {A} (R : state -> state -> Prop) `{!Reflexive R} (f : state -> A) :
  respects R (read f).
Proof. intros st. simpl. reflexivity. Qed.

Lemma respects_modify (R : state -> state -> Prop) (f : state -> state) :
  (forall st, R st (f st)) -> respects R (modify f).
Proof. intros H st. apply H. Qed.

Lemma same_model_record ev st : same_model st (record_event ev st).
Proof. repeat split. simpl. by apply prefix_app_r. Qed.

Lemma same_model_candidates c st : same_model st (set_candidates_field c st).
Proof. by repeat split. Qed.

Ltac frame :=
  repeat first
    [ apply respects_bind; [tc_solve | tc_solve | | intros ?]
    | apply respects_ret; tc_solve
    | apply respects_raise; tc_solve
    | apply respects_lift; tc_solve
    | apply respects_read; tc_solve
    | apply respects_modify; intros ?;
      first [apply same_model_record | apply same_model_candidates]
    | match goal with |- respects _ (match ?x with _ => _ end) => destruct x end ].

Lemma ask_same_model ext s cc ap pool : respects same_model (ask ext s cc ap pool).
Proof.
  unfold ask, _ask, _choose_from_pool, add_candidates. frame.
Qed.

Ltac state_simpl :=
  cbn [experiments candidates is_fitted acqf log set_experiments_field
       set_candidates_field set_is_fitted set_acqf record_event fst snd].

Ltac run_M :=
  unfold bind, lift, read, modify, ret, raise; state_simpl;
  repeat (match goal with
          | |- context [match ?x with _ => _ end] =>
              lazymatch x with
              | context [match _ with _ => _ end] => fail
              | _ => destruct x eqn:?
              end
          end; state_simpl).

Lemma ask_candidates ext s cc ap pool st :
  ap = false \/ ~ is_Ok (ask ext s cc ap pool st).1 ->
  candidates (ask ext s cc ap pool st).2 = candidates st.
Proof.
  unfold ask, _ask, _choose_from_pool, add_candidates. run_M;
    try reflexivity; intros [?|H]; try discriminate; exfalso; apply H; by eexists.
Qed.

(** X1: [Strategy.ask] never touches the experiments, the fitted flag or the
    acquisition function, whatever its outcome; it only adds to the log; and
    it changes the pending candidates only when [add_pending] is set and it
    returns. *)
Theorem ask_touches_only_pending_candidates (ext : Collaborators) (s : BotorchStrategy)
    (candidate_count : option Z) (add_pending : bool) (candidate_pool : option DataFrame)
    (st : state) :
  experiments (ask ext s candidate_count add_pending candidate_pool st).2 = experiments st /\
  is_fitted (ask ext s candidate_count add_pending candidate_pool st).2 = is_fitted st /\
  acqf (ask ext s candidate_count add_pending candidate_pool st).2 = acqf st /\
  log st `prefix_of` log (ask ext s candidate_count add_pending candidate_pool st).2 /\
  (add_pending = false \/ ~ is_Ok (ask ext s candidate_count add_pending candidate_pool st).1 ->
   candidates (ask ext s candidate_count add_pending candidate_pool st).2 = candidates st).
Proof.
  destruct (ask_same_model ext s candidate_count add_pending candidate_pool st)
    as (H1 & H2 & H3 & H4).
  repeat split; try done. apply ask_candidates.
Qed.

Lemma ask_Ok_inv ext s cc ap pool st cands st' :
  ask ext s cc ap pool st = (Ok cands, st') ->
  (forall n, cc = Some n -> 1 <= n /\ Z.of_nat (nrows cands) = n) /\
  is_Ok (validate_candidates ext (domain s) cands) /\
  has_sufficient_experiments s (experiments st) = Ok true.
Proof.
  unfold ask, _ask, _choose_from_pool, add_candidates. run_M;
    intros [= <- <-]; (split; [|split]); try done; try (by eexists);
    intros m [= <-]; lia.
Qed.

(** X2: when [Strategy.ask] returns, the experiments were sufficient, the
    returned frame passed the validation of the domain, and it has exactly
    [candidate_count] rows when a count was given, which then is at least
    one. *)
Theorem ask_returns_requested_count (ext : Collaborators) (s : BotorchStrategy)
    (candidate_count : option Z) (add_pending : bool) (candidate_pool : option DataFrame)
    (st st' : state) (candidates : DataFrame) :
  ask ext s candidate_count add_pending candidate_pool st = (Ok candidates, st') ->
  (forall n, candidate_count = Some n -> 1 <= n /\ Z.of_nat (nrows candidates) = n) /\
  is_Ok (validate_candidates ext (domain s) candidates) /\
  has_sufficient_experiments s (experiments st) = Ok true.
Proof. apply ask_Ok_inv. Qed.

(** X3: a call of [ask] without a pool that returns has run the optimizer
    exactly once: the count was given, the acquisition function was
    initialized, the optimizer got the call the dispatch of [_ask] chooses and
    its frame is what [ask] returns. *)
Theorem ask_runs_the_optimizer_once (ext : Collaborators) (s : BotorchStrategy)
    (candidate_count : option Z) (add_pending : bool) (st st' : state)
    (candidates : DataFrame) :
  ask ext s candidate_count add_pending None st = (Ok candidates, st') ->
  exists n call,
    candidate_count = Some n /\ acqf st = true /\
    choose_optimizer s = Ok call /\
    run_optimizer ext call n = Ok candidates /\
    log st' = log st ++ [Optimize call].
Proof.
  unfold ask, _ask, add_candidates. run_M; intros [= <- <-];
    eexists _, _; repeat split; try eassumption; reflexivity.
Qed.

(** X4: a call of [ask] with [add_pending=True] that returns has appended the
    validated candidates to the pending ones: the number of pending
    candidates grew by the number of validated rows. *)
Theorem ask_add_pending_appends (ext : Collaborators) (s : BotorchStrategy)
    (candidate_count : option Z) (candidate_pool : option DataFrame) (st st' : state)
    (new_candidates : DataFrame) :
  ask ext s candidate_count true candidate_pool st = (Ok new_candidates, st') ->
  exists c,
    validate_candidates ext (domain s) new_candidates = Ok c /\
    candidates st' = Some (match candidates st with
                           | None => c
                           | Some o => concat_frames o c
                           end) /\
    num_candidates st' = (num_candidates st + nrows c)%nat.
Proof.
  unfold ask, _ask, _choose_from_pool, add_candidates, num_candidates.
  run_M; intros [= <- <-]; eexists; (split; [eassumption|]); simpl;
    simplify_eq/=; done.
Qed.

(** X5: the checks of [ask] on its arguments come in a fixed order and leave
    the strategy as it was.  A count below one is refused first, also on a
    strategy without experiments.  With sufficient experiments and a valid
    pool, a count above the size of the pool fails the assertion before
    anything is chosen; and without a pool and without a count the assertion
    of [_ask] on the count raises a [TypeError]. *)
Theorem ask_checks_its_arguments (ext : Collaborators) (s : BotorchStrategy)
    (add_pending : bool) (st : state) :
  (forall n candidate_pool, n < 1 ->
     ask ext s (Some n) add_pending candidate_pool st
     = (Raise (ValueError candidate_count_msg), st)) /\
  (forall n pool, 1 <= n -> Z.of_nat (nrows pool) < n ->
     has_sufficient_experiments s (experiments st) = Ok true ->
     is_Ok (validate_candidates ext (domain s) pool) ->
     exists msg, ask ext s (Some n) add_pending (Some pool) st
                 = (Raise (AssertionError msg), st)) /\
  (has_sufficient_experiments s (experiments st) = Ok true ->
   exists msg, ask ext s None add_pending None st = (Raise (TypeError msg), st)).
Proof.
  split; [|split].
  - intros n pool Hn. unfold ask, bind, raise.
    destruct (Z.ltb_spec n 1); [done | lia].
  - intros n pool Hn Hpool Hs [c Hc]. unfold ask, bind, raise, ret, read, lift.
    destruct (Z.ltb_spec n 1); [lia|]. rewrite Hs, Hc.
    destruct (Z.leb_spec n (Z.of_nat (nrows pool))); [lia|]. by eexists.
  - intros Hs. unfold ask, _ask, bind, raise, ret, read, lift. rewrite Hs. by eexists.
Qed.

(** ** [tell] *)

Lemma tell_stored ext s new_experiments replace retrain st e :
  nrows new_experiments <> 0%nat ->
  validate_experiments ext (domain s) new_experiments false = Ok e ->
  experiments (tell ext s new_experiments replace retrain st).2
  = Some (if replace then e
          else match experiments st with
               | None => e
               | Some o => concat_frames o e
               end).
Proof.
  intros Hn He. unfold tell. destruct (Nat.eqb_spec (nrows new_experiments) 0); [done|].
  unfold accumulate, set_experiments, add_experiments, fit, _tell.
  unfold bind at 1. destruct replace.
  - unfold bind at 1, lift at 1, modify at 1. rewrite He.
    run_M; reflexivity.
  - unfold bind at 1, lift at 1. rewrite He. unfold bind at 1, read at 1.
    destruct (experiments st) as [o|] eqn:Eo; unfold modify at 1; run_M; reflexivity.
Qed.

(** X6: [tell] stores the experiments before it checks them.  With a
    non-empty batch that passes the validation of the domain, the experiments
    of the strategy afterwards are the validated batch (with [replace]) or the
    former experiments followed by it, whether [tell] returns or raises in a
    later step (the preprocessing, the check of the fixed columns, the fit);
    when the validation itself raises, [tell] raises the same error and the
    strategy is as before. *)
Theorem tell_stores_before_it_checks (ext : Collaborators) (s : BotorchStrategy)
    (new_experiments : DataFrame) (replace retrain : bool) (st : state) :
  nrows new_experiments <> 0%nat ->
  (forall e, validate_experiments ext (domain s) new_experiments false = Ok e ->
     experiments (tell ext s new_experiments replace retrain st).2
     = Some (if replace then e
             else match experiments st with
                  | None => e
                  | Some o => concat_frames o e
                  end) /\
     num_experiments (tell ext s new_experiments replace retrain st).2
     = ((if replace then 0 else num_experiments st) + nrows e)%nat) /\
  (forall err, validate_experiments ext (domain s) new_experiments false = Raise err ->
     tell ext s new_experiments replace retrain st = (Raise err, st)).
Proof.
  intros Hn. split.
  - intros e He. pose proof (tell_stored ext s _ replace retrain st e Hn He) as H.
    split; [done|]. unfold num_experiments. rewrite H.
    destruct replace; [done|]. destruct (experiments st); simpl; lia.
  - intros err He. unfold tell. destruct (Nat.eqb_spec (nrows new_experiments) 0); [done|].
    unfold accumulate, set_experiments, add_experiments, bind, lift.
    destruct replace; by rewrite He.
Qed.

Lemma grows_record ev st : grows st (record_event ev st).
Proof. split; [done|]. split; [done|]. by exists [ev]. Qed.

Lemma grows_experiments e st : grows st (set_experiments_field e st).
Proof. split; [done|]. split; [done|]. exists []. by rewrite app_nil_r. Qed.

Lemma grows_is_fitted st : grows st (set_is_fitted st).
Proof. split; [done|]. split; [done|]. exists []. by rewrite app_nil_r. Qed.

Lemma grows_init_acqf ext : respects grows (_tell ext).
Proof.
  intros st. split; [done|]. split; [done|]. exists [InitAcqf].
  split; [done|]. intros Hno. exfalso. apply Hno. by apply list_elem_of_singleton.
Qed.

Ltac frame_grows :=
  repeat first
    [ apply respects_bind; [tc_solve | tc_solve | | intros ?]
    | apply respects_ret; tc_solve
    | apply respects_raise; tc_solve
    | apply respects_lift; tc_solve
    | apply respects_read; tc_solve
    | apply respects_modify; intros ?;
      first [apply grows_record | apply grows_experiments | apply grows_is_fitted]
    | apply grows_init_acqf
    | match goal with |- respects _ (match ?x with _ => _ end) => destruct x end ].

Lemma tell_grows ext s new_experiments replace retrain :
  respects grows (tell ext s new_experiments replace retrain).
Proof.
  unfold tell, accumulate, set_experiments, add_experiments, fit.
  frame_grows.
Qed.

(** X7: no call of [tell] undoes a fit or touches the pending candidates,
    whether it returns or raises, and the log only grows.  The acquisition
    function is as before unless the call reached the abstract [_init_acqf]:
    nothing else in [tell] assigns it. *)
Theorem tell_never_unfits (ext : Collaborators) (s : BotorchStrategy)
    (new_experiments : DataFrame) (replace retrain : bool) (st : state) :
  (is_fitted st = true ->
   is_fitted (tell ext s new_experiments replace retrain st).2 = true) /\
  candidates (tell ext s new_experiments replace retrain st).2 = candidates st /\
  exists events,
    log (tell ext s new_experiments replace retrain st).2 = log st ++ events /\
    (InitAcqf ∉ events ->
     acqf (tell ext s new_experiments replace retrain st).2 = acqf st).
Proof. apply tell_grows. Qed.

(** X8: [fit] asserts that there are experiments, validates them strictly,
    fits the surrogate on them and only then marks the strategy as fitted:
    when it returns, the experiments were not empty, the surrogate was fitted
    on them once and the strategy is fitted; when it raises, the fitted flag
    is as before; without experiments it raises the assertion error and
    nothing was called. *)
Theorem fit_marks_fitted_on_success (ext : Collaborators) (s : BotorchStrategy)
    (st : state) :
  (forall st', fit ext s st = (Ok tt, st') ->
     exists e, experiments st = Some e /\ (0 < nrows e)%nat /\
       is_Ok (validate_experiments ext (domain s) e true) /\
       surrogate_fit ext e = Ok tt /\
       st' = set_is_fitted (record_event (Fit e) st)) /\
  (forall err st', fit ext s st = (Raise err, st') -> is_fitted st' = is_fitted st) /\
  (experiments st = None ->
   fit ext s st = (Raise (AssertionError "No fitting data available"), st)).
Proof.
  split; [|split].
  - intros st'. unfold fit. run_M; intros [= <-]. eexists. split; [done|].
    split; [by apply Nat.ltb_lt|]. split; [by eexists|].
    split; [|done].
    match goal with H : surrogate_fit ext _ = Ok ?u |- _ => by destruct u end.
  - intros err st'. unfold fit. run_M; by intros [= <- <-].
  - intros H. unfold fit, bind, read, raise. by rewrite H.
Qed.

(** ** Sufficient experiments *)

(** X9: appending experiments never makes sufficient experiments
    insufficient. *)
Theorem sufficient_experiments_stay_sufficient (s : BotorchStrategy) (e more : DataFrame) :
  has_sufficient_experiments s (Some e) = Ok true ->
  has_sufficient_experiments s (Some (concat_frames e more)) = Ok true.
Proof.
  unfold has_sufficient_experiments.
  destruct (get_fixed_features s) as [fixed|]; simpl; [|done].
  set (dof := _ - _).
  destruct (Z.gtb_spec (Z.of_nat (nrows e)) (dof + 1)); [|done]. intros _.
  destruct (Z.gtb_spec (Z.of_nat (nrows e + nrows more)) (dof + 1)); [done | lia].
Qed.

(** ** [tell] followed by [ask] *)

Lemma tell_refit ext s new_experiments replace st st1 :
  nrows new_experiments <> 0%nat ->
  tell ext s new_experiments replace true st = (Ok tt, st1) ->
  has_sufficient_experiments s (experiments st1) = Ok true ->
  is_fitted st1 = true /\
  exists fitted,
    experiments fitted = experiments st1 /\ is_fitted fitted = true /\
    _init_acqf ext fitted = (Ok tt, acqf st1).
Proof.
  intros Hn Htell Hs. unfold tell in Htell.
  destruct (Nat.eqb_spec (nrows new_experiments) 0) as [|_]; [done|].
  unfold bind at 1 in Htell.
  destruct (accumulate ext s new_experiments replace st) as [r1 st0] eqn:Hacc.
  apply accumulate_keeps in Hacc as (_ & _ & _ & Hexp).
  destruct r1 as [[]|err]; [|by inversion Htell].
  destruct (Hexp eq_refl) as [e He].
  unfold bind at 1, lift at 1 in Htell.
  destruct (preprocess_experiments_all_valid_outputs ext (domain s) new_experiments)
    as [cleaned|err]; [|by inversion Htell].
  unfold bind at 1, lift at 1 in Htell.
  destruct (check_fixed_columns (domain s) cleaned) as [[]|err]; [|by inversion Htell].
  unfold bind at 1, read at 1 in Htell. rewrite He in Htell.
  unfold bind at 1, lift at 1 in Htell.
  destruct (has_sufficient_experiments s (Some e)) as [[|]|err] eqn:Hs0;
    [| |by inversion Htell].
  - apply fit_then_tell in Htell as (e' & He' & Hinit & Hst1); [|done].
    split; [by rewrite Hst1|].
    exists (set_is_fitted (record_event (Fit e') st0)).
    split; [by rewrite Hst1|]. split; [done|]. exact Hinit.
  - inversion Htell; subst st1. rewrite He in Hs. congruence.
Qed.

(** X10: after a [tell] with a non-empty batch that returned and left
    sufficient experiments the surrogate is fitted, and the abstract
    [_init_acqf] was called on the fitted strategy and returned; whether
    [ask] can run is up to what that call left.  When it left no acquisition
    function, as the [pass] of the [DummyStrategy] of the tests does on a new
    strategy, [ask] fails the assertion of [_ask] on [self.acqf] and the
    strategy is as it was.  When it left one, no precondition or assertion of
    [ask] or [_ask] fails: if the bounds, the dispatch and the optimizer
    succeed and the optimizer returns the requested number of valid
    candidates, [ask] returns them after exactly one optimizer call. *)
Theorem ask_after_tell (ext : Collaborators) (s : BotorchStrategy)
    (new_experiments : DataFrame) (replace : bool) (st st1 : state) (n : Z) :
  nrows new_experiments <> 0%nat ->
  tell ext s new_experiments replace true st = (Ok tt, st1) ->
  has_sufficient_experiments s (experiments st1) = Ok true ->
  1 <= n ->
  is_fitted st1 = true /\
  (exists fitted,
     experiments fitted = experiments st1 /\ is_fitted fitted = true /\
     _init_acqf ext fitted = (Ok tt, acqf st1)) /\
  (acqf st1 = false ->
   exists msg, ask ext s (Some n) false None st1 = (Raise (AssertionError msg), st1)) /\
  (acqf st1 = true ->
   forall call new_candidates,
     get_bounds ext s = Ok tt ->
     choose_optimizer s = Ok call ->
     run_optimizer ext call n = Ok new_candidates ->
     is_Ok (validate_candidates ext (domain s) new_candidates) ->
     Z.of_nat (nrows new_candidates) = n ->
     ask ext s (Some n) false None st1
     = (Ok new_candidates, record_event (Optimize call) st1)).
Proof.
  intros Hn Htell Hs H1.
  destruct (tell_refit _ _ _ _ _ _ Hn Htell Hs) as [Hfit Hinit].
  split; [done|]. split; [done|]. split.
  - intros Hacqf. unfold ask, _ask, bind, raise, ret, read, lift.
    destruct (Z.ltb_spec n 1); [lia|]. rewrite Hs.
    destruct (Z.gtb_spec n 0); [|lia]. rewrite Hacqf. by eexists.
  - intros Hacqf call new_candidates Hb Hc Hr [c Hv] Hrows.
    unfold ask, _ask, bind, raise, ret, read, lift, modify.
    destruct (Z.ltb_spec n 1); [lia|]. rewrite Hs.
    destruct (Z.gtb_spec n 0); [|lia]. rewrite Hacqf, Hb, Hc, Hr, Hv.
    destruct (Z.eqb_spec (Z.of_nat (nrows new_candidates)) n); [done | lia].
Qed.

(** ** The operations at the example strategies *)

Lemma ask_returns_requested_count_witness :
  Z.of_nat (nrows (mkDataFrame 2 ∅)) = 2 /\
  has_sufficient_experiments line_strategy (experiments told) = Ok true.
Proof.
  destruct (ask_returns_requested_count trusting line_strategy (Some 2) false None told
              (record_event (Optimize (optimize_acqf ∅)) told) (mkDataFrame 2 ∅))
    as (H1 & _ & H3); [vm_compute; reflexivity|].
  split; [exact (proj2 (H1 2 eq_refl)) | exact H3].
Defined.

Lemma ask_runs_the_optimizer_once_witness :
  exists call,
    choose_optimizer line_strategy = Ok call /\
    run_optimizer trusting call 2 = Ok (mkDataFrame 2 ∅).
Proof.
  destruct (ask_runs_the_optimizer_once trusting line_strategy (Some 2) false told
              (record_event (Optimize (optimize_acqf ∅)) told) (mkDataFrame 2 ∅))
    as (n & call & Hn & _ & Hc & Hr & _); [vm_compute; reflexivity|].
  injection Hn as <-. exists call. split; [exact Hc | exact Hr].
Defined.

Lemma ask_add_pending_appends_witness :
  exists st', ask trusting line_strategy (Some 2) true None told = (Ok (mkDataFrame 2 ∅), st') /\
    num_candidates st' = 2%nat.
Proof.
  destruct (ask trusting line_strategy (Some 2) true None told) as [r st'] eqn:E.
  assert (Hr : r = Ok (mkDataFrame 2 ∅)).
  { apply (f_equal fst) in E. vm_compute in E. symmetry. exact E. }
  subst r. exists st'. split; [reflexivity|].
  destruct (ask_add_pending_appends trusting line_strategy (Some 2) None told st'
              (mkDataFrame 2 ∅) E) as (c & Hc & _ & Hnum).
  rewrite Hnum. injection Hc as <-. reflexivity.
Defined.

Lemma tell_stores_before_it_checks_witness :
  num_experiments (tell trusting line_strategy (frame 3) false true loaded).2 = 8%nat.
Proof.
  destruct (tell_stores_before_it_checks trusting line_strategy (frame 3) false true loaded)
    as [H _]; [discriminate|].
  destruct (H (frame 3) eq_refl) as [_ Hnum]. rewrite Hnum. reflexivity.
Defined.

Lemma sufficient_experiments_stay_sufficient_witness :
  has_sufficient_experiments line_strategy (Some (concat_frames (frame 3) (frame 1))) = Ok true.
Proof.
  apply (sufficient_experiments_stay_sufficient line_strategy (frame 3) (frame 1)).
  vm_compute. reflexivity.
Defined.

Lemma ask_after_tell_witness :
  ask trusting line_strategy (Some 2) false None told
  = (Ok (mkDataFrame 2 ∅), record_event (Optimize (optimize_acqf ∅)) told) /\
  exists msg,
    ask dummy line_strategy (Some 2) false None
      (tell dummy line_strategy (frame 3) false true fresh).2
    = (Raise (AssertionError msg), (tell dummy line_strategy (frame 3) false true fresh).2).
Proof.
  split.
  - destruct (ask_after_tell trusting line_strategy (frame 3) false fresh told 2)
      as (_ & _ & _ & H);
      [discriminate | vm_compute; reflexivity | vm_compute; reflexivity | lia |].
    apply (H eq_refl (optimize_acqf ∅) (mkDataFrame 2 ∅));
      [reflexivity | vm_compute; reflexivity | reflexivity | by eexists | reflexivity].
  - destruct (ask_after_tell dummy line_strategy (frame 3) false fresh
                (tell dummy line_strategy (frame 3) false true fresh).2 2)
      as (_ & _ & H & _);
      [discriminate | vm_compute; reflexivity | vm_compute; reflexivity | lia |].
    apply H. vm_compute. reflexivity.
Defined.

(** ** The composer without n-choose-k constraints *)

Lemma get_categorical_combinations_layout s ccs :
  get_categorical_combinations s = Ok ccs -> is_Ok (_features2idx s).
Proof.
  unfold get_categorical_combinations, get_fixed_features.
  destruct (_features2idx s) as [m|e]; [by eexists | done].
Qed.

Lemma get_nchoosek_combinations_none s m :
  _features2idx s = Ok m -> nchoosek (domain s) = [] ->
  get_nchoosek_combinations s = Ok [∅].
Proof.
  intros Hm Hn. unfold get_nchoosek_combinations, domain_get_nchoosek_combinations.
  rewrite Hm, Hn. reflexivity.
Qed.

Lemma bind_update_empty (ccs : list (gmap nat value)) :
  (ccs ≫= fun ff1 => update ff1 <$> [∅]) = ccs.
Proof.
  induction ccs as [|ff1 ccs IH]; [done|].
  rewrite bind_cons, IH. simpl. unfold update. by rewrite (left_id ∅ (∪)).
Qed.

(** X11: without n-choose-k constraints [get_fixed_values_list] returns what
    [get_categorical_combinations] returns, the same list or the same
    error. *)
Theorem get_fixed_values_list_without_constraints (s : BotorchStrategy) :
  nchoosek (domain s) = [] ->
  get_fixed_values_list s = get_categorical_combinations s.
Proof.
  intros Hn. unfold get_fixed_values_list.
  destruct (get_categorical_combinations s) as [ccs|e] eqn:Hc; [|done].
  destruct (get_categorical_combinations_layout s ccs Hc) as [m Hm].
  pose proof (get_nchoosek_combinations_none s m Hm Hn) as Hnck.
  rewrite bind_Ok_l, (compose_loop [∅] _ ccs [] Hnck). simpl.
  by rewrite bind_update_empty.
Qed.

(** ** The number of categorical combinations *)

Lemma length_product_choices {A} (ls : list (list A)) :
  length (product ls) = foldr (fun l n => (length l * n)%nat) 1%nat ls.
Proof.
  induction ls as [|l ls IH]; [done|]. rewrite length_product, IH. done.
Qed.

Lemma get_categorical_combinations_cases s fixed_basis l :
  get_fixed_features s = Ok fixed_basis ->
  all_free s = false ->
  get_categorical_combinations s = Ok l ->
  (length (enumerated_combos s) = 1%nat /\ l = [fixed_basis]) \/
  (length (enumerated_combos s) <> 1%nat /\
   exists m, _features2idx s = Ok m /\
     Forall2 (fun combo fd => for_each combo (overlay_pair s m) fixed_basis = Ok fd)
             (enumerated_combos s) l).
Proof.
  intros Hb Hfree. unfold get_categorical_combinations. rewrite Hb, bind_Ok_l, Hfree.
  case_bool_decide as Hone.
  - intros [= <-]. by left.
  - intros H. right. split; [done|].
    destruct (_features2idx s) as [m|]; [|done]. exists m. split; [done|].
    by apply collect_Ok.
Qed.

(** X12: unless all three methods are FREE, [get_categorical_combinations]
    returns on a well-formed strategy one dictionary per combination of the
    enumerated features: their number is the product of the numbers of
    choices (allowed categories, discrete values) of these features. *)
Theorem get_categorical_combinations_count (s : BotorchStrategy) :
  well_formed s ->
  all_free s = false ->
  exists fixed_features_list,
    get_categorical_combinations s = Ok fixed_features_list /\
    length fixed_features_list
    = foldr (fun feat n => (length (choices feat) * n)%nat) 1%nat (enumerated_features s).
Proof.
  intros Hwf Hfree. destruct (well_formed_covers s Hwf) as (m & Hm & Hcov).
  destruct (get_fixed_features_total s m Hwf Hm Hcov) as [base Hbase].
  destruct (get_categorical_combinations_total s m Hwf Hm Hcov) as [l Hl].
  exists l. split; [done|].
  assert (Hlen : length l = length (enumerated_combos s)).
  { destruct (get_categorical_combinations_cases s base l Hbase Hfree Hl)
      as [[H1 ->]|(_ & m' & _ & H2)]; [done|]. symmetry. by eapply Forall2_length. }
  rewrite Hlen, enumerated_combos_product, length_product_choices.
  induction (enumerated_features s) as [|f fs IH]; [done|].
  rewrite fmap_cons. simpl. by rewrite IH.
Qed.

(** ** What the enumeration leaves of the base dictionary *)

Lemma combo_frame s m combo ff ff' feat idxs idx :
  unique_keys (domain s) -> _features2idx s = Ok m ->
  combo ∈ enumerated_combos s ->
  for_each combo (overlay_pair s m) ff = Ok ff' ->
  feat ∈ inputs (domain s) -> feat ∉ enumerated_features s ->
  m !! key feat = Some idxs -> idx ∈ idxs ->
  ff' !! idx = ff !! idx.
Proof.
  intros Hnd Hm Hcombo H Hfeat Hnot Hidxs Hidx.
  apply (for_each_invariant (fun acc => acc !! idx = ff !! idx)) in H; [done| |done].
  intros p acc acc' Hp Hov Hacc. rewrite <- Hacc.
  eapply overlay_pair_frame; [exact Hov|].
  eapply (off_other_key s m (key feat) p.1 idxs idx Hm); [|done|done].
  intros Hk.
  assert (Hin : p.1 ∈ key <$> enumerated_features s).
  { rewrite <- (combo_keys s combo Hcombo). by apply list_elem_of_fmap_2. }
  apply list_elem_of_fmap in Hin as (g & Hg & Hgin).
  apply Hnot. rewrite Hg in Hk.
  rewrite (unique_keys_inj _ feat g Hnd Hfeat (enumerated_features_inputs s g Hgin) Hk).
  done.
Qed.

(** X13: unless all three methods are FREE, every dictionary of
    [get_categorical_combinations] agrees with the dictionary of
    [get_fixed_features] on the columns of every feature that is not
    enumerated: the pins of the fixed features are kept, only columns of
    enumerated features are overlaid. *)
Theorem get_categorical_combinations_keeps_base (s : BotorchStrategy) :
  well_formed s ->
  all_free s = false ->
  exists features2idx fixed_basis fixed_features_list,
    _features2idx s = Ok features2idx /\
    get_fixed_features s = Ok fixed_basis /\
    get_categorical_combinations s = Ok fixed_features_list /\
    forall fixed_features feat idxs idx,
      fixed_features ∈ fixed_features_list ->
      feat ∈ inputs (domain s) -> feat ∉ enumerated_features s ->
      features2idx !! key feat = Some idxs -> idx ∈ idxs ->
      fixed_features !! idx = fixed_basis !! idx.
Proof.
  intros Hwf Hfree. destruct (well_formed_covers s Hwf) as (m & Hm & Hcov).
  destruct (get_fixed_features_total s m Hwf Hm Hcov) as [base Hbase].
  destruct (get_categorical_combinations_total s m Hwf Hm Hcov) as [l Hl].
  exists m, base, l. split; [done|]. split; [done|]. split; [done|].
  intros fd feat idxs idx Hfd Hfeat Hnot Hidxs Hidx.
  destruct (get_categorical_combinations_cases s base l Hbase Hfree Hl)
    as [[_ ->]|(_ & m' & Hm' & H2)].
  - apply list_elem_of_singleton in Hfd. by subst fd.
  - rewrite Hm in Hm'. inversion Hm'; subst m'.
    apply list_elem_of_lookup in Hfd as [i Hi].
    destruct (Forall2_lookup_r _ _ _ _ _ H2 Hi) as (combo & Hcombo & Hrun).
    eapply (combo_frame s m combo base fd feat idxs idx); try done.
    + by apply wf_keys.
    + by eapply list_elem_of_lookup_2.
Qed.

(** ** The one-hot and the discrete branch of the inner loop *)

Lemma pin_onehot_choice_writes m feat feature val ff ff' idxs :
  m !! feat = Some idxs -> NoDup idxs ->
  pin_onehot_choice m feat feature val ff = Ok ff' ->
  forall j idx, idxs !! j = Some idx ->
    exists t, to_onehot_encoding feature val !! j = Some t /\ ff' !! idx = Some t.
Proof.
  intros Hidxs Hnd H j idx Hj. unfold pin_onehot_choice in H.
  rewrite Hidxs in H. simpl in H.
  edestruct (columns_written
               (fun j => or_raise IndexError (to_onehot_encoding feature val !! j)))
    as (t & Ht & Hff); [|exact Hnd|exact H|exact Hj|].
  { intros p a. reflexivity. }
  exists t. split; [|done]. cbv beta in Ht.
  destruct (to_onehot_encoding feature val !! j) as [t'|]; simpl in Ht; [by inversion Ht | done].
Qed.

Lemma pin_discrete_choice_writes m feat val ff ff' idxs idx :
  m !! feat = Some idxs -> idxs !! 0%nat = Some idx ->
  pin_discrete_choice m feat val ff = Ok ff' -> ff' !! idx = Some val.
Proof.
  intros Hidxs Hidx. unfold pin_discrete_choice. rewrite Hidxs. simpl. rewrite Hidx. simpl.
  intros [= <-]. apply lookup_insert_eq.
Qed.

(** The step of a pair of a combination, and what the loop over the
    combination leaves in the columns of its key. *)
Lemma combo_step s m combo ff ff' k val idxs :
  _features2idx s = Ok m -> NoDup combo.*1 ->
  for_each combo (overlay_pair s m) ff = Ok ff' ->
  (k, val) ∈ combo -> m !! k = Some idxs ->
  exists ffa ffb,
    overlay_pair s m (k, val) ffa = Ok ffb /\
    forall idx, idx ∈ idxs -> ff' !! idx = ffb !! idx.
Proof.
  intros Hm Hkeys H Hpair Hidxs.
  apply list_elem_of_split in Hpair as (c1 & c2 & ->).
  rewrite for_each_app in H. apply bind_Ok in H as (ffa & _ & H).
  simpl in H. apply bind_Ok in H as (ffb & Hstep & H).
  exists ffa, ffb. split; [done|]. intros idx Hidx.
  apply (for_each_invariant (fun acc => acc !! idx = ffb !! idx)) in H; [done| |done].
  intros p acc acc' Hp Hov Hacc. rewrite <- Hacc.
  eapply overlay_pair_frame; [exact Hov|].
  rewrite fmap_app, fmap_cons in Hkeys. simpl in Hkeys.
  apply NoDup_app in Hkeys as (_ & _ & Hk2). apply NoDup_cons in Hk2 as [Hk2 _].
  eapply (off_other_key s m k p.1 idxs idx Hm); [|done|done].
  intros Hk. apply Hk2. rewrite Hk. by apply list_elem_of_fmap_2.
Qed.

Lemma combo_pins_onehot s m combo ff ff' feat val idxs j idx cat :
  unique_keys (domain s) -> _features2idx s = Ok m ->
  NoDup combo.*1 ->
  for_each combo (overlay_pair s m) ff = Ok ff' ->
  feat ∈ inputs (domain s) -> isinstance feat cls_CategoricalInput = true ->
  ~ (isinstance feat cls_CategoricalDescriptorInput = true /\
     input_preprocessing_specs s !! key feat = Some DESCRIPTOR) ->
  (key feat, val) ∈ combo ->
  m !! key feat = Some idxs ->
  idxs !! j = Some idx -> categories feat !! j = Some cat ->
  ff' !! idx = Some (if value_eqb (Str cat) val then Float 1 else Float 0).
Proof.
  intros Hnd Hm Hkeys H Hfeat Hcat Hnot Hpair Hidxs Hj Hc.
  destruct (combo_step s m combo ff ff' (key feat) val idxs Hm Hkeys H Hpair Hidxs)
    as (ffa & ffb & Hstep & Hsame).
  rewrite (Hsame idx) by (by eapply list_elem_of_lookup_2).
  assert (Hnd' : NoDup idxs) by (by eapply transform_info_NoDup).
  assert (Hone : pin_onehot_choice m (key feat) feat val ffa = Ok ffb).
  { unfold overlay_pair in Hstep. cbn [fst snd] in Hstep.
    rewrite (get_by_key_unique _ _ Hnd Hfeat), bind_Ok_l, Hcat in Hstep.
    destruct (isinstance feat cls_CategoricalDescriptorInput) eqn:Hd; [|done].
    apply bind_Ok in Hstep as (e & He & Hstep).
    case_bool_decide as Hdesc; [|done]. exfalso. apply Hnot. split; [done|]. subst e.
    by destruct (input_preprocessing_specs s !! key feat) as [e|]; [inversion He|]. }
  destruct (pin_onehot_choice_writes _ _ _ _ _ _ _ Hidxs Hnd' Hone j idx Hj) as (t & Ht & ->).
  rewrite (onehot_lookup feat val j cat Hc) in Ht. by inversion Ht.
Qed.

Lemma combo_pins_discrete s m combo ff ff' feat val idxs idx :
  unique_keys (domain s) -> _features2idx s = Ok m ->
  NoDup combo.*1 ->
  for_each combo (overlay_pair s m) ff = Ok ff' ->
  feat ∈ inputs (domain s) -> isinstance feat cls_DiscreteInput = true ->
  (key feat, val) ∈ combo ->
  m !! key feat = Some idxs -> idxs !! 0%nat = Some idx ->
  ff' !! idx = Some val.
Proof.
  intros Hnd Hm Hkeys H Hfeat Hdisc Hpair Hidxs Hidx.
  destruct (combo_step s m combo ff ff' (key feat) val idxs Hm Hkeys H Hpair Hidxs)
    as (ffa & ffb & Hstep & Hsame).
  rewrite (Hsame idx) by (by eapply list_elem_of_lookup_2).
  unfold overlay_pair in Hstep. cbn [fst snd] in Hstep.
  rewrite (get_by_key_unique _ _ Hnd Hfeat), bind_Ok_l in Hstep.
  destruct feat; try discriminate. simpl in Hstep.
  by eapply pin_discrete_choice_writes.
Qed.

(** X14: on a well-formed strategy that enumerates more or less than one
    combination, the dictionary at the position of a combination holds the
    choice of every enumerated feature: the first column of a discrete
    feature is pinned to the chosen value, and the columns of a categorical
    feature that does not take the descriptor branch are pinned to the
    one-hot row of the chosen category, 1 at the column of the category and
    0 at the others, whatever encoding the feature has. *)
Theorem get_categorical_combinations_pins_choices (s : BotorchStrategy) :
  well_formed s ->
  all_free s = false ->
  length (enumerated_combos s) <> 1%nat ->
  exists features2idx fixed_features_list,
    _features2idx s = Ok features2idx /\
    get_categorical_combinations s = Ok fixed_features_list /\
    forall i combo feat val idxs,
      enumerated_combos s !! i = Some combo ->
      feat ∈ inputs (domain s) -> (key feat, val) ∈ combo ->
      features2idx !! key feat = Some idxs ->
      exists fixed_features,
        fixed_features_list !! i = Some fixed_features /\
        (isinstance feat cls_DiscreteInput = true ->
         forall idx, idxs !! 0%nat = Some idx -> fixed_features !! idx = Some val) /\
        (isinstance feat cls_CategoricalInput = true ->
         ~ (isinstance feat cls_CategoricalDescriptorInput = true /\
            input_preprocessing_specs s !! key feat = Some DESCRIPTOR) ->
         forall j idx cat,
           idxs !! j = Some idx -> categories feat !! j = Some cat ->
           fixed_features !! idx
           = Some (if value_eqb (Str cat) val then Float 1 else Float 0)).
Proof.
  intros Hwf Hfree Hmany. destruct (well_formed_covers s Hwf) as (m & Hm & Hcov).
  destruct (get_fixed_features_total s m Hwf Hm Hcov) as [base Hbase].
  destruct (get_categorical_combinations_total s m Hwf Hm Hcov) as [l Hl].
  exists m, l. split; [done|]. split; [done|].
  intros i combo feat val idxs Hi Hfeat Hpair Hidxs.
  destruct (get_categorical_combinations_cases s base l Hbase Hfree Hl)
    as [[H1 _]|(_ & m' & Hm' & H2)]; [done|].
  rewrite Hm in Hm'. inversion Hm'; subst m'.
  destruct (Forall2_lookup_l _ _ _ _ _ H2 Hi) as (fd & Hfd & Hrun).
  assert (Hkeys : NoDup combo.*1).
  { apply (combo_keys_NoDup s); [by apply wf_keys | by eapply list_elem_of_lookup_2]. }
  exists fd. split; [done|]. split.
  - intros Hdisc idx Hidx.
    exact (combo_pins_discrete s m combo base fd feat val idxs idx (wf_keys s Hwf) Hm
             Hkeys Hrun Hfeat Hdisc Hpair Hidxs Hidx).
  - intros Hcat Hnot j idx cat Hj Hc.
    exact (combo_pins_onehot s m combo base fd feat val idxs j idx cat (wf_keys s Hwf) Hm
             Hkeys Hrun Hfeat Hcat Hnot Hpair Hidxs Hj Hc).
Qed.

(** ** What [get_fixed_features] does not pin *)

Lemma off_key_dec m k c :
  off_key m k c \/ exists idxs, m !! k = Some idxs /\ c ∈ idxs.
Proof.
  unfold off_key. destruct (m !! k) as [idxs|]; [|by left].
  destruct (decide (c ∈ idxs)); [right; eauto | left]. by intros ? [= <-].
Qed.

Lemma pin_fixed_value_not_fixed s m feat ff ff' :
  is_fixed feat = false -> pin_fixed_value s m feat ff = Ok ff' -> ff' = ff.
Proof.
  intros Hfree. unfold pin_fixed_value. intros H.
  apply bind_Ok in H as (o & Ho & H). destruct o as [x|]; [|by inversion H].
  apply fixed_value_is_fixed in Ho. congruence.
Qed.

(** The feature whose columns a pinned column belongs to. *)
Lemma loop_owned s m (body : Input -> gmap nat value -> result (gmap nat value))
    (feats : list Input) ff ff' :
  (forall g acc acc' c, body g acc = Ok acc' -> off_key m (key g) c -> acc' !! c = acc !! c) ->
  (forall g, g ∈ feats -> g ∈ inputs (domain s)) ->
  for_each feats body ff = Ok ff' ->
  (forall idx v, ff !! idx = Some v ->
     exists g idxs, g ∈ inputs (domain s) /\ m !! key g = Some idxs /\ idx ∈ idxs) ->
  forall idx v, ff' !! idx = Some v ->
    exists g idxs, g ∈ inputs (domain s) /\ m !! key g = Some idxs /\ idx ∈ idxs.
Proof.
  intros Hframe Hin. revert ff ff'.
  apply (for_each_invariant
           (fun acc => forall idx v, acc !! idx = Some v ->
              exists g idxs, g ∈ inputs (domain s) /\ m !! key g = Some idxs /\ idx ∈ idxs)).
  intros g acc acc' Hg Hbody Hacc idx v Hv.
  destruct (off_key_dec m (key g) idx) as [Hoff|(idxs & Hidxs & Hidx)].
  - rewrite (Hframe g acc acc' idx Hbody Hoff) in Hv. by eapply Hacc.
  - exists g, idxs. auto.
Qed.

Lemma get_fixed_features_owned s m ff idx v :
  well_formed s -> _features2idx s = Ok m -> get_fixed_features s = Ok ff ->
  ff !! idx = Some v ->
  exists g idxs, g ∈ inputs (domain s) /\ m !! key g = Some idxs /\ idx ∈ idxs.
Proof.
  intros Hwf Hm Hff.
  destruct (get_fixed_features_parts s m ff Hm Hff) as (ff1 & ff2 & H1 & H2 & H3).
  assert (O1 : forall idx v, ff1 !! idx = Some v ->
            exists g idxs, g ∈ inputs (domain s) /\ m !! key g = Some idxs /\ idx ∈ idxs).
  { eapply (loop_owned s m (pin_fixed_value s m)); [| |exact H1|].
    - intros g acc acc' c. apply pin_fixed_value_frame.
    - done.
    - intros i w Hi. by rewrite lookup_empty in Hi. }
  assert (O2 : forall idx v, ff2 !! idx = Some v ->
            exists g idxs, g ∈ inputs (domain s) /\ m !! key g = Some idxs /\ idx ∈ idxs).
  { destruct (_ && _) in H2; [|by subst ff2].
    destruct H2 as (feats & Hfeats & H2).
    eapply (loop_owned s m (pin_forbidden m)); [| |exact H2|exact O1].
    - intros g acc acc' c Hb Hoff. eapply pin_forbidden_frame; [exact Hb | done].
    - intros g Hg. by destruct (features_with_spec_sound _ _ _ _ _ _ Hfeats Hg). }
  revert idx v. destruct (_ && _) in H3; [|by subst ff].
  destruct H3 as (feats & Hfeats & H3).
  eapply (loop_owned s m (pin_constant_descriptor m)); [| |exact H3|exact O2].
  - intros g acc acc' c Hb Hoff. eapply pin_constant_descriptor_frame; [exact Hb | done].
  - intros g Hg. by destruct (features_with_spec_sound _ _ _ _ _ _ Hfeats Hg).
Qed.

Lemma other_features_off s m feat idxs idx g :
  unique_keys (domain s) -> _features2idx s = Ok m ->
  feat ∈ inputs (domain s) -> m !! key feat = Some idxs -> idx ∈ idxs ->
  g ∈ inputs (domain s) -> g <> feat -> off_key m (key g) idx.
Proof.
  intros Hnd Hm Hfeat Hidxs Hidx Hg Hne.
  eapply (off_other_key s m (key feat) (key g) idxs idx Hm); [|done|done].
  intros Hk. apply Hne. symmetry. by eapply unique_keys_inj.
Qed.

(** The first loop leaves the columns of a feature that is not fixed. *)
Lemma first_loop_free s m ff1 feat idxs idx :
  unique_keys (domain s) -> _features2idx s = Ok m ->
  for_each (inputs (domain s)) (pin_fixed_value s m) ∅ = Ok ff1 ->
  feat ∈ inputs (domain s) -> is_fixed feat = false ->
  m !! key feat = Some idxs -> idx ∈ idxs ->
  ff1 !! idx = None.
Proof.
  intros Hnd Hm H1 Hfeat Hfree Hidxs Hidx.
  rewrite <- (lookup_empty (M := gmap nat) (A := value) idx).
  eapply (features_frame (pin_fixed_value s m) (inputs (domain s)) ∅ ff1 idx
            (fun g => g ∈ inputs (domain s))); [|done|exact H1].
  intros g acc acc' Hb Hg. destruct (decide (key g = key feat)) as [Hk|Hne].
  - rewrite (unique_keys_inj _ g feat Hnd Hg Hfeat Hk) in Hb.
    by rewrite (pin_fixed_value_not_fixed _ _ _ _ _ Hfree Hb).
  - eapply pin_fixed_value_frame; [exact Hb|].
    apply (other_features_off s m feat idxs idx g Hnd Hm Hfeat Hidxs Hidx Hg).
    by intros ->.
Qed.

(** The second loop leaves the columns of a feature that is not a one-hot
    encoded categorical one. *)
Lemma second_loop_free s m feats ff1 ff2 feat idxs idx :
  well_formed s -> _features2idx s = Ok m ->
  features_with_spec (domain s) (input_preprocessing_specs s) ONE_HOT
    (get_keys (domain s) cls_CategoricalInput) = Ok feats ->
  for_each feats (pin_forbidden m) ff1 = Ok ff2 ->
  feat ∈ inputs (domain s) ->
  ~ (isinstance feat cls_CategoricalInput = true /\
     input_preprocessing_specs s !! key feat = Some ONE_HOT) ->
  m !! key feat = Some idxs -> idx ∈ idxs ->
  ff2 !! idx = ff1 !! idx.
Proof.
  intros Hwf Hm Hfeats H2 Hfeat Hcat Hidxs Hidx.
  eapply (features_frame (pin_forbidden m) feats ff1 ff2 idx
            (fun g => g ∈ inputs (domain s) /\ g <> feat)); [| |exact H2].
  - intros g acc acc' Hb [Hg Hne]. eapply pin_forbidden_frame; [exact Hb|].
    intros _.
    exact (other_features_off s m feat idxs idx g (wf_keys s Hwf) Hm Hfeat Hidxs Hidx Hg Hne).
  - intros g Hg. destruct (selection_class s _ _ _ g Hwf Hfeats Hg) as (Hin & Hc & Hs).
    split; [done|]. intros ->. apply Hcat. auto.
Qed.

(** The three ways a feature gets pinned columns. *)
Lemma get_fixed_features_free s m ff feat idxs idx :
  well_formed s -> _features2idx s = Ok m -> get_fixed_features s = Ok ff ->
  feat ∈ inputs (domain s) ->
  is_fixed feat = false ->
  ~ (categorical_method s = FREE /\ isinstance feat cls_CategoricalInput = true /\
     input_preprocessing_specs s !! key feat = Some ONE_HOT) ->
  ~ (descriptor_method s = FREE /\ isinstance feat cls_CategoricalDescriptorInput = true /\
     input_preprocessing_specs s !! key feat = Some DESCRIPTOR) ->
  m !! key feat = Some idxs -> idx ∈ idxs ->
  ff !! idx = None.
Proof.
  intros Hwf Hm Hff Hfeat Hfree Hcat Hdesc Hidxs Hidx.
  pose proof (wf_keys s Hwf) as Hnd.
  destruct (get_fixed_features_parts s m ff Hm Hff) as (ff1 & ff2 & H1 & H2 & H3).
  pose proof (first_loop_free s m ff1 feat idxs idx Hnd Hm H1 Hfeat Hfree Hidxs Hidx) as E1.
  assert (E2 : ff2 !! idx = None).
  { rewrite <- E1. destruct (_ && _) eqn:Hon in H2; [|by subst ff2].
    destruct H2 as (feats & Hfeats & H2).
    apply andb_true_iff in Hon as [Hmeth _]. apply bool_decide_eq_true in Hmeth.
    apply (second_loop_free s m feats ff1 ff2 feat idxs idx Hwf Hm Hfeats H2 Hfeat);
      [|done|done].
    intros [Hc Hs]. apply Hcat. auto. }
  rewrite <- E2. destruct (_ && _) eqn:Hon in H3; [|by subst ff].
  destruct H3 as (feats & Hfeats & H3).
  apply andb_true_iff in Hon as [Hmeth _]. apply bool_decide_eq_true in Hmeth.
  eapply (third_loop_frame m feats ff2 ff idx H3).
  intros g Hg _. destruct (selection_class s _ _ _ g Hwf Hfeats Hg) as (Hin & Hc & Hs).
  apply (other_features_off s m feat idxs idx g Hnd Hm Hfeat Hidxs Hidx Hin).
  intros ->. apply Hdesc. auto.
Qed.

(** The second loop leaves the column of a category that is not forbidden. *)
Lemma pin_forbidden_allowed m feat ff ff' idxs j idx cat :
  m !! key feat = Some idxs -> NoDup idxs ->
  idxs !! j = Some idx -> categories feat !! j = Some cat ->
  cat ∉ get_forbidden_categories feat ->
  pin_forbidden m feat ff = Ok ff' -> ff' !! idx = ff !! idx.
Proof.
  intros Hidxs Hnd Hj Hcj Hallowed H. unfold pin_forbidden in H.
  destruct (isinstance feat cls_CategoricalInput); [|done].
  destruct (is_fixed feat); [by inversion H|].
  apply (for_each_invariant (fun acc => acc !! idx = ff !! idx)) in H; [done| |done].
  intros cat' acc acc' Hcat' Hstep Hacc. rewrite <- Hacc.
  rewrite Hidxs in Hstep. simpl in Hstep.
  apply (for_each_invariant (fun a => a !! idx = acc !! idx)) in Hstep; [done| |done].
  intros p a a' Hp Hbody Ha. rewrite <- Ha.
  apply bind_Ok in Hbody as (t & Ht & Hbody).
  destruct (decide (p.2 = idx)) as [Heq|Hne].
  - apply elem_of_enumerate in Hp. rewrite Heq in Hp.
    assert (Hpj : p.1 = j) by (eapply NoDup_lookup; eauto).
    rewrite Hpj, (onehot_lookup feat (Str cat') j cat Hcj) in Ht. simpl in Ht.
    rewrite bool_decide_eq_false_2 in Ht by (intros ->; done).
    inversion Ht; subst t. by inversion Hbody.
  - destruct (value_eqb t (Float 1)); inversion Hbody; [|done].
    by apply lookup_insert_ne.
Qed.

Lemma second_loop_allowed s m feats ff1 ff2 feat idxs j idx cat :
  well_formed s -> _features2idx s = Ok m ->
  features_with_spec (domain s) (input_preprocessing_specs s) ONE_HOT
    (get_keys (domain s) cls_CategoricalInput) = Ok feats ->
  for_each feats (pin_forbidden m) ff1 = Ok ff2 ->
  feat ∈ inputs (domain s) ->
  m !! key feat = Some idxs -> idxs !! j = Some idx ->
  categories feat !! j = Some cat -> cat ∉ get_forbidden_categories feat ->
  ff2 !! idx = ff1 !! idx.
Proof.
  intros Hwf Hm Hfeats H2 Hfeat Hidxs Hj Hcj Hallowed.
  pose proof (wf_keys s Hwf) as Hnd.
  assert (Hidx : idx ∈ idxs) by (by eapply list_elem_of_lookup_2).
  eapply (features_frame (pin_forbidden m) feats ff1 ff2 idx
            (fun g => g ∈ inputs (domain s))); [| |exact H2].
  - intros g acc acc' Hb Hg. destruct (decide (key g = key feat)) as [Hk|Hne].
    + rewrite (unique_keys_inj _ g feat Hnd Hg Hfeat Hk) in Hb.
      eapply (pin_forbidden_allowed m feat acc acc' idxs j idx cat); eauto.
      by eapply transform_info_NoDup.
    + eapply pin_forbidden_frame; [exact Hb|]. intros _.
      apply (other_features_off s m feat idxs idx g Hnd Hm Hfeat Hidxs Hidx Hg).
      by intros ->.
  - intros g Hg. by destruct (selection_class s _ _ _ g Hwf Hfeats Hg).
Qed.

(** The one-hot columns of a categorical feature that is not fixed. *)
Lemma get_fixed_features_onehot s m ff feat idxs j idx cat :
  well_formed s -> _features2idx s = Ok m -> get_fixed_features s = Ok ff ->
  feat ∈ inputs (domain s) -> is_fixed feat = false ->
  isinstance feat cls_CategoricalInput = true ->
  input_preprocessing_specs s !! key feat = Some ONE_HOT ->
  m !! key feat = Some idxs -> idxs !! j = Some idx -> categories feat !! j = Some cat ->
  ff !! idx = if bool_decide (categorical_method s = FREE)
                 && bool_decide (cat ∈ get_forbidden_categories feat)
              then Some (Float 0) else None.
Proof.
  intros Hwf Hm Hff Hfeat Hfree Hcat Hspec Hidxs Hj Hcj.
  pose proof (wf_keys s Hwf) as Hnd.
  assert (Hidx : idx ∈ idxs) by (by eapply list_elem_of_lookup_2).
  destruct (get_fixed_features_parts s m ff Hm Hff) as (ff1 & ff2 & H1 & H2 & H3).
  pose proof (first_loop_free s m ff1 feat idxs idx Hnd Hm H1 Hfeat Hfree Hidxs Hidx) as E1.
  assert (E3 : ff !! idx = ff2 !! idx).
  { destruct (_ && _) in H3; [|by subst ff].
    destruct H3 as (feats & Hfeats & H3).
    eapply (third_loop_frame m feats ff2 ff idx H3).
    intros g Hg _. destruct (selection_class s _ _ _ g Hwf Hfeats Hg) as (Hin & Hc & Hs).
    apply (other_features_off s m feat idxs idx g Hnd Hm Hfeat Hidxs Hidx Hin).
    intros ->. congruence. }
  rewrite E3.
  rewrite (bool_decide_eq_true_2 (ONE_HOT ∈ spec_values s)) in H2
    by (by eapply spec_values_elem).
  rewrite andb_true_r in H2.
  destruct (bool_decide (categorical_method s = FREE)); simpl in H2 |- *;
    [|by rewrite H2].
  destruct H2 as (feats & Hfeats & H2).
  clear H3. destruct (decide (cat ∈ get_forbidden_categories feat)) as [Hforb|Hforb];
    [rewrite bool_decide_eq_true_2 by done | rewrite bool_decide_eq_false_2 by done].
  - exact (second_loop_pins s m feats ff1 ff2 feat idxs j idx cat Hnd Hfeats H2 Hfeat Hcat
             Hspec Hfree Hidxs Hj Hcj Hforb).
  - rewrite <- E1.
    exact (second_loop_allowed s m feats ff1 ff2 feat idxs j idx cat Hwf Hm Hfeats H2 Hfeat
             Hidxs Hj Hcj Hforb).
Qed.

(** X15: what [get_fixed_features] leaves free.  On a well-formed strategy
    every pinned column is a column of a feature of the domain that is fixed,
    or is a one-hot encoded categorical feature while [categorical_method] is
    FREE, or is a descriptor encoded feature while [descriptor_method] is
    FREE.  The columns of a continuous or discrete feature that is not fixed
    are never pinned.  Of a one-hot encoded categorical feature that is not
    fixed, a column is pinned exactly when [categorical_method] is FREE and
    its category is forbidden, and then to 0: the columns of the allowed
    categories stay free.  With no fixed feature and both methods EXHAUSTIVE
    the dictionary is empty. *)
Theorem get_fixed_features_leaves_free (s : BotorchStrategy) :
  well_formed s ->
  exists features2idx fixed_features,
    _features2idx s = Ok features2idx /\
    get_fixed_features s = Ok fixed_features /\
    (forall idx v, fixed_features !! idx = Some v ->
       exists feat idxs,
         feat ∈ inputs (domain s) /\ features2idx !! key feat = Some idxs /\ idx ∈ idxs /\
         (is_fixed feat = true \/
          (categorical_method s = FREE /\ isinstance feat cls_CategoricalInput = true /\
           input_preprocessing_specs s !! key feat = Some ONE_HOT) \/
          (descriptor_method s = FREE /\
           isinstance feat cls_CategoricalDescriptorInput = true /\
           input_preprocessing_specs s !! key feat = Some DESCRIPTOR))) /\
    (forall feat idxs idx,
       feat ∈ inputs (domain s) -> is_fixed feat = false ->
       isinstance feat cls_CategoricalInput = false ->
       features2idx !! key feat = Some idxs -> idx ∈ idxs ->
       fixed_features !! idx = None) /\
    (forall feat idxs j idx cat,
       feat ∈ inputs (domain s) -> is_fixed feat = false ->
       isinstance feat cls_CategoricalInput = true ->
       input_preprocessing_specs s !! key feat = Some ONE_HOT ->
       features2idx !! key feat = Some idxs -> idxs !! j = Some idx ->
       categories feat !! j = Some cat ->
       fixed_features !! idx
       = if bool_decide (categorical_method s = FREE)
            && bool_decide (cat ∈ get_forbidden_categories feat)
         then Some (Float 0) else None) /\
    ((forall feat, feat ∈ inputs (domain s) -> is_fixed feat = false) ->
     categorical_method s = EXHAUSTIVE -> descriptor_method s = EXHAUSTIVE ->
     fixed_features = ∅).
Proof.
  intros Hwf. destruct (well_formed_covers s Hwf) as (m & Hm & Hcov).
  destruct (get_fixed_features_total s m Hwf Hm Hcov) as [ff Hff].
  exists m, ff. split; [done|]. split; [done|].
  assert (Hkind : forall idx v, ff !! idx = Some v ->
    exists feat idxs,
      feat ∈ inputs (domain s) /\ m !! key feat = Some idxs /\ idx ∈ idxs /\
      (is_fixed feat = true \/
       (categorical_method s = FREE /\ isinstance feat cls_CategoricalInput = true /\
        input_preprocessing_specs s !! key feat = Some ONE_HOT) \/
       (descriptor_method s = FREE /\
        isinstance feat cls_CategoricalDescriptorInput = true /\
        input_preprocessing_specs s !! key feat = Some DESCRIPTOR))).
  { intros idx v Hv.
    destruct (get_fixed_features_owned s m ff idx v Hwf Hm Hff Hv)
      as (feat & idxs & Hfeat & Hidxs & Hidx).
    exists feat, idxs. split; [done|]. split; [done|]. split; [done|].
    destruct (is_fixed feat) eqn:Hfix; [by left | right].
    destruct (decide (categorical_method s = FREE /\
                      isinstance feat cls_CategoricalInput = true /\
                      input_preprocessing_specs s !! key feat = Some ONE_HOT))
      as [Hc|Hc]; [by left | right].
    destruct (decide (descriptor_method s = FREE /\
                      isinstance feat cls_CategoricalDescriptorInput = true /\
                      input_preprocessing_specs s !! key feat = Some DESCRIPTOR))
      as [Hd|Hd]; [done | exfalso].
    rewrite (get_fixed_features_free s m ff feat idxs idx) in Hv; done. }
  split; [exact Hkind|]. split; [|split].
  - intros feat idxs idx Hfeat Hfix Hcat Hidxs Hidx.
    eapply (get_fixed_features_free s m ff feat idxs idx); try done.
    + intros (_ & H & _). congruence.
    + intros (_ & H & _). apply descriptor_is_categorical in H. congruence.
  - intros feat idxs j idx cat Hfeat Hfix Hcat Hspec Hidxs Hj Hcj.
    exact (get_fixed_features_onehot s m ff feat idxs j idx cat Hwf Hm Hff Hfeat Hfix Hcat
             Hspec Hidxs Hj Hcj).
  - intros Hnone Hc Hd. apply map_empty. intros idx.
    destruct (ff !! idx) as [v|] eqn:Hv; [exfalso | done].
    destruct (Hkind idx v Hv) as (feat & idxs & Hfeat & _ & _ & [H|[(H & _)|(H & _)]]).
    + rewrite (Hnone feat Hfeat) in H. discriminate.
    + congruence.
    + congruence.
Qed.

(** ** The enumerators at the example strategies *)

Lemma mixed_exhaustive_strategy_well_formed : well_formed mixed_exhaustive_strategy.
Proof.
  split.
  - apply (bool_decide_unpack _). vm_compute. exact I.
  - valid_features.
  - intros c k Hc. simpl in Hc. by apply elem_of_nil in Hc.
Qed.

Lemma get_fixed_values_list_without_constraints_witness :
  nchoosek (domain exhaustive_strategy) = [] /\
  get_fixed_values_list exhaustive_strategy = get_categorical_combinations exhaustive_strategy.
Proof.
  split; [reflexivity|].
  apply (get_fixed_values_list_without_constraints exhaustive_strategy). reflexivity.
Defined.

Lemma get_categorical_combinations_count_witness :
  exists fixed_features_list,
    get_categorical_combinations exhaustive_strategy = Ok fixed_features_list /\
    length fixed_features_list = 18%nat.
Proof.
  destruct (get_categorical_combinations_count exhaustive_strategy
              exhaustive_strategy_well_formed eq_refl) as (l & Hl & Hlen).
  exists l. split; [exact Hl|]. rewrite Hlen. vm_compute. reflexivity.
Defined.

Lemma get_categorical_combinations_keeps_base_witness :
  exists fixed_features_list,
    get_categorical_combinations mixed_exhaustive_strategy = Ok fixed_features_list /\
    forall fixed_features, fixed_features ∈ fixed_features_list ->
      fixed_features !! 1%nat = Some (Float 3).
Proof.
  destruct (get_categorical_combinations_keeps_base mixed_exhaustive_strategy
              mixed_exhaustive_strategy_well_formed eq_refl)
    as (m & base & l & Hm & Hbase & Hl & Hkeep).
  assert (E : _features2idx mixed_exhaustive_strategy = Ok mixed_layout)
    by (vm_compute; reflexivity).
  rewrite E in Hm. injection Hm as <-.
  assert (B : get_fixed_features mixed_exhaustive_strategy
              = Ok (unwrap_dict (get_fixed_features mixed_exhaustive_strategy)))
    by (vm_compute; reflexivity).
  rewrite B in Hbase. injection Hbase as <-.
  exists l. split; [exact Hl|]. intros fd Hfd.
  rewrite (Hkeep fd (ContinuousInput "if2" 3 3) [1%nat] 1%nat Hfd).
  - vm_compute. reflexivity.
  - in_list.
  - vm_compute. intros H.
    repeat (apply elem_of_cons in H as [H|H]; [discriminate H|]).
    by apply elem_of_nil in H.
  - vm_compute. reflexivity.
  - in_list.
Defined.

Lemma get_categorical_combinations_pins_choices_witness :
  exists fixed_features_list fixed_features,
    get_categorical_combinations exhaustive_strategy = Ok fixed_features_list /\
    fixed_features_list !! 0%nat = Some fixed_features /\
    fixed_features !! 1%nat = Some (Float 1) /\
    fixed_features !! 4%nat = Some (Float 1) /\
    fixed_features !! 5%nat = Some (Float 0).
Proof.
  destruct (get_categorical_combinations_pins_choices exhaustive_strategy
              exhaustive_strategy_well_formed eq_refl)
    as (m & l & Hm & Hl & Hpins); [vm_compute; discriminate|].
  assert (E : _features2idx exhaustive_strategy = Ok exhaustive_layout)
    by (vm_compute; reflexivity).
  rewrite E in Hm. injection Hm as <-.
  destruct (Hpins 0%nat [("if5", Str "c1"); ("if3", Str "c1"); ("if9", Float 1)]
              (DiscreteInput "if9" [1; 2]%Q) (Float 1) [1%nat])
    as (fd & Hfd & Hdisc & _);
    [vm_compute; reflexivity | in_list | in_list | vm_compute; reflexivity |].
  destruct (Hpins 0%nat [("if5", Str "c1"); ("if3", Str "c1"); ("if9", Float 1)]
              (CategoricalInput "if3" ["c1"; "c2"; "c3"] [true; true; true]) (Str "c1")
              [4%nat; 5%nat; 6%nat])
    as (fd' & Hfd' & _ & Hcat);
    [vm_compute; reflexivity | in_list | in_list | vm_compute; reflexivity |].
  rewrite Hfd in Hfd'. injection Hfd' as <-.
  exists l, fd. split; [exact Hl|]. split; [exact Hfd|]. split; [|split].
  - apply (Hdisc eq_refl). reflexivity.
  - apply (Hcat eq_refl) with (j := 0%nat) (cat := "c1"); [|reflexivity|reflexivity].
    intros [H _]. discriminate H.
  - apply (Hcat eq_refl) with (j := 1%nat) (cat := "c2"); [|reflexivity|reflexivity].
    intros [H _]. discriminate H.
Defined.

Lemma get_fixed_features_leaves_free_witness :
  exists fixed_features,
    get_fixed_features mixed_strategy = Ok fixed_features /\
    fixed_features !! 0%nat = None /\
    fixed_features !! 2%nat = None /\
    fixed_features !! 4%nat = Some (Float 0).
Proof.
  destruct (get_fixed_features_leaves_free mixed_strategy mixed_strategy_well_formed)
    as (m & ff & Hm & Hff & _ & Hfree & Hhot & _).
  assert (E : _features2idx mixed_strategy = Ok mixed_layout) by (vm_compute; reflexivity).
  rewrite E in Hm. injection Hm as <-.
  exists ff. split; [exact Hff|]. split; [|split].
  - apply (Hfree (ContinuousInput "if1" 3 (53 # 10)) [0%nat] 0%nat);
      [in_list | reflexivity | reflexivity | vm_compute; reflexivity | in_list].
  - apply (Hhot (CategoricalInput "if3" ["c1"; "c2"; "c3"] [true; true; false])
             [2%nat; 3%nat; 4%nat] 0%nat 2%nat "c1");
      try reflexivity; try (vm_compute; reflexivity); in_list.
  - apply (Hhot (CategoricalInput "if3" ["c1"; "c2"; "c3"] [true; true; false])
             [2%nat; 3%nat; 4%nat] 2%nat 4%nat "c3");
      try reflexivity; try (vm_compute; reflexivity); in_list.
Defined.

(** ** The data model *)

(** X16: [is_power_of_two] holds exactly for the numbers [2 ^ k] with a
    natural [k]; it is false for zero and for every negative number, and the
    double of a power of two is one. *)
Theorem is_power_of_two_characterized (n : Z) :
  (DataModel.is_power_of_two n = true <-> exists k, 0 <= k /\ n = 2 ^ k) /\
  (n <= 0 -> DataModel.is_power_of_two n = false) /\
  (DataModel.is_power_of_two n = true -> DataModel.is_power_of_two (2 * n) = true).
Proof.
  split; [apply is_power_of_two_spec|]. split.
  - intros Hn. apply is_power_of_two_false. intros (k & Hk & ->).
    pose proof (Z.pow_pos_nonneg 2 k). lia.
  - rewrite !is_power_of_two_spec. intros (k & Hk & ->). exists (k + 1).
    split; [lia|]. rewrite Z.pow_add_r by lia. lia.
Qed.

(** X17: the constructor accepts the fields it does not reject: with
    [num_sobol_samples] and [num_raw_samples] powers of two and a positive
    [num_restarts], which needs not be a power of two, the outcome of the
    construction is the outcome of the root validator as pydantic reports it.
    A model the root validator returns is returned; a [ValueError] of the root
    validator arrives as a [ValidationError] that carries its message; a
    [KeyError], which pydantic does not catch, arrives as it is. *)
Theorem construct_accepts_valid_fields {R}
    (root : DataModel.BotorchStrategy R -> result (DataModel.BotorchStrategy R))
    (values : DataModel.BotorchStrategy R) :
  DataModel.power_of_two (DataModel.num_sobol_samples values) ->
  0 < DataModel.num_restarts values ->
  DataModel.power_of_two (DataModel.num_raw_samples values) ->
  DataModel.construct root values = DataModel.run_root_validator (root values) /\
  (forall v, root values = Ok v -> DataModel.construct root values = Ok v) /\
  (forall msg, root values = Raise (ValueError msg) ->
     DataModel.construct root values = Raise (ValidationError [msg])) /\
  (forall k, root values = Raise (KeyError k) ->
     DataModel.construct root values = Raise (KeyError k)).
Proof.
  intros Hs Hr Hw.
  assert (Hpos : forall n, DataModel.power_of_two n -> 0 < n).
  { intros n (k & Hk & ->). by apply Z.pow_pos_nonneg. }
  apply is_power_of_two_spec in Hs as Hs'. apply is_power_of_two_spec in Hw as Hw'.
  assert (E : DataModel.construct root values = DataModel.run_root_validator (root values)).
  { unfold DataModel.construct.
    rewrite validate_field_sobol, validate_field_raw, Hs', Hw' by auto.
    unfold DataModel.validate_field, DataModel.validate_PositiveInt.
    destruct (Z.ltb_spec 0 (DataModel.num_restarts values)); [done | lia]. }
  split; [exact E|]. rewrite E.
  repeat split; intros ? ->; reflexivity.
Qed.

Lemma construct_accepts_valid_fields_witness :
  DataModel.construct (fun v : DataModel.BotorchStrategy unit => Ok v)
    (DataModel.mkBotorchStrategy 512 7 1024 EXHAUSTIVE EXHAUSTIVE EXHAUSTIVE tt)
  = Ok (DataModel.mkBotorchStrategy 512 7 1024 EXHAUSTIVE EXHAUSTIVE EXHAUSTIVE tt) /\
  DataModel.construct (update_surrogate_specs_for_domain plain_models) (categorical_values FREE)
  = Raise (ValidationError [free_mixed_msg]).
Proof.
  split.
  - destruct (construct_accepts_valid_fields (fun v => Ok v)
                (DataModel.mkBotorchStrategy 512 7 1024 EXHAUSTIVE EXHAUSTIVE EXHAUSTIVE tt))
      as (_ & H & _).
    + exists 9. split; [lia | reflexivity].
    + simpl. lia.
    + exists 10. split; [lia | reflexivity].
    + by apply H.
  - destruct (construct_accepts_valid_fields (update_surrogate_specs_for_domain plain_models)
                (categorical_values FREE)) as (_ & _ & H & _).
    + exists 9. split; [lia | reflexivity].
    + simpl. lia.
    + exists 10. split; [lia | reflexivity].
    + apply H. vm_compute. reflexivity.
Defined.

(** ** The root validator *)

Lemma for_each_checks {A} (f : A -> result unit) (xs : list A) :
  for_each xs (fun x _ => f x) tt = Ok tt <-> forall x, x ∈ xs -> f x = Ok tt.
Proof.
  induction xs as [|x xs IH]; simpl.
  - split; [|done]. intros _ x Hx. by apply elem_of_nil in Hx.
  - destruct (f x) as [[]|e] eqn:E; simpl.
    + rewrite IH. split.
      * intros H y Hy. apply elem_of_cons in Hy as [->|Hy]; auto.
      * intros H y Hy. apply H. by right.
    + split; [done|]. intros H. specialize (H x). rewrite E in H.
      discriminate H. by left.
Qed.

Lemma check_free_method_Ok surrogates :
  check_free_method surrogates = Ok tt <->
  forall m, m ∈ surrogates -> surrogate_class m <> MixedSingleTaskGPSurrogate.
Proof.
  unfold check_free_method. rewrite for_each_checks. split; intros H m Hm.
  - specialize (H m Hm). by case_bool_decide.
  - by rewrite bool_decide_eq_false_2 by auto.
Qed.

Lemma check_free_method_raises surrogates m :
  m ∈ surrogates -> surrogate_class m = MixedSingleTaskGPSurrogate ->
  check_free_method surrogates = Raise (ValueError free_mixed_msg).
Proof.
  unfold check_free_method. induction surrogates as [|x xs IH]; intros Hm Hc.
  - by apply elem_of_nil in Hm.
  - simpl. case_bool_decide as Hx; [done|]. simpl.
    apply elem_of_cons in Hm as [->|Hm]; [done | by apply IH].
Qed.

Lemma check_descriptor_method_Ok categorical descriptor surrogates m k :
  check_descriptor_method categorical descriptor surrogates = Ok tt ->
  m ∈ surrogates ->
  k ∈ get_keys (mkDomain (input_features m) []) cls_CategoricalDescriptorInput ->
  surrogate_preprocessing_specs m !! k = Some ONE_HOT ->
  categorical = descriptor.
Proof.
  unfold check_descriptor_method. rewrite for_each_checks. intros H Hm Hk Hs.
  specialize (H m Hm). cbv zeta in H. rewrite for_each_checks in H.
  specialize (H k Hk). cbv beta in H. rewrite Hs in H. simpl in H.
  case_bool_decide as Hne; [discriminate H|].
  by destruct (decide (categorical = descriptor)).
Qed.

(** X18: a data model that passed the root validator holds surrogate specs
    for which the two checks hold: with [categorical_method] FREE no
    surrogate is a [MixedSingleTaskGPSurrogate], and when a surrogate one-hot
    encodes a categorical input with descriptors, [categorical_method] and
    [descriptor_method] are equal; the specs are those
    [_generate_surrogate_specs] returned, and the other fields are as
    given. *)
Theorem root_validator_checks_methods (ext : SurrogateModels)
    (values values' : DataModel.BotorchStrategy RootValues) :
  update_surrogate_specs_for_domain ext values = Ok values' ->
  exists specs,
    _generate_surrogate_specs ext (values_domain (DataModel.rest values))
      (values_outputs (DataModel.rest values)) (surrogate_specs (DataModel.rest values))
    = Ok specs /\
    surrogate_specs (DataModel.rest values') = Some specs /\
    (DataModel.categorical_method values = FREE ->
     forall m, m ∈ specs -> surrogate_class m <> MixedSingleTaskGPSurrogate) /\
    (forall m k,
       m ∈ specs ->
       k ∈ get_keys (mkDomain (input_features m) []) cls_CategoricalDescriptorInput ->
       surrogate_preprocessing_specs m !! k = Some ONE_HOT ->
       DataModel.categorical_method values = DataModel.descriptor_method values) /\
    DataModel.categorical_method values' = DataModel.categorical_method values /\
    DataModel.descriptor_method values' = DataModel.descriptor_method values /\
    DataModel.discrete_method values' = DataModel.discrete_method values /\
    values_domain (DataModel.rest values') = values_domain (DataModel.rest values).
Proof.
  unfold update_surrogate_specs_for_domain. cbv zeta. intros H.
  apply bind_Ok in H as (specs & Hgen & H).
  apply bind_Ok in H as ([] & Hfree & H). apply bind_Ok in H as ([] & Hdesc & [= <-]).
  exists specs. split; [done|]. split; [done|]. split.
  - intros Hf. rewrite bool_decide_eq_true_2 in Hfree by done.
    by apply check_free_method_Ok.
  - split; [|done]. intros m k. by apply check_descriptor_method_Ok.
Qed.

Lemma generate_loop ext d cls keys acc acc' :
  for_each keys
    (fun output_feature acc =>
       specs ← default_specs ext cls (inputs d) output_feature;
       Ok (acc ++ [mkSurrogate cls (inputs d) [output_feature] specs]))
    acc = Ok acc' ->
  (forall m, m ∈ acc -> m ∈ acc') /\
  (forall k, k ∈ keys ->
     exists m, m ∈ acc' /\ surrogate_class m = cls /\ output_keys m = [k]).
Proof.
  revert acc. induction keys as [|k keys IH]; intros acc H.
  - inversion H; subst. split; [done|]. intros k Hk. by apply elem_of_nil in Hk.
  - simpl in H. apply bind_Ok in H as (acc1 & Hstep & H).
    apply bind_Ok in Hstep as (specs & _ & [= <-]).
    destruct (IH _ H) as [Hsub Hgen]. split.
    + intros m Hm. apply Hsub. apply elem_of_app. by left.
    + intros k' Hk'. apply elem_of_cons in Hk' as [->|Hk']; [|by apply Hgen].
      eexists. split; [apply Hsub; apply elem_of_app; right; by apply list_elem_of_singleton|].
      done.
Qed.

Lemma generate_default ext d outputs given specs k :
  set_difference_ok ext ->
  _generate_surrogate_specs ext d outputs given = Ok specs ->
  k ∈ outputs ->
  k ∉ match given with Some g => existing_output_keys ext g | None => [] end ->
  exists m, m ∈ specs /\ output_keys m = [k] /\
    surrogate_class m = if (0 <? length (exact_categoricals d))%nat
                        then MixedSingleTaskGPSurrogate else SingleTaskGPSurrogate.
Proof.
  intros Hset H Hk Hnew. unfold _generate_surrogate_specs in H. cbv zeta in H.
  apply bind_Ok in H as (acc & Hloop & H).
  apply bind_Ok in H as ([] & _ & H). apply bind_Ok in H as ([] & _ & [= <-]).
  apply generate_loop in Hloop as [_ Hgen].
  destruct (Hgen k) as (m & Hm & Hc & Ho); [by apply Hset|]. eauto.
Qed.

(** X19: with [categorical_method] FREE, a domain that has a feature of the
    class [CategoricalInput] itself and an output without a given surrogate,
    the construction never passes the root validator: the default surrogate
    for that output is a [MixedSingleTaskGPSurrogate], which the validator
    refuses; when [_generate_surrogate_specs] returns, the error is the
    [ValueError] of the first check. *)
Theorem free_method_refuses_default_surrogate (ext : SurrogateModels)
    (values : DataModel.BotorchStrategy RootValues) (k : string) :
  set_difference_ok ext ->
  DataModel.categorical_method values = FREE ->
  exact_categoricals (values_domain (DataModel.rest values)) <> [] ->
  k ∈ values_outputs (DataModel.rest values) ->
  k ∉ match surrogate_specs (DataModel.rest values) with
      | Some given => existing_output_keys ext given
      | None => []
      end ->
  ~ is_Ok (update_surrogate_specs_for_domain ext values) /\
  (is_Ok (_generate_surrogate_specs ext (values_domain (DataModel.rest values))
            (values_outputs (DataModel.rest values))
            (surrogate_specs (DataModel.rest values))) ->
   update_surrogate_specs_for_domain ext values = Raise (ValueError free_mixed_msg)).
Proof.
  intros Hset Hfree Hcat Hk Hnew.
  assert (Hraise : forall specs,
    _generate_surrogate_specs ext (values_domain (DataModel.rest values))
      (values_outputs (DataModel.rest values)) (surrogate_specs (DataModel.rest values))
    = Ok specs ->
    update_surrogate_specs_for_domain ext values = Raise (ValueError free_mixed_msg)).
  { intros specs Hgen. unfold update_surrogate_specs_for_domain. cbv zeta.
    rewrite Hgen, bind_Ok_l, bool_decide_eq_true_2 by done.
    destruct (generate_default _ _ _ _ _ k Hset Hgen Hk Hnew) as (m & Hm & _ & Hc).
    destruct (exact_categoricals _) as [|f fs]; [done|]. simpl in Hc.
    by rewrite (check_free_method_raises specs m Hm Hc). }
  split.
  - intros [v Hv]. unfold update_surrogate_specs_for_domain in Hv. cbv zeta in Hv.
    destruct (_generate_surrogate_specs _ _ _ _) as [specs|e] eqn:Hgen; [|done].
    specialize (Hraise specs eq_refl). unfold update_surrogate_specs_for_domain in Hraise.
    cbv zeta in Hraise. rewrite Hgen in Hraise. congruence.
  - intros [specs Hgen]. by apply (Hraise specs).
Qed.

Lemma plain_models_set_difference : set_difference_ok plain_models.
Proof.
  intros a b k. simpl. rewrite list_elem_of_filter, elem_of_remove_dups. tauto.
Qed.

Lemma root_validator_checks_methods_witness :
  exists specs,
    _generate_surrogate_specs plain_models (domain fixed_categorical_strategy) ["y"] None
    = Ok specs /\
    forall m, m ∈ specs -> surrogate_class m = MixedSingleTaskGPSurrogate.
Proof.
  destruct (root_validator_checks_methods plain_models (categorical_values EXHAUSTIVE)
              (DataModel.mkBotorchStrategy 512 8 1024 EXHAUSTIVE EXHAUSTIVE EXHAUSTIVE
                 (mkRootValues (domain fixed_categorical_strategy) ["y"]
                    (Some [mkSurrogate MixedSingleTaskGPSurrogate
                             (inputs (domain fixed_categorical_strategy)) ["y"] ∅]))))
    as (specs & Hgen & Hspecs & _); [vm_compute; reflexivity|].
  exists specs. split; [exact Hgen|]. simpl in Hspecs. injection Hspecs as <-.
  intros m Hm. apply list_elem_of_singleton in Hm. subst m. reflexivity.
Defined.

Lemma free_method_refuses_default_surrogate_witness :
  update_surrogate_specs_for_domain plain_models (categorical_values FREE)
  = Raise (ValueError free_mixed_msg).
Proof.
  destruct (free_method_refuses_default_surrogate plain_models (categorical_values FREE) "y")
    as [_ H].
  - exact plain_models_set_difference.
  - reflexivity.
  - vm_compute. discriminate.
  - in_list.
  - simpl. apply not_elem_of_nil.
  - apply H. eexists. vm_compute. reflexivity.
Defined.

(** ** The bounds of a continuous input *)

Section ContinuousFacts.
Import Continuous.

Lemma py_min_le a b : (py_min a b <= a)%Q /\ (py_min a b <= b)%Q.
Proof.
  unfold py_min. destruct (Qle_bool a b) eqn:E.
  - apply Qle_bool_iff in E. split; [apply Qle_refl | done].
  - split; [|apply Qle_refl]. apply Qlt_le_weak, Qnot_le_lt. intros H.
    apply Qle_bool_iff in H. congruence.
Qed.

Lemma py_max_ge a b : (a <= py_max a b)%Q /\ (b <= py_max a b)%Q.
Proof.
  unfold py_max. destruct (Qle_bool b a) eqn:E.
  - apply Qle_bool_iff in E. split; [apply Qle_refl | done].
  - split; [|apply Qle_refl]. apply Qlt_le_weak, Qnot_le_lt. intros H.
    apply Qle_bool_iff in H. congruence.
Qed.

Lemma py_min_cases a b : py_min a b = a \/ py_min a b = b.
Proof. unfold py_min. destruct (Qle_bool a b); auto. Qed.

Lemma py_max_cases a b : py_max a b = a \/ py_max a b = b.
Proof. unfold py_max. destruct (Qle_bool b a); auto. Qed.

Lemma py_min_glb a b c : (c <= a)%Q -> (c <= b)%Q -> (c <= py_min a b)%Q.
Proof. intros. by destruct (py_min_cases a b) as [->| ->]. Qed.

Lemma py_max_lub a b c : (a <= c)%Q -> (b <= c)%Q -> (py_max a b <= c)%Q.
Proof. intros. by destruct (py_max_cases a b) as [->| ->]. Qed.

Lemma foldl_Qmin' l x :
  (foldl Qmin' x l <= x)%Q /\ (forall v, v ∈ l -> (foldl Qmin' x l <= v)%Q) /\
  (foldl Qmin' x l = x \/ foldl Qmin' x l ∈ l).
Proof.
  revert x. induction l as [|y l IH]; intros x; simpl.
  - split; [apply Qle_refl|]. split; [|by left]. intros v Hv. by apply elem_of_nil in Hv.
  - destruct (IH (Qmin' x y)) as (H1 & H2 & H3).
    destruct (py_min_le x y) as [Hx Hy]. change (py_min x y) with (Qmin' x y) in Hx, Hy.
    split; [by eapply Qle_trans|]. split.
    + intros v Hv. apply elem_of_cons in Hv as [->|Hv]; [by eapply Qle_trans | auto].
    + destruct H3 as [H3|H3]; [|right; by right]. rewrite H3.
      destruct (py_min_cases x y) as [E|E]; change (py_min x y) with (Qmin' x y) in E;
        rewrite E; [by left | right; by left].
Qed.

Lemma foldl_Qmax' l x :
  (x <= foldl Qmax' x l)%Q /\ (forall v, v ∈ l -> (v <= foldl Qmax' x l)%Q) /\
  (foldl Qmax' x l = x \/ foldl Qmax' x l ∈ l).
Proof.
  revert x. induction l as [|y l IH]; intros x; simpl.
  - split; [apply Qle_refl|]. split; [|by left]. intros v Hv. by apply elem_of_nil in Hv.
  - destruct (IH (Qmax' x y)) as (H1 & H2 & H3).
    assert (Hx : (x <= Qmax' x y)%Q /\ (y <= Qmax' x y)%Q).
    { unfold Qmax'. destruct (Qle_bool x y) eqn:E.
      - apply Qle_bool_iff in E. split; [done | apply Qle_refl].
      - split; [apply Qle_refl|]. apply Qlt_le_weak, Qnot_le_lt. intros H.
        apply Qle_bool_iff in H. congruence. }
    destruct Hx as [Hx Hy].
    split; [by eapply Qle_trans|]. split.
    + intros v Hv. apply elem_of_cons in Hv as [->|Hv]; [by eapply Qle_trans | auto].
    + destruct H3 as [H3|H3]; [|right; by right]. rewrite H3.
      unfold Qmax'. destruct (Qle_bool x y); [right; by left | by left].
Qed.

Lemma list_min_spec l m :
  list_min l = Some m -> m ∈ l /\ forall v, v ∈ l -> (m <= v)%Q.
Proof.
  destruct l as [|x l]; [done|]. intros [= <-].
  destruct (foldl_Qmin' l x) as (H1 & H2 & H3). split.
  - destruct H3 as [-> | H3]; [by left | by right].
  - intros v Hv. apply elem_of_cons in Hv as [->|Hv]; auto.
Qed.

Lemma list_max_spec l m :
  list_max l = Some m -> m ∈ l /\ forall v, v ∈ l -> (v <= m)%Q.
Proof.
  destruct l as [|x l]; [done|]. intros [= <-].
  destruct (foldl_Qmax' l x) as (H1 & H2 & H3). split.
  - destruct H3 as [-> | H3]; [by left | by right].
  - intros v Hv. apply elem_of_cons in Hv as [->|Hv]; auto.
Qed.

(** X20: called with observed values, [get_bounds] returns an interval that
    contains the bounds of the feature and every value; each end is the bound
    of the feature or one of the values, and for an empty series the bounds
    of the feature are returned. *)
Theorem get_bounds_covers_values (ops : FloatOps) (f : ContinuousInput) (values : list Q) :
  exists lower upper,
    get_bounds ops f None (Some values) None = Ok ([lower], [upper]) /\
    (lower <= lower_bound f)%Q /\ (upper_bound f <= upper)%Q /\
    (forall v, v ∈ values -> (lower <= v)%Q /\ (v <= upper)%Q) /\
    (lower = lower_bound f \/ lower ∈ values) /\
    (upper = upper_bound f \/ upper ∈ values) /\
    (values = [] -> lower = lower_bound f /\ upper = upper_bound f).
Proof.
  unfold get_bounds. eexists _, _. split; [reflexivity|].
  destruct values as [|x l].
  { simpl. split; [apply Qle_refl|]. split; [apply Qle_refl|].
    split; [intros v Hv; by apply elem_of_nil in Hv | auto]. }
  destruct (list_min (x :: l)) as [m|] eqn:Emin; [|done].
  destruct (list_max (x :: l)) as [M|] eqn:Emax; [|done].
  apply list_min_spec in Emin as [Hm1 Hm2]. apply list_max_spec in Emax as [HM1 HM2].
  destruct (py_min_le (lower_bound f) m) as [H1 H2].
  destruct (py_max_ge (upper_bound f) M) as [H3 H4].
  split; [done|]. split; [done|]. split; [|split; [|split; [|done]]].
  - intros v Hv. split; eapply Qle_trans; eauto.
  - destruct (py_min_cases (lower_bound f) m) as [->| ->]; auto.
  - destruct (py_max_cases (upper_bound f) M) as [->| ->]; auto.
Qed.

(** X21: called with a reference value, [get_bounds] clamps each end on its
    own: the lower end is not below the lower bound of the feature and the
    upper end not above its upper bound.  The ends are the bounds themselves
    when the feature is fixed or has no window.  When the window is positive,
    as the data model demands, and rounding is monotone, a reference value
    inside the bounds lies between the two ends, which then form an interval
    inside the bounds.  The two ends are not compared with each other: when
    the reference value lies by more than the window above the upper bound,
    or below the lower bound, the lower end returned is above the upper
    end. *)
Theorem get_bounds_local_window (ops : FloatOps) (f : ContinuousInput) (reference_value : Q) :
  exists lower upper,
    get_bounds ops f None None (Some reference_value) = Ok ([lower], [upper]) /\
    (lower_bound f <= lower)%Q /\ (upper <= upper_bound f)%Q /\
    (is_fixed f = true \/ local_relative_bounds f = None ->
     lower = lower_bound f /\ upper = upper_bound f) /\
    (monotone ops ->
     (forall w, local_relative_bounds f = Some w -> (0 < w.1)%Q /\ (0 < w.2)%Q) ->
     (lower_bound f <= reference_value)%Q -> (reference_value <= upper_bound f)%Q ->
     (lower <= reference_value)%Q /\ (reference_value <= upper)%Q /\ (lower <= upper)%Q) /\
    (forall w, is_fixed f = false -> local_relative_bounds f = Some w ->
     (upper_bound f < fsub ops reference_value w.1)%Q \/
     (fadd ops reference_value w.2 < lower_bound f)%Q ->
     (upper < lower)%Q).
Proof.
  unfold get_bounds. destruct (is_fixed f) eqn:Hfix.
  { exists (lower_bound f), (upper_bound f). split; [done|].
    split; [apply Qle_refl|]. split; [apply Qle_refl|]. split; [done|]. split; [|done].
    intros _ _ Hlo Hhi. split; [done|]. split; [done|]. by eapply Qle_trans. }
  exists (local_lower_bound ops f reference_value), (local_upper_bound ops f reference_value).
  split; [done|]. unfold local_lower_bound, local_upper_bound.
  destruct (local_relative_bounds f) as [[wl wr]|] eqn:Hw.
  - split; [apply py_max_ge|]. split; [apply py_min_le|]. split.
    { intros [H|H]; discriminate H. }
    split.
    + intros Hmono Hpos Hlo Hhi. destruct (Hpos _ eq_refl) as [Hl Hr]. simpl in Hl, Hr.
      assert (H1 : (py_max (fsub ops reference_value wl) (lower_bound f) <= reference_value)%Q).
      { apply py_max_lub; [apply (Hmono reference_value wl Hl) | done]. }
      assert (H2 : (reference_value <= py_min (fadd ops reference_value wr) (upper_bound f))%Q).
      { apply py_min_glb; [apply (Hmono reference_value wr Hr) | done]. }
      split; [done|]. split; [done|]. by eapply Qle_trans.
    + intros w _ [= <-]. simpl. intros [H|H].
      * eapply Qle_lt_trans; [apply py_min_le|].
        eapply Qlt_le_trans; [exact H | apply py_max_ge].
      * eapply Qle_lt_trans; [apply (proj1 (py_min_le _ _))|].
        eapply Qlt_le_trans; [exact H | apply (proj2 (py_max_ge _ _))].
  - split; [apply Qle_refl|]. split; [apply Qle_refl|]. split; [done|]. split; [|done].
    intros _ _ Hlo Hhi. split; [done|]. split; [done|]. by eapply Qle_trans.
Qed.

Lemma any_below_false x values :
  any_below x values = false <-> forall v, v ∈ values -> (x <= v)%Q.
Proof.
  unfold any_below. induction values as [|y l IH]; simpl.
  - split; [|done]. intros _ v Hv. by apply elem_of_nil in Hv.
  - rewrite orb_false_iff, negb_false_iff, Qle_bool_iff, IH. split.
    + intros [Hy Hl] v Hv. apply elem_of_cons in Hv as [->|Hv]; auto.
    + intros H. split; [apply H; by left | intros v Hv; apply H; by right].
Qed.

Lemma any_above_false x values :
  any_above x values = false <-> forall v, v ∈ values -> (v <= x)%Q.
Proof.
  unfold any_above. induction values as [|y l IH]; simpl.
  - split; [|done]. intros _ v Hv. by apply elem_of_nil in Hv.
  - rewrite orb_false_iff, negb_false_iff, Qle_bool_iff, IH. split.
    + intros [Hy Hl] v Hv. apply elem_of_cons in Hv as [->|Hv]; auto.
    + intros H. split; [apply H; by left | intros v Hv; apply H; by right].
Qed.

(** X22: [validate_candidental] returns the series of the parent's validation
    exactly when every value lies between the lower bound minus the noise and
    the upper bound plus the noise; with monotone rounding every series
    inside the bounds is accepted; and a value below is reported before a
    value above. *)
Theorem validate_candidental_tolerance (ops : FloatOps)
    (super_validate : list value -> result (list Q)) (f : ContinuousInput)
    (values : list value) (numbers : list Q) :
  super_validate values = Ok numbers ->
  (validate_candidental ops super_validate f values = Ok numbers <->
   forall v, v ∈ numbers ->
     (fsub ops (lower_bound f) noise <= v)%Q /\ (v <= fadd ops (upper_bound f) noise)%Q) /\
  (forall out, validate_candidental ops super_validate f values = Ok out -> out = numbers) /\
  (monotone ops ->
   (forall v, v ∈ numbers -> (lower_bound f <= v)%Q /\ (v <= upper_bound f)%Q) ->
   validate_candidental ops super_validate f values = Ok numbers) /\
  (forall v, v ∈ numbers -> (v < fsub ops (lower_bound f) noise)%Q ->
   validate_candidental ops super_validate f values
   = Raise (ValueError (below_msg (key f) (repr ops (lower_bound f))))).
Proof.
  intros Hsuper. unfold validate_candidental. rewrite Hsuper, bind_Ok_l.
  assert (Hiff : (if any_below (fsub ops (lower_bound f) noise) numbers
                  then Raise (ValueError (below_msg (key f) (repr ops (lower_bound f))))
                  else if any_above (fadd ops (upper_bound f) noise) numbers
                       then Raise (ValueError (above_msg (key f) (repr ops (upper_bound f))))
                       else Ok numbers) = Ok numbers <->
                 forall v, v ∈ numbers ->
                   (fsub ops (lower_bound f) noise <= v)%Q /\
                   (v <= fadd ops (upper_bound f) noise)%Q).
  { destruct (any_below _ numbers) eqn:Eb.
    - split; [done|]. intros H. exfalso.
      assert (any_below (fsub ops (lower_bound f) noise) numbers = false); [|congruence].
      apply any_below_false. intros v Hv. by apply H.
    - destruct (any_above _ numbers) eqn:Ea.
      + split; [done|]. intros H. exfalso.
        assert (any_above (fadd ops (upper_bound f) noise) numbers = false); [|congruence].
        apply any_above_false. intros v Hv. by apply H.
      + split; [|done]. intros _ v Hv. split.
        * by apply (proj1 (any_below_false _ _) Eb).
        * by apply (proj1 (any_above_false _ _) Ea). }
  split; [exact Hiff|]. split; [|split].
  - intros out. destruct (any_below _ numbers); [done|].
    destruct (any_above _ numbers); [done|]. by intros [= <-].
  - intros Hmono Hin. apply Hiff. intros v Hv. destruct (Hin v Hv) as [H1 H2].
    assert (Hn : (0 < noise)%Q) by reflexivity.
    destruct (Hmono (lower_bound f) noise Hn) as [Hlo _].
    destruct (Hmono (upper_bound f) noise Hn) as [_ Hhi].
    split; eapply Qle_trans; eauto.
  - intros v Hv Hlt. destruct (any_below _ numbers) eqn:Eb; [done|]. exfalso.
    pose proof (proj1 (any_below_false _ _) Eb v Hv) as Hle.
    by apply (Qlt_not_le _ _ Hlt).
Qed.

Lemma exact_monotone : monotone exact.
Proof.
  intros x w Hw. simpl. split.
  - rewrite <- (Qplus_0_r x) at 2. unfold Qminus. apply Qplus_le_r.
    apply Qlt_le_weak. by apply (Qopp_lt_compat 0 w).
  - rewrite <- (Qplus_0_r x) at 1. apply Qplus_le_r. by apply Qlt_le_weak.
Qed.

(** X21 on the feature with bounds [0, 10] and the window [(1, 2)]: a
    reference value of 5 gives the interval around it, a reference value of
    20 a lower end above the upper end. *)
Lemma get_bounds_local_window_witness :
  (exists lower upper,
     get_bounds exact windowed None None (Some 5%Q) = Ok ([lower], [upper]) /\
     (lower <= 5)%Q /\ (5 <= upper)%Q) /\
  (exists lower upper,
     get_bounds exact windowed None None (Some 20%Q) = Ok ([lower], [upper]) /\
     (upper < lower)%Q).
Proof.
  split.
  - destruct (get_bounds_local_window exact windowed 5%Q)
      as (lower & upper & Hb & _ & _ & _ & Hin & _).
    exists lower, upper. split; [exact Hb|].
    destruct Hin as (H1 & H2 & _);
      [exact exact_monotone | intros w [= <-]; split; reflexivity
      | discriminate | discriminate |].
    split; [exact H1 | exact H2].
  - destruct (get_bounds_local_window exact windowed 20%Q)
      as (lower & upper & Hb & _ & _ & _ & _ & Hcross).
    exists lower, upper. split; [exact Hb|].
    apply (Hcross (1, 2)%Q); [reflexivity | reflexivity | left; reflexivity].
Defined.

Lemma validate_candidental_tolerance_witness :
  validate_candidental exact (fun _ => Ok [1; 10]%Q) windowed [Float 1; Float 10]
  = Ok [1; 10]%Q.
Proof.
  destruct (validate_candidental_tolerance exact (fun _ => Ok [1; 10]%Q) windowed
              [Float 1; Float 10] [1; 10]%Q eq_refl) as (_ & _ & H & _).
  apply H; [exact exact_monotone|].
  intros v Hv. apply elem_of_cons in Hv as [->|Hv]; [split; discriminate|].
  apply list_elem_of_singleton in Hv as ->. split; discriminate.
Defined.

End ContinuousFacts.

(** ** The third loop of [get_fixed_features] *)

Lemma enumerate_snd {A} (l : list A) : (enumerate l).*2 = l.
Proof.
  apply list_eq. intros i. unfold enumerate. rewrite list_lookup_fmap, list_lookup_imap.
  by destruct (l !! i).
Qed.

(** Conditional assignment:
    [for j, idx in enumerate(idxs): if test(j): ff[idx] = g(j)]. *)
Lemma columns_conditional (g : nat -> result (option value))
    (body : nat * nat -> gmap nat value -> result (gmap nat value))
    (idxs : list nat) ff ff' :
  (forall p ff, body p ff
                = o ← g p.1; Ok (match o with Some v => <[p.2 := v]> ff | None => ff end)) ->
  NoDup idxs ->
  for_each (enumerate idxs) body ff = Ok ff' ->
  forall j idx, idxs !! j = Some idx ->
    exists o, g j = Ok o /\
      ff' !! idx = match o with Some v => Some v | None => ff !! idx end.
Proof.
  intros Hbody Hnd H j idx Hj.
  assert (Hframe : forall p acc acc', body p acc = Ok acc' -> p.2 <> idx ->
            acc' !! idx = acc !! idx).
  { intros p acc acc' Hp Hne. rewrite Hbody in Hp. apply bind_Ok in Hp as (o & _ & [= <-]).
    destruct o; [by rewrite lookup_insert_ne | done]. }
  assert (Hin : (j, idx) ∈ enumerate idxs) by (by apply elem_of_enumerate).
  apply list_elem_of_split in Hin as (l1 & l2 & Hsplit).
  assert (Hnd' : NoDup (l1.*2 ++ idx :: l2.*2)).
  { rewrite <- (enumerate_snd idxs), Hsplit, fmap_app, fmap_cons in Hnd. exact Hnd. }
  apply NoDup_app in Hnd' as (_ & H1 & H2). apply NoDup_cons in H2 as [H2 _].
  rewrite Hsplit, for_each_app in H. apply bind_Ok in H as (ff1 & Hpre & H).
  simpl in H. apply bind_Ok in H as (ff2 & Hstep & Hpost).
  rewrite Hbody in Hstep. cbn [fst snd] in Hstep. apply bind_Ok in Hstep as (o & Ho & [= <-]).
  exists o. split; [done|].
  assert (E1 : ff1 !! idx = ff !! idx).
  { apply (for_each_invariant (fun acc => acc !! idx = ff !! idx)) in Hpre; [done| |done].
    intros p acc acc' Hp Hb Hacc. rewrite <- Hacc. apply (Hframe p acc acc' Hb).
    intros Hidx. apply (H1 idx); [|by left]. rewrite <- Hidx. by apply list_elem_of_fmap_2. }
  apply (for_each_invariant
           (fun acc => acc !! idx = match o with Some v => Some v | None => ff !! idx end))
    in Hpost; [done| |].
  - intros p acc acc' Hp Hb Hacc. rewrite <- Hacc. apply (Hframe p acc acc' Hb).
    intros Hidx. apply H2. rewrite <- Hidx. by apply list_elem_of_fmap_2.
  - destruct o; [by rewrite lookup_insert_eq | done].
Qed.

Lemma pin_constant_descriptor_writes m feat ff ff' idxs j idx :
  isinstance feat cls_CategoricalDescriptorInput = true -> is_fixed feat = false ->
  m !! key feat = Some idxs -> NoDup idxs ->
  pin_constant_descriptor m feat ff = Ok ff' ->
  idxs !! j = Some idx ->
  exists l u,
    (get_bounds_DESCRIPTOR feat).1 !! j = Some l /\
    (get_bounds_DESCRIPTOR feat).2 !! j = Some u /\
    ff' !! idx = if Qeq_bool l u then Some (Float l) else ff !! idx.
Proof.
  intros Hd Hfix Hidxs Hnd H Hj. unfold pin_constant_descriptor in H.
  rewrite Hd, Hfix in H. cbv zeta in H. rewrite Hidxs, or_raise_Some, bind_Ok_l in H.
  set (lo := (get_bounds_DESCRIPTOR feat).1) in *.
  set (hi := (get_bounds_DESCRIPTOR feat).2) in *. clearbody lo hi.
  edestruct (columns_conditional
               (fun j => l ← or_raise IndexError (lo !! j);
                         u ← or_raise IndexError (hi !! j);
                         Ok (if Qeq_bool l u then Some (Float l) else None)))
    as (o & Ho & Hff); [|exact Hnd|exact H|exact Hj|].
  { intros p a. cbv beta.
    destruct (lo !! p.1); simpl; [|reflexivity].
    destruct (hi !! p.1); simpl; [|reflexivity].
    by destruct (Qeq_bool _ _). }
  cbv beta in Ho.
  destruct (lo !! j) as [l|]; simpl in Ho; [|done].
  destruct (hi !! j) as [u|]; simpl in Ho; [|done].
  inversion Ho; subst o. exists l, u. split; [done|]. split; [done|].
  rewrite Hff. by destruct (Qeq_bool l u).
Qed.

Lemma get_keys_NoDup d cls : unique_keys d -> NoDup (get_keys d cls).
Proof.
  intros Hnd. unfold get_keys, get_features.
  eapply sublist_NoDup; [exact Hnd|]. apply fmap_sublist, sublist_filter.
Qed.

Lemma features_with_spec_keys d specs enc keys fs :
  features_with_spec d specs enc keys = Ok fs -> (key <$> fs) `sublist_of` keys.
Proof.
  revert fs. induction keys as [|k ks IH]; intros fs H; simpl in H.
  - by inversion H.
  - apply bind_Ok in H as (e & _ & H). case_bool_decide.
    + apply bind_Ok in H as (f & Hf & H). apply bind_Ok in H as (fs' & Hfs & [= <-]).
      apply get_by_key_Ok in Hf as [_ <-]. rewrite fmap_cons.
      apply sublist_skip. by apply IH.
    + apply sublist_cons. by apply IH.
Qed.

Lemma third_loop_pins s m feats ff2 ff feat idxs j idx :
  well_formed s -> _features2idx s = Ok m ->
  features_with_spec (domain s) (input_preprocessing_specs s) DESCRIPTOR
    (get_keys (domain s) cls_CategoricalDescriptorInput) = Ok feats ->
  for_each feats (pin_constant_descriptor m) ff2 = Ok ff ->
  feat ∈ inputs (domain s) -> isinstance feat cls_CategoricalDescriptorInput = true ->
  input_preprocessing_specs s !! key feat = Some DESCRIPTOR ->
  is_fixed feat = false ->
  m !! key feat = Some idxs -> idxs !! j = Some idx ->
  exists l u,
    (get_bounds_DESCRIPTOR feat).1 !! j = Some l /\
    (get_bounds_DESCRIPTOR feat).2 !! j = Some u /\
    ff !! idx = if Qeq_bool l u then Some (Float l) else ff2 !! idx.
Proof.
  intros Hwf Hm Hfeats H Hfeat Hd Hspec Hfix Hidxs Hj.
  pose proof (wf_keys s Hwf) as Hnd.
  assert (Hidx : idx ∈ idxs) by (by eapply list_elem_of_lookup_2).
  assert (Hin : feat ∈ feats).
  { eapply features_with_spec_complete; eauto. apply elem_of_get_keys. eauto. }
  assert (Hndf : NoDup (key <$> feats)).
  { eapply sublist_NoDup; [|exact (features_with_spec_keys _ _ _ _ _ Hfeats)].
    by apply get_keys_NoDup. }
  apply list_elem_of_split in Hin as (l1 & l2 & Hsplit). rewrite Hsplit in H, Hndf.
  rewrite fmap_app, fmap_cons in Hndf.
  apply NoDup_app in Hndf as (_ & Hk1 & Hk2). apply NoDup_cons in Hk2 as [Hk2 _].
  rewrite for_each_app in H. apply bind_Ok in H as (ffa & Hpre & H).
  simpl in H. apply bind_Ok in H as (ffb & Hstep & Hpost).
  assert (Hother : forall g, g ∈ feats -> key g <> key feat -> off_key m (key g) idx).
  { intros g Hg Hne.
    destruct (features_with_spec_sound _ _ _ _ _ _ Hfeats Hg) as (Hgin & _).
    apply (other_features_off s m feat idxs idx g Hnd Hm Hfeat Hidxs Hidx Hgin).
    by intros ->. }
  assert (Ea : ffa !! idx = ff2 !! idx).
  { apply (third_loop_frame m l1 ff2 ffa idx Hpre). intros g Hg _.
    apply Hother; [rewrite Hsplit; apply elem_of_app; by left|].
    intros Hk. apply (Hk1 (key feat)); [|by left]. rewrite <- Hk. by apply list_elem_of_fmap_2. }
  assert (Eb : ff !! idx = ffb !! idx).
  { apply (third_loop_frame m l2 ffb ff idx Hpost). intros g Hg _.
    apply Hother; [rewrite Hsplit; apply elem_of_app; right; by right|].
    intros Hk. apply Hk2. rewrite <- Hk. by apply list_elem_of_fmap_2. }
  destruct (pin_constant_descriptor_writes m feat ffa ffb idxs j idx Hd Hfix Hidxs
              (transform_info_NoDup _ _ _ _ _ Hm Hidxs) Hstep Hj) as (l & u & Hl & Hu & Hw).
  exists l, u. split; [done|]. split; [done|]. by rewrite Eb, Hw, Ea.
Qed.

(** X23: with [descriptor_method] FREE, [get_fixed_features] pins a column of
    a descriptor encoded feature that is not fixed exactly when the lower and
    the upper bound of that column over the allowed categories are equal, and
    then to that bound; a column with a range is left free. *)
Theorem get_fixed_features_pins_constant_descriptors (s : BotorchStrategy) :
  well_formed s ->
  descriptor_method s = FREE ->
  exists features2idx fixed_features,
    _features2idx s = Ok features2idx /\
    get_fixed_features s = Ok fixed_features /\
    forall feat idxs j idx,
      feat ∈ inputs (domain s) -> isinstance feat cls_CategoricalDescriptorInput = true ->
      input_preprocessing_specs s !! key feat = Some DESCRIPTOR ->
      is_fixed feat = false ->
      features2idx !! key feat = Some idxs -> idxs !! j = Some idx ->
      exists lower upper,
        (get_bounds_DESCRIPTOR feat).1 !! j = Some lower /\
        (get_bounds_DESCRIPTOR feat).2 !! j = Some upper /\
        fixed_features !! idx = if Qeq_bool lower upper then Some (Float lower) else None.
Proof.
  intros Hwf Hfree. destruct (well_formed_covers s Hwf) as (m & Hm & Hcov).
  destruct (get_fixed_features_total s m Hwf Hm Hcov) as [ff Hff].
  exists m, ff. split; [done|]. split; [done|].
  intros feat idxs j idx Hfeat Hd Hspec Hfix Hidxs Hj.
  pose proof (wf_keys s Hwf) as Hnd.
  assert (Hidx : idx ∈ idxs) by (by eapply list_elem_of_lookup_2).
  destruct (get_fixed_features_parts s m ff Hm Hff) as (ff1 & ff2 & H1 & H2 & H3).
  pose proof (first_loop_free s m ff1 feat idxs idx Hnd Hm H1 Hfeat Hfix Hidxs Hidx) as E1.
  assert (E2 : ff2 !! idx = None).
  { rewrite <- E1. destruct (_ && _) in H2; [|by subst ff2].
    destruct H2 as (feats & Hfeats & H2).
    apply (second_loop_free s m feats ff1 ff2 feat idxs idx Hwf Hm Hfeats H2 Hfeat);
      [|done|done].
    intros [_ Hs]. congruence. }
  rewrite bool_decide_eq_true_2 in H3 by done.
  rewrite bool_decide_eq_true_2 in H3 by (by eapply spec_values_elem).
  destruct H3 as (feats & Hfeats & H3).
  destruct (third_loop_pins s m feats ff2 ff feat idxs j idx Hwf Hm Hfeats H3 Hfeat Hd Hspec
              Hfix Hidxs Hj) as (l & u & Hl & Hu & Hw).
  exists l, u. split; [done|]. split; [done|]. by rewrite Hw, E2.
Qed.

(** ** The composer with all methods FREE *)

Lemma fmap_update_empty (ncks : list (gmap nat value)) : update ∅ <$> ncks = ncks.
Proof.
  induction ncks as [|ff2 ncks IH]; [done|].
  rewrite fmap_cons, IH. unfold update. by rewrite (right_id ∅ (∪)).
Qed.

(** X24: with all three methods FREE, on a strategy whose base dictionary
    could be computed, [get_fixed_values_list] returns what
    [get_nchoosek_combinations] returns: the dictionaries handed to the
    mixed optimizer hold the pins of the n-choose-k constraints only. *)
Theorem get_fixed_values_list_all_free (s : BotorchStrategy) :
  all_free s = true ->
  is_Ok (get_fixed_features s) ->
  get_fixed_values_list s = get_nchoosek_combinations s.
Proof.
  intros Hfree [base Hbase]. unfold get_fixed_values_list.
  rewrite (get_categorical_combinations_all_free s base Hfree Hbase), bind_Ok_l.
  simpl. destruct (get_nchoosek_combinations s) as [ncks|e]; [|done].
  simpl. by rewrite fmap_update_empty.
Qed.

(** ** What the check of [tell] for fixed columns does *)

Lemma fixed_value_single f :
  is_fixed f = true -> exists v, fixed_value f None = Ok (Some [v]).
Proof.
  intros Hfix.
  assert (Hcat : bool_decide (length (get_allowed_categories f) = 1%nat) = true ->
            exists c, head (get_allowed_categories f) = Some c).
  { intros H. apply bool_decide_eq_true in H.
    destruct (get_allowed_categories f) as [|c l]; [done | by exists c]. }
  destruct f; simpl in *.
  - rewrite Hfix. by eexists.
  - discriminate.
  - rewrite Hfix. destruct (Hcat Hfix) as [c ->]. by eexists.
  - rewrite Hfix. destruct (Hcat Hfix) as [c ->]. by eexists.
  - rewrite Hfix. destruct (Hcat Hfix) as [c ->]. by eexists.
Qed.

Lemma check_fixed_feature_column cleaned f :
  is_fixed f = true -> isinstance f cls_TaskInput = false ->
  check_fixed_feature cleaned f
  = match columns cleaned !! key f with
    | Some _ => Ok tt
    | None => Raise (KeyError (key f))
    end.
Proof.
  intros Hfix Htask. unfold check_fixed_feature, getitem.
  destruct (fixed_value_single f Hfix) as [v ->]. rewrite bind_Ok_l.
  destruct (isinstance f cls_TaskInput); [discriminate Htask|].
  destruct (columns cleaned !! key f) as [column|]; [|done].
  simpl. by rewrite andb_false_r.
Qed.

Lemma elem_of_fixed_nontasks d f :
  f ∈ fixed_nontasks d <->
  f ∈ inputs d /\ is_fixed f = true /\ isinstance f cls_TaskInput = false.
Proof.
  unfold fixed_nontasks, get_fixed. rewrite !list_elem_of_filter. tauto.
Qed.

(** X25: the check of [tell] for fixed columns comes down to a check for
    columns: it passes exactly when the preprocessed experiments have a
    column for every fixed feature that is no task feature, whatever the
    column holds, and otherwise it raises the [KeyError] of such a feature
    without a column. *)
Theorem check_fixed_columns_needs_columns (d : Domain) (cleaned_experiments : DataFrame) :
  (check_fixed_columns d cleaned_experiments = Ok tt <->
   forall f, f ∈ inputs d -> is_fixed f = true -> isinstance f cls_TaskInput = false ->
     is_Some (columns cleaned_experiments !! key f)) /\
  (forall e, check_fixed_columns d cleaned_experiments = Raise e ->
     exists f, f ∈ inputs d /\ is_fixed f = true /\ isinstance f cls_TaskInput = false /\
       columns cleaned_experiments !! key f = None /\ e = KeyError (key f)).
Proof.
  unfold check_fixed_columns. split.
  - rewrite for_each_checks. split.
    + intros H f Hf Hfix Htask.
      specialize (H f (proj2 (elem_of_fixed_nontasks d f) (conj Hf (conj Hfix Htask)))).
      rewrite (check_fixed_feature_column _ f Hfix Htask) in H.
      by destruct (columns cleaned_experiments !! key f).
    + intros H f Hf. apply elem_of_fixed_nontasks in Hf as (Hf & Hfix & Htask).
      rewrite (check_fixed_feature_column _ f Hfix Htask).
      by destruct (H f Hf Hfix Htask) as [c ->].
  - intros e H.
    apply (for_each_raises
             (fun e => exists f, f ∈ inputs d /\ is_fixed f = true /\
                isinstance f cls_TaskInput = false /\
                columns cleaned_experiments !! key f = None /\ e = KeyError (key f)))
      in H; [done|].
    intros f [] e' Hf He. apply elem_of_fixed_nontasks in Hf as (Hf & Hfix & Htask).
    rewrite (check_fixed_feature_column _ f Hfix Htask) in He.
    destruct (columns cleaned_experiments !! key f) eqn:E; [done|].
    inversion He. by exists f.
Qed.

(** ** More theorems at the example strategies *)

Lemma constant_descriptor_strategy_well_formed : well_formed constant_descriptor_strategy.
Proof.
  split.
  - apply (bool_decide_unpack _). vm_compute. exact I.
  - intros f Hf. cbn in Hf.
    repeat (apply elem_of_cons in Hf as [->|Hf]); [..| by apply elem_of_nil in Hf].
    + vm_compute. reflexivity.
    + vm_compute. reflexivity.
    + cbn. split; [reflexivity|]. split; [in_list|]. split; [by eexists|].
      split; [reflexivity | repeat constructor].
  - intros c k Hc. simpl in Hc. by apply elem_of_nil in Hc.
Qed.

Lemma get_fixed_features_pins_constant_descriptors_witness :
  exists fixed_features,
    get_fixed_features constant_descriptor_strategy = Ok fixed_features /\
    fixed_features !! 2%nat = Some (Float 3).
Proof.
  destruct (get_fixed_features_pins_constant_descriptors constant_descriptor_strategy
              constant_descriptor_strategy_well_formed eq_refl)
    as (m & ff & Hm & Hff & Hpins).
  assert (E : _features2idx constant_descriptor_strategy
              = Ok {[ "if1" := [0%nat]; "if2" := [1%nat]; "if8" := [2%nat] ]})
    by (vm_compute; reflexivity).
  rewrite E in Hm. injection Hm as <-.
  exists ff. split; [exact Hff|].
  destruct (Hpins constant_descriptor_feature [2%nat] 0%nat 2%nat)
    as (l & u & Hl & Hu & Hv);
    [in_list | reflexivity | vm_compute; reflexivity | reflexivity
    | vm_compute; reflexivity | reflexivity |].
  vm_compute in Hl. vm_compute in Hu. injection Hl as <-. injection Hu as <-.
  exact Hv.
Defined.

Lemma get_fixed_values_list_all_free_witness :
  get_fixed_values_list sparse_free_strategy
  = get_nchoosek_combinations sparse_free_strategy.
Proof.
  apply (get_fixed_values_list_all_free sparse_free_strategy); [reflexivity|].
  eexists. vm_compute. reflexivity.
Defined.

(** ** The dispatch on a well-formed strategy *)

(** X26: on a well-formed strategy the dispatch of [_ask] never raises: one
    of the three optimizer calls is chosen, with the dictionary of
    [get_fixed_features] in the continuous branch, the list of
    [get_categorical_combinations] without n-choose-k constraints and the
    list of [get_fixed_values_list], which is not empty when the list of the
    categorical combinations is not, with them. *)
Theorem choose_optimizer_returns (s : BotorchStrategy) :
  well_formed s ->
  exists call,
    choose_optimizer s = Ok call /\
    (ask_branch s = PureContinuous ->
     exists fixed_features,
       get_fixed_features s = Ok fixed_features /\ call = optimize_acqf fixed_features) /\
    (ask_branch s = MixedCategorical ->
     exists l, get_categorical_combinations s = Ok l /\ call = optimize_acqf_mixed l) /\
    (ask_branch s = MixedNChooseK ->
     exists ccs l,
       get_categorical_combinations s = Ok ccs /\
       get_fixed_values_list s = Ok l /\ call = optimize_acqf_mixed l /\
       (ccs <> [] -> l <> [])).
Proof.
  intros Hwf. destruct (well_formed_covers s Hwf) as (m & Hm & Hcov).
  destruct (get_fixed_features_total s m Hwf Hm Hcov) as [ff Hff].
  destruct (get_categorical_combinations_total s m Hwf Hm Hcov) as [ccs Hccs].
  destruct (get_nchoosek_combinations_spec s m Hm
              (constrained_features_have_columns s m Hwf Hcov)) as (ncks & Hncks & Hne & _).
  destruct (get_fixed_values_list_merges s ccs ncks Hccs Hncks) as (full & Hfull & Hlen & _).
  unfold choose_optimizer.
  destruct (ask_branch_cases s) as [[_ E]|[(_ & _ & _ & E)|[_ E]]]; rewrite E.
  - rewrite Hff. eexists. split; [reflexivity|].
    split; [eauto|]. split; intros; discriminate.
  - rewrite Hccs. eexists. split; [reflexivity|].
    split; [intros; discriminate|]. split; [eauto | intros; discriminate].
  - rewrite Hfull. eexists. split; [reflexivity|].
    split; [intros; discriminate|]. split; [intros; discriminate|].
    intros _. exists ccs, full. split; [done|]. split; [done|]. split; [done|].
    intros Hc Hf. subst full. simpl in Hlen.
    destruct ccs; [done|]. destruct ncks; [done|]. simpl in Hlen. lia.
Qed.

Lemma choose_optimizer_returns_witness :
  exists l, choose_optimizer sparse_strategy = Ok (optimize_acqf_mixed l) /\ l <> [].
Proof.
  destruct (choose_optimizer_returns sparse_strategy sparse_strategy_well_formed)
    as (call & Hcall & _ & _ & H).
  destruct (H eq_refl) as (ccs & l & Hccs & _ & -> & Hne).
  exists l. split; [exact Hcall|]. apply Hne.
  assert (E : get_categorical_combinations sparse_strategy
              = Ok (unwrap (get_categorical_combinations sparse_strategy)))
    by (vm_compute; reflexivity).
  rewrite E in Hccs. injection Hccs as <-. vm_compute. discriminate.
Defined.
